(** * Duplicated_image_finder: the ImageProcessor pipeline, embedded and verified

    The development follows [src/image_processor.py] (class [ImageProcessor])
    and the reporting loop of [src/api_server.py].  Library calls (pathlib,
    shutil, hashlib, imagehash, face_recognition) are modelled by a small
    file-system model and by oracle records; the methods of the class are
    transcribed statement by statement over them. *)

From Stdlib Require Import ZArith QArith Lia Strings.Byte Strings.Ascii.
From stdpp Require Import base gmap sets list strings pretty.

(** Python exceptions: a call either returns a value or raises, the payload
    being [str(e)]. *)
Inductive result (A : Type) : Type :=
| Ok (a : A)
| Raise (msg : string).
Arguments Ok {A} a.
Arguments Raise {A} msg.

(** ** pathlib *)
Module PathLib.

(** A path is its sequence of components ([Path.parts]). *)
Abbreviation Path := (list string).

(** [d / n] *)
Definition joinpath (d : Path) (n : string) : Path := d ++ [n].

(** [p.name] *)
Definition name (p : Path) : string := List.last p EmptyString.

(** [p.parent] *)
Definition parent (p : Path) : Path := removelast p.

(** [(s[:i], s[i:])] for [i = s.rfind('.')], when there is a dot. *)
Fixpoint rsplit_dot (s : string) : option (string * string) :=
  match s with
  | EmptyString => None
  | String c r =>
      match rsplit_dot r with
      | Some (a, b) => Some (String c a, b)
      | None => if Ascii.eqb c "."%char then Some (EmptyString, s) else None
      end
  end.

(** [p.suffix]: [name[i:]] if [0 < i < len(name) - 1], else the empty string. *)
Definition suffix (p : Path) : string :=
  match rsplit_dot (name p) with
  | Some (a, b) =>
      if (0 <? String.length a) && (1 <? String.length b) then b else EmptyString
  | None => EmptyString
  end.

(** [p.stem]: [name[:i]] under the same condition, else the whole name. *)
Definition stem (p : Path) : string :=
  match rsplit_dot (name p) with
  | Some (a, b) =>
      if (0 <? String.length a) && (1 <? String.length b) then a else name p
  | None => name p
  end.

(** [f"{stem}_{counter}{suffix}"] *)
Definition numbered (p : Path) (counter : nat) : string :=
  stem p +:+ "_" +:+ pretty counter +:+ suffix p.

(** [d] is a proper ancestor of [p]: what [d.rglob] walks over. *)
Definition under (d p : Path) : bool :=
  bool_decide (d `prefix_of` p) && bool_decide (d ≠ p).

End PathLib.
Import PathLib.

(** ** The file system *)
Module FS.

Inductive node : Type :=
| File (content : list byte)
| Dir.

#[global] Instance byte_eq_dec : EqDecision byte := Byte.byte_eq_dec.

#[global] Instance node_eq_dec : EqDecision node.
Proof. solve_decision. Defined.

(** The tree is a finite map from paths to nodes; the empty path (the working
    directory or root) always exists and is a directory.  The tree holds
    regular files and directories, each under its resolved path: a lookup
    resolves neither [..] components nor links (see [plain] and [os_stat]
    further down). *)
Abbreviation fs := (gmap Path node).

Definition stat (t : fs) (p : Path) : option node :=
  match p with
  | [] => Some Dir
  | _ => t !! p
  end.

(** [p.exists()] *)
Definition exists_ (t : fs) (p : Path) : bool :=
  match stat t p with Some _ => true | None => false end.

Definition is_dir (t : fs) (p : Path) : bool :=
  match stat t p with Some Dir => true | _ => false end.

(** [p.stat().st_size]; a directory reports size 0 in this model, where a
    platform reports a size of its own: the statements that rank by size
    are about paths that are not directories ([file_paths]). *)
Definition st_size (t : fs) (p : Path) : result Z :=
  match stat t p with
  | Some (File c) => Ok (Z.of_nat (length c))
  | Some Dir => Ok 0%Z
  | None => Raise "FileNotFoundError"
  end.

(** [p.mkdir(exist_ok=True)]: the parent must be a directory. *)
Definition mkdir (t : fs) (p : Path) : result fs :=
  match stat t p with
  | Some Dir => Ok t
  | Some (File _) => Raise "FileExistsError"
  | None =>
      match stat t (parent p) with
      | Some Dir => Ok (<[p := Dir]> t)
      | Some (File _) => Raise "NotADirectoryError"
      | None => Raise "FileNotFoundError"
      end
  end.

(** [p.mkdir(parents=True, exist_ok=True)]: walks down from the top, creating
    what is missing; a regular file on the way raises. *)
Fixpoint mkdir_parents_from (pre : Path) (rest : list string) (t : fs)
  : result fs :=
  match rest with
  | [] => Ok t
  | c :: rest' =>
      let q := joinpath pre c in
      match stat t q with
      | Some Dir => mkdir_parents_from q rest' t
      | Some (File _) => Raise "FileExistsError"
      | None => mkdir_parents_from q rest' (<[q := Dir]> t)
      end
  end.

Definition mkdir_parents (t : fs) (p : Path) : result fs :=
  mkdir_parents_from [] p t.

(** [shutil.copy2(src, dst)]: a directory destination receives the file under
    the source's name; an existing regular file is overwritten. *)
Definition copy2 (t : fs) (src dst : Path) : result fs :=
  match stat t src with
  | Some (File c) =>
      let dst' := if is_dir t dst then joinpath dst (name src) else dst in
      match stat t (parent dst') with
      | Some Dir => Ok (<[dst' := File c]> t)
      | _ => Raise "FileNotFoundError"
      end
  | Some Dir => Raise "IsADirectoryError"
  | None => Raise "FileNotFoundError"
  end.

(** [shutil.move(src, dst)] of a regular file: a rename, which replaces an
    existing regular file at the destination.  Moving a directory tree is not
    modelled and raises, where [shutil.move] renames the directory with what
    is below it: the statements about moves are about paths that are not
    directories ([file_paths]). *)
Definition move (t : fs) (src dst : Path) : result fs :=
  match stat t src with
  | Some (File c) =>
      if is_dir t dst then
        let dst' := joinpath dst (name src) in
        if exists_ t dst' then Raise "Destination path already exists"
        else Ok (<[dst' := File c]> (delete src t))
      else
        match stat t (parent dst) with
        | Some Dir => Ok (<[dst := File c]> (delete src t))
        | _ => Raise "FileNotFoundError"
        end
  | Some Dir => Raise "directory move not modelled"
  | None => Raise "FileNotFoundError"
  end.

(** [p.unlink()] *)
Definition unlink (t : fs) (p : Path) : result fs :=
  match stat t p with
  | Some (File _) => Ok (delete p t)
  | Some Dir => Raise "IsADirectoryError"
  | None => Raise "FileNotFoundError"
  end.

End FS.
Import FS.

(** ** Python dictionaries

    A [dict] keeps its keys in insertion order, and the loops of the program
    iterate in that order, so a dictionary is an association list with unique
    keys: [d[k] = v] replaces the value in place when [k] is present and
    appends the pair otherwise. *)
Module Dict.
Section dict.
Context {K V : Type} `{EqDecision K}.

Definition t : Type := list (K * V).

Fixpoint get (d : t) (k : K) : option V :=
  match d with
  | [] => None
  | (k', v) :: d' => if decide (k' = k) then Some v else get d' k
  end.

(** [d[k] = v] *)
Fixpoint set (d : t) (k : K) (v : V) : t :=
  match d with
  | [] => [(k, v)]
  | (k', v') :: d' =>
      if decide (k' = k) then (k, v) :: d' else (k', v') :: set d' k v
  end.

Definition keys (d : t) : list K := d.*1.
Definition values (d : t) : list V := d.*2.
End dict.
Arguments t : clear implicits.
End Dict.

(** ** imagehash

    An [ImageHash] is an 8x8 bit matrix, here the number with those 64 bits;
    [h1 - h2] counts the positions where the two differ. *)
Fixpoint popcount_pos (p : positive) : nat :=
  match p with
  | xH => 1
  | xO q => popcount_pos q
  | xI q => S (popcount_pos q)
  end.

Definition popcount (n : N) : nat :=
  match n with
  | N0 => 0
  | Npos p => popcount_pos p
  end.

Definition hash_sub (h1 h2 : N) : Z := Z.of_nat (popcount (N.lxor h1 h2)).

(** The dictionary returned by [calculate_image_hashes]. *)
Record hashes : Type := {
  h_phash : N;
  h_dhash : N;
  h_whash : N;
  h_size : Z;
  h_width : Z;
  h_height : Z;
  h_pixels : Z
}.

(** One entry of the mapping returned by [find_duplicates]. *)
Record group_data : Type := {
  files : list Path;
  resolutions : Dict.t Path (Z * Z * Z);
  type : string
}.

(** The attributes set by [ImageProcessor.__init__] that stay fixed; the two
    mutable ones, [known_faces] and [person_counter], are in [face_state]
    below. *)
Record ImageProcessor : Type := {
  source_dirs : list Path;
  output_dir : Path;
  supported_formats : list string;
  hash_threshold : Z;
  use_cnn : bool
}.

Definition default_output_dir : Path := ["organized_images"].
Definition default_hash_threshold : Z := 5.
Definition default_use_cnn : bool := true.

(** [ImageProcessor(source_dirs, output_dir, hash_threshold, use_cnn)] *)
Definition init (dirs : list Path) (out : Path) (threshold : Z) (cnn : bool)
  : ImageProcessor :=
  {| source_dirs := dirs;
     output_dir := out;
     supported_formats :=
       [".jpg"; ".jpeg"; ".png"; ".bmp"; ".gif"; ".tiff"; ".webp"];
     hash_threshold := threshold;
     use_cnn := cnn |}.

(** [ImageProcessor(source_dirs)] with every default. *)
Definition init_default (dirs : list Path) : ImageProcessor :=
  init dirs default_output_dir default_hash_threshold default_use_cnn.

(** hashlib and PIL/imagehash, as far as the program looks at them. *)
Record Imaging : Type := {
  Image : Type;
  md5_hexdigest : list byte → string;
  image_open : list byte → result Image;
  image_size : Image → Z * Z;
  imagehash_phash : Image → N;
  imagehash_dhash : Image → N;
  imagehash_whash : Image → N
}.

(** ** File Enumerator *)

(** [str.upper] and [str.lower], on the ASCII letters. *)
Definition ascii_upper (c : ascii) : ascii :=
  let n := nat_of_ascii c in
  if (97 <=? n) && (n <=? 122) then ascii_of_nat (n - 32) else c.

Definition ascii_lower (c : ascii) : ascii :=
  let n := nat_of_ascii c in
  if (65 <=? n) && (n <=? 90) then ascii_of_nat (n + 32) else c.

Fixpoint str_map (f : ascii → ascii) (s : string) : string :=
  match s with
  | EmptyString => EmptyString
  | String c r => String (f c) (str_map f r)
  end.

Definition upper : string → string := str_map ascii_upper.
Definition lower : string → string := str_map ascii_lower.

(** [s.endswith(suf)] *)
Fixpoint ends_with (s suf : string) : bool :=
  String.eqb s suf
  || match s with
     | EmptyString => false
     | String _ r => ends_with r suf
     end.

(** Whether a file name matches the glob pattern [f'*{ext}'].  pathlib
    compares letters exactly on a case-sensitive platform (POSIX) and folds
    case on a case-insensitive one (Windows). *)
Definition glob_match (case_sensitive : bool) (nm ext : string) : bool :=
  if case_sensitive then ends_with nm ext
  else ends_with (lower nm) (lower ext).

(** [d.rglob(f'*{ext}')]: every entry strictly below [d] whose name matches. *)
Definition rglob (case_sensitive : bool) (t : fs) (d : Path) (ext : string)
  : list Path :=
  List.filter (λ p, under d p && glob_match case_sensitive (name p) ext)
              (map_to_list t).*1.

Section Enumerator.
Variable case_sensitive : bool.

Definition get_image_files (self : ImageProcessor) (t : fs) : list Path :=
  foldl
    (λ image_files source_dir,
       if negb (exists_ t source_dir) then image_files
       else
         foldl
           (λ image_files ext,
              (image_files ++ rglob case_sensitive t source_dir ext)
              ++ rglob case_sensitive t source_dir (upper ext))
           image_files (supported_formats self))
    [] (source_dirs self).
End Enumerator.

(** ** Hash Engine and Duplicate Grouper *)
Section Duplicates.
Context (lib : Imaging).

(** A file that cannot be opened and read yields [None]. *)
Definition calculate_md5_hash (t : fs) (file_path : Path) : option string :=
  match stat t file_path with
  | Some (File c) => Some (md5_hexdigest lib c)
  | _ => None
  end.

Definition calculate_image_hashes (t : fs) (image_path : Path)
  : option hashes :=
  match stat t image_path with
  | Some (File c) =>
      match image_open lib c with
      | Ok img =>
          let '(width, height) := image_size lib img in
          Some {| h_phash := imagehash_phash lib img;
                  h_dhash := imagehash_dhash lib img;
                  h_whash := imagehash_whash lib img;
                  h_size := Z.of_nat (length c);
                  h_width := width;
                  h_height := height;
                  h_pixels := width * height |}
      | Raise _ => None
      end
  | _ => None
  end.

Definition get_image_resolution (t : fs) (image_path : Path)
  : option (Z * Z * Z) :=
  match stat t image_path with
  | Some (File c) =>
      match image_open lib c with
      | Ok img =>
          let '(width, height) := image_size lib img in
          Some (width, height, (width * height)%Z)
      | Raise _ => None
      end
  | _ => None
  end.

(** Step 1, the body of the first loop: [md5_to_files[md5_hash].append]
    on a [defaultdict(list)], skipped when the digest is falsy. *)
Definition md5_step (t : fs) (md5_to_files : Dict.t string (list Path))
    (img_path : Path) : Dict.t string (list Path) :=
  match calculate_md5_hash t img_path with
  | Some md5_hash =>
      if bool_decide (md5_hash = EmptyString) then md5_to_files
      else
        Dict.set md5_to_files md5_hash
          (default [] (Dict.get md5_to_files md5_hash) ++ [img_path])
  | None => md5_to_files
  end.

(** The comprehension building [exact_duplicates]; its keys are distinct
    because those of [md5_to_files] are. *)
Definition exact_duplicates_of (md5_to_files : Dict.t string (list Path))
  : Dict.t string (list Path) :=
  map (λ '(md5, fl), ("exact_" +:+ md5, fl))
      (List.filter (λ '(_, fl), 1 <? length fl) md5_to_files).

(** Step 2, first loop. *)
Definition hashes_step (t : fs) (image_hashes : Dict.t Path hashes)
    (img_path : Path) : Dict.t Path hashes :=
  match calculate_image_hashes t img_path with
  | Some h => Dict.set image_hashes img_path h
  | None => image_hashes
  end.

(** The condition under which [img2_path] joins the group. *)
Definition joins (self : ImageProcessor) (hash1 hash2 : hashes) : bool :=
  let phash_diff := hash_sub (h_phash hash1) (h_phash hash2) in
  let dhash_diff := hash_sub (h_dhash hash1) (h_dhash hash2) in
  let whash_diff := hash_sub (h_whash hash1) (h_whash hash2) in
  let thr := hash_threshold self in
  ((phash_diff <=? thr) && (dhash_diff <=? thr) && (whash_diff <=? thr))%Z
  || (2 <=? Z.b2z (phash_diff <=? thr) + Z.b2z (dhash_diff <=? thr)
            + Z.b2z (whash_diff <=? thr))%Z.

(** Body of the inner loop, on [(group, processed)]. *)
Definition inner_step (self : ImageProcessor) (img1_path : Path)
    (hash1 : hashes) (st : list Path * gset Path) (item : Path * hashes)
  : list Path * gset Path :=
  let '(group, processed) := st in
  let '(img2_path, hash2) := item in
  if bool_decide (img2_path ∈ processed) || bool_decide (img1_path = img2_path)
  then st
  else if joins self hash1 hash2
       then (group ++ [img2_path], processed ∪ {[img2_path]})
       else st.

(** Body of the outer loop, on [(similar_groups, processed)]. *)
Definition outer_step (self : ImageProcessor)
    (image_hashes : Dict.t Path hashes)
    (st : list (list Path) * gset Path) (item : Path * hashes)
  : list (list Path) * gset Path :=
  let '(similar_groups, processed) := st in
  let '(img1_path, hash1) := item in
  if bool_decide (img1_path ∈ processed) then st
  else
    let '(group, processed) :=
      foldl (inner_step self img1_path hash1)
            ([img1_path], processed ∪ {[img1_path]}) image_hashes in
    if 1 <? length group then (similar_groups ++ [group], processed)
    else (similar_groups, processed).

Definition similar_groups_of (self : ImageProcessor)
    (image_hashes : Dict.t Path hashes) : list (list Path) :=
  (foldl (outer_step self image_hashes) ([], ∅) image_hashes).1.

(** The [resolutions] dictionary of one group. *)
Definition resolutions_of (t : fs) (fl : list Path)
  : Dict.t Path (Z * Z * Z) :=
  foldl (λ resolutions f,
           match get_image_resolution t f with
           | Some res => Dict.set resolutions f res
           | None => resolutions
           end) [] fl.

(** [f"group_{group_id}"] *)
Definition group_key (group_id : nat) : string := "group_" +:+ pretty group_id.

Definition add_group (t : fs) (ty : string)
    (st : Dict.t string group_data * nat) (fl : list Path)
  : Dict.t string group_data * nat :=
  let '(all_duplicates, group_id) := st in
  (Dict.set all_duplicates (group_key group_id)
     {| files := fl; resolutions := resolutions_of t fl; type := ty |},
   S group_id).

Definition exact_files_of (exact_duplicates : Dict.t string (list Path))
  : gset Path :=
  foldl (λ exact_files fl, exact_files ∪ list_to_set fl) ∅
        (Dict.values exact_duplicates).

(** [any(f in exact_files for f in group)] *)
Definition touches (exact_files : gset Path) (group : list Path) : bool :=
  existsb (λ f, bool_decide (f ∈ exact_files)) group.

Definition find_duplicates (self : ImageProcessor) (t : fs)
    (image_files : list Path) : Dict.t string group_data :=
  let md5_to_files := foldl (md5_step t) [] image_files in
  let exact_duplicates := exact_duplicates_of md5_to_files in
  let image_hashes := foldl (hashes_step t) [] image_files in
  let similar_groups := similar_groups_of self image_hashes in
  let st :=
    foldl (add_group t "exact") ([], 0) (Dict.values exact_duplicates) in
  let exact_files := exact_files_of exact_duplicates in
  let st :=
    foldl (λ st group,
             if negb (touches exact_files group)
             then add_group t "similar" st group
             else st)
          st similar_groups in
  st.1.
End Duplicates.

(** ** Resolution-Based Resolver *)

(** [list.sort(key=..., reverse=True)] on keys that are pairs of integers:
    descending, and stable (equal keys keep their original order). *)
Definition key_lt (k1 k2 : Z * Z) : bool :=
  ((k1.1 <? k2.1) || ((k1.1 =? k2.1) && (k1.2 <? k2.2)))%Z.

Section Sort.
Context {A : Type} (key : A → Z * Z).

Fixpoint insert_desc (x : A) (l : list A) : list A :=
  match l with
  | [] => [x]
  | y :: l' =>
      if key_lt (key x) (key y) then y :: insert_desc x l' else x :: l
  end.

Definition sort_desc (l : list A) : list A := foldr insert_desc [] l.
End Sort.

(** [p.stat().st_size if p.exists() else 0] *)
Definition size_or_zero (t : fs) (p : Path) : Z :=
  if exists_ t p then
    match st_size t p with Ok n => n | Raise _ => 0%Z end
  else 0%Z.

(** The [while dest.exists()] loop shared by the move of a duplicate and the
    organizer's copy; [fuel] bounds the number of iterations, and [None] means
    the bound was reached. *)
Fixpoint collision_loop (fuel : nat) (t : fs) (folder src dest : Path)
    (counter : nat) : option Path :=
  if exists_ t dest then
    match fuel with
    | 0 => None
    | S fuel' =>
        collision_loop fuel' t folder src
          (joinpath folder (numbered src counter)) (S counter)
    end
  else Some dest.

(** [dest = folder / src.name; counter = 1; while ...]: the tree has
    [size t] entries, so more iterations than that are never needed. *)
Definition free_dest (t : fs) (folder src : Path) : option Path :=
  collision_loop (S (size t)) t folder src (joinpath folder (name src)) 1.

Section Resolver.

(** The tuples [(f, width, height, pixels)] of [delete_duplicates]. *)
Definition files_with_res (g : group_data)
  : list (Path * Z * Z * Z) :=
  map (λ f, match Dict.get (resolutions g) f with
            | Some (width, height, pixels) => (f, width, height, pixels)
            | None => (f, 0, 0, 0)%Z
            end) (files g).

Definition rank_key (t : fs) (x : Path * Z * Z * Z) : Z * Z :=
  (x.2, size_or_zero t x.1.1.1).

(** All members of a group but the first of the ranking. *)
Definition low_res_of (t : fs) (g : group_data) : list Path :=
  map (λ x, x.1.1.1) (tail (sort_desc (rank_key t) (files_with_res g))).

(** Body of the [try] inside the last loop of [delete_duplicates]. *)
Definition remove_one (t : fs) (move_to_folder : bool)
    (duplicates_folder : option Path) (dup_file : Path)
  : option (result fs) :=
  if move_to_folder then
    match duplicates_folder with
    | None => Some (Raise "unsupported operand type(s) for /")
    | Some folder =>
        dest ← free_dest t folder dup_file;
        Some (move t dup_file dest)
    end
  else Some (unlink t dup_file).

Fixpoint remove_all (move_to_folder : bool) (duplicates_folder : option Path)
    (low_res_files : list Path) (t : fs) (deleted_files : list Path)
  : option (fs * list Path) :=
  match low_res_files with
  | [] => Some (t, deleted_files)
  | dup_file :: rest =>
      r ← remove_one t move_to_folder duplicates_folder dup_file;
      match r with
      | Ok t' =>
          remove_all move_to_folder duplicates_folder rest t'
                     (deleted_files ++ [dup_file])
      | Raise _ =>
          remove_all move_to_folder duplicates_folder rest t deleted_files
      end
  end.

(** [delete_duplicates(duplicates, move_to_folder, auto_delete_low_res)]:
    the tree afterwards, and the returned list or the exception that
    escapes; [None] if a collision loop ran out of fuel. *)
Definition delete_duplicates (self : ImageProcessor) (t : fs)
    (duplicates : Dict.t string group_data)
    (move_to_folder auto_delete_low_res : bool)
  : option (fs * result (list Path)) :=
  let made :=
    if move_to_folder then
      match source_dirs self with
      | d :: _ =>
          let duplicates_folder := joinpath d "_duplicates" in
          match mkdir t duplicates_folder with
          | Ok t' => Ok (t', Some duplicates_folder)
          | Raise e => Raise e
          end
      | [] => Ok (t, None)
      end
    else Ok (t, None) in
  match made with
  | Raise e => Some (t, Raise e)
  | Ok (t1, duplicates_folder) =>
      let low_res_files :=
        foldl (λ low_res_files g, low_res_files ++ low_res_of t1 g) []
              (Dict.values duplicates) in
      match low_res_files with
      | [] => Some (t1, Ok [])
      | _ =>
          '(t2, deleted_files) ←
            remove_all move_to_folder duplicates_folder low_res_files t1 [];
          Some (t2, Ok deleted_files)
      end
  end.

(** The reporting loop of the [/api/find-duplicates] route. *)
Definition report_rows (t : fs) (g : group_data)
  : list (Path * (Z * Z * Z) * Z) :=
  map (λ f, (f, default (0, 0, 0)%Z (Dict.get (resolutions g) f),
             size_or_zero t f)) (files g).

Definition report_key (x : Path * (Z * Z * Z) * Z) : Z * Z :=
  (x.1.2.2, x.2).

Definition ranked (t : fs) (g : group_data)
  : list (Path * (Z * Z * Z) * Z) :=
  sort_desc report_key (report_rows t g).

(** The inner loop: every row but the first adds its size to
    [total_space]. *)
Definition add_group_space (t : fs) (total_space : Z) (g : group_data) : Z :=
  foldl (λ total_space x, total_space + x.2)%Z total_space
        (tail (ranked t g)).

(** [result['space_saved']] *)
Definition space_saved (t : fs) (duplicates : Dict.t string group_data) : Z :=
  foldl (add_group_space t) 0%Z (Dict.values duplicates).
End Resolver.

(** ** Face Clustering Engine *)

#[global] Instance result_ret : MRet result := λ A a, Ok a.
#[global] Instance result_bind : MBind result :=
  λ A B f m, match m with Ok a => f a | Raise e => Raise e end.

(** face_recognition and dlib, as far as the program looks at them.
    [face_distance] is the Euclidean distance between two embeddings, and
    [compare_faces] accepts when it is at most the tolerance. *)
Record FaceLib : Type := {
  Pixels : Type;
  Location : Type;
  Encoding : Type;
  load_image_file : list byte → result Pixels;
  face_locations : Pixels → string → nat → result (list Location);
  face_encodings : Pixels → Location → result (list Encoding);
  face_distance : Encoding → Encoding → Q;
  dlib_importable : bool;
  blank_image : Pixels
}.

(** The two mutable attributes of the processor. *)
Record face_state (E : Type) : Type := {
  known_faces : Dict.t string E;
  person_counter : nat
}.
Arguments known_faces {E} _.
Arguments person_counter {E} _.

(** Their values after [__init__]. *)
Definition init_faces {E : Type} : face_state E :=
  {| known_faces := []; person_counter := 0 |}.

(** The dictionary returned by [organize_images]. *)
Record organize_result : Type := {
  processed : nat;
  total : nat;
  person_folders : nat;
  faces_detected : nat;
  no_faces : nat;
  errors : list string
}.

Definition not_detected : string := "Not Detected Persons".
Definition multiple_persons : string := "Multiple Persons".

(** [f"Person_{self.person_counter}"] *)
Definition person_label (n : nat) : string := "Person_" +:+ pretty n.

Section Faces.
Context (lib : FaceLib).
Let E : Type := Encoding lib.

Definition face_model (self : ImageProcessor) : string :=
  if use_cnn self then "cnn" else "hog".

(** The body of the [try] in [detect_faces]. *)
Definition detect_faces_try (self : ImageProcessor) (t : fs)
    (image_path : Path) : result (list (Location lib) * Pixels lib) :=
  image ← match stat t image_path with
          | Some (File c) => load_image_file lib c
          | Some Dir => Raise "IsADirectoryError"
          | None => Raise "FileNotFoundError"
          end;
  locs ← face_locations lib image (face_model self) 1;
  locs ← (if (length locs =? 0) && use_cnn self
          then face_locations lib image "hog" 1
          else Ok locs);
  locs ← (if length locs =? 0
          then face_locations lib image "hog" 2
          else Ok locs);
  Ok (locs, image).

(** [detect_faces]: any exception becomes [([], None)]. *)
Definition detect_faces (self : ImageProcessor) (t : fs) (image_path : Path)
  : list (Location lib) * option (Pixels lib) :=
  match detect_faces_try self t image_path with
  | Ok (locs, image) => (locs, Some image)
  | Raise _ => ([], None)
  end.

(** [get_face_encoding]: any exception, or no encoding, becomes [None]. *)
Definition get_face_encoding (image : Pixels lib)
    (face_location : Location lib) : option E :=
  match face_encodings lib image face_location with
  | Ok (e :: _) => Some e
  | Ok [] => None
  | Raise _ => None
  end.

(** [face_recognition.compare_faces([known_encoding], face_encoding,
    tolerance)[0]] *)
Definition compare_faces (known_encoding face_encoding : E) (tolerance : Q)
  : bool :=
  Qle_bool (face_distance lib known_encoding face_encoding) tolerance.

Definition identify_person (st : face_state E) (face_encoding : E)
    (tolerance : Q) : option string :=
  fst <$> List.find (λ kv, compare_faces kv.2 face_encoding tolerance)
                    (known_faces st).

(** Body of the loop over the faces of one image, on the processor's state
    and [persons_in_image].  Nothing in it raises once the encoding is
    there, so the inner [except] is never entered. *)
Definition face_step (image : Pixels lib)
    (acc : face_state E * gset string) (face_location : Location lib)
  : face_state E * gset string :=
  let '(st, persons_in_image) := acc in
  match get_face_encoding image face_location with
  | None => acc
  | Some face_encoding =>
      match identify_person st face_encoding (1 # 2) with
      | Some person_name => (st, persons_in_image ∪ {[person_name]})
      | None =>
          let counter := S (person_counter st) in
          let person_name := person_label counter in
          ({| known_faces :=
                Dict.set (known_faces st) person_name face_encoding;
              person_counter := counter |},
           persons_in_image ∪ {[person_name]})
      end
  end.

(** [process_image]: the new state and the outcome of the call.  The method
    wraps its whole body in [try ... except Exception], so the outcome is
    always a returned label. *)
Definition process_image (self : ImageProcessor) (st : face_state E)
    (t : fs) (image_path : Path) : face_state E * result string :=
  match detect_faces self t image_path with
  | ([], _) | (_, None) => (st, Ok not_detected)
  | (locs, Some image) =>
      let '(st', persons_in_image) := foldl (face_step image) (st, ∅) locs in
      if 1 <? size persons_in_image then (st', Ok multiple_persons)
      else if size persons_in_image =? 1
           then (st', Ok (default EmptyString
                                  (head (elements persons_in_image))))
           else (st', Ok not_detected)
  end.

(** ** Organizer *)

(** The [try] block that creates the folder and copies the file: the tree
    afterwards and whether the block raised. *)
Definition copy_into (t : fs) (out : Path) (folder_name : string)
    (img_path : Path) : option (fs * result unit) :=
  let person_folder := joinpath out folder_name in
  match mkdir_parents t person_folder with
  | Raise e => Some (t, Raise e)
  | Ok t1 =>
      dest_path ← free_dest t1 person_folder img_path;
      match copy2 t1 img_path dest_path with
      | Ok t2 => Some (t2, Ok ())
      | Raise e => Some (t1, Raise e)
      end
  end.

(** The local variables of [organize_images] that the loop updates,
    together with the tree and the processor's state. *)
Record loop_state : Type := {
  l_fs : fs;
  l_faces : face_state E;
  l_processed : nat;
  l_errors : list string;
  l_faces_detected : nat;
  l_no_faces_count : nat
}.

(** [str(e)[:n]] *)
Definition truncate (n : nat) (msg : string) : string := String.substring 0 n msg.

(** One iteration of the loop over [enumerate(image_files, 1)].
    [progress_callback], when given, either returns or raises. *)
Definition organize_step (self : ImageProcessor)
    (progress_callback : option (nat → nat → Path → result unit))
    (total_ : nat) (s : loop_state) (idx : nat) (img_path : Path)
  : option loop_state :=
  let called :=
    match progress_callback with
    | Some cb => cb idx total_ img_path
    | None => Ok ()
    end in
  match called with
  | Raise e =>
      let error_msg :=
        "Unexpected error processing " +:+ name img_path +:+ ": "
        +:+ truncate 100 e in
      Some {| l_fs := l_fs s;
              l_faces := l_faces s;
              l_processed := S (l_processed s);
              l_errors := l_errors s ++ [error_msg];
              l_faces_detected := l_faces_detected s;
              l_no_faces_count := S (l_no_faces_count s) |}
  | Ok _ =>
      let '(faces, outcome) :=
        process_image self (l_faces s) (l_fs s) img_path in
      let '(folder_name, errs) :=
        match outcome with
        | Ok folder_name => (folder_name, l_errors s)
        | Raise e =>
            let error_msg :=
              "Error in process_image for " +:+ name img_path +:+ ": "
              +:+ truncate 100 e in
            (not_detected, l_errors s ++ [error_msg])
        end in
      let detected := negb (String.eqb folder_name not_detected) in
      '(t', copied) ← copy_into (l_fs s) (output_dir self) folder_name img_path;
      let errs :=
        match copied with
        | Ok _ => errs
        | Raise e =>
            errs ++ ["Error copying " +:+ name img_path +:+ ": "
                     +:+ truncate 100 e]
        end in
      Some {| l_fs := t';
              l_faces := faces;
              l_processed := S (l_processed s);
              l_errors := errs;
              l_faces_detected :=
                if detected then S (l_faces_detected s)
                else l_faces_detected s;
              l_no_faces_count :=
                if detected then l_no_faces_count s
                else S (l_no_faces_count s) |}
  end.

Fixpoint organize_loop (self : ImageProcessor)
    (progress_callback : option (nat → nat → Path → result unit))
    (total_ : nat) (idx : nat) (image_files : list Path) (s : loop_state)
  : option loop_state :=
  match image_files with
  | [] => Some s
  | img_path :: rest =>
      s' ← organize_step self progress_callback total_ s idx img_path;
      organize_loop self progress_callback total_ (S idx) rest s'
  end.

(** The two checks made before the loop, and the entries they leave in
    [errors]. *)
Definition preflight_errors : list string :=
  let errs :=
    if dlib_importable lib then []
    else ["dlib library not installed - face detection cannot work"] in
  match face_locations lib (blank_image lib) "hog" 1 with
  | Ok _ => errs
  | Raise e =>
      errs ++ ["face_recognition library error: face_recognition test failed: "
               +:+ truncate 200 e]
  end.

(** [organize_images(image_files, progress_callback)]: the tree and the
    processor's state afterwards, and the returned dictionary or the
    exception that escapes; [None] if a collision loop ran out of fuel. *)
Definition organize_images (self : ImageProcessor) (st : face_state E)
    (t : fs) (image_files : list Path)
    (progress_callback : option (nat → nat → Path → result unit))
  : option (fs * face_state E * result organize_result) :=
  match mkdir_parents t (output_dir self) with
  | Raise e => Some (t, st, Raise e)
  | Ok t0 =>
      let total_ := length image_files in
      s ← organize_loop self progress_callback total_ 1 image_files
            {| l_fs := t0;
               l_faces := st;
               l_processed := 0;
               l_errors := preflight_errors;
               l_faces_detected := 0;
               l_no_faces_count := 0 |};
      Some (l_fs s, l_faces s,
            Ok {| processed := l_processed s;
                  total := total_;
                  person_folders := length (known_faces (l_faces s));
                  faces_detected := l_faces_detected s;
                  no_faces := l_no_faces_count s;
                  errors := l_errors s |})
  end.
End Faces.

(** * Notions used to state the properties *)

(** How many of the three distances are within the threshold. *)
Definition votes (self : ImageProcessor) (hash1 hash2 : hashes) : nat :=
  length (List.filter (λ d, (d <=? hash_threshold self)%Z)
            [hash_sub (h_phash hash1) (h_phash hash2);
             hash_sub (h_dhash hash1) (h_dhash hash2);
             hash_sub (h_whash hash1) (h_whash hash2)]).

(** No file occurs in two groups of the list. *)
Fixpoint pairwise_disjoint (gs : list (list Path)) : Prop :=
  match gs with
  | [] => True
  | g :: rest => Forall (λ g', g ## g') rest ∧ pairwise_disjoint rest
  end.

(** What the outer loop of the similarity step maintains on
    [(similar_groups, processed)]: every group so far lies inside [processed]
    and inside the hashed files, has at least two members, none repeated,
    and no two groups share a file. *)
Definition outer_inv (image_hashes : Dict.t Path hashes)
    (st : list (list Path) * gset Path) : Prop :=
  Forall (λ g, (∀ f, f ∈ g → f ∈ st.2 ∧ f ∈ Dict.keys image_hashes)
               ∧ 1 < length g ∧ NoDup g) st.1
  ∧ pairwise_disjoint st.1.

(** * Scenarios *)

(** A toy imaging library: the digest of a file is its bytes read as a string,
    an image is the first byte of its file, every image is 10 by 10, and the
    three perceptual hashes are that byte. *)
Definition toy_imaging : Imaging :=
  {| Image := byte;
     md5_hexdigest := String.string_of_list_byte;
     image_open := λ c, match c with
                        | b :: _ => Ok b
                        | [] => Raise "cannot identify image file"
                        end;
     image_size := λ _, (10, 10)%Z;
     imagehash_phash := Byte.to_N;
     imagehash_dhash := Byte.to_N;
     imagehash_whash := Byte.to_N |}.

(** Four pictures in one folder: [a] and [b] are byte-identical, [c] is
    3 bits away from them, and [d] is 5 bits away from [c] and 8 from [a]. *)
Definition pic_a : Path := ["pics"; "a.jpg"].
Definition pic_b : Path := ["pics"; "b.jpg"].
Definition pic_c : Path := ["pics"; "c.jpg"].
Definition pic_d : Path := ["pics"; "d.jpg"].

Definition pics_fs : fs :=
  list_to_map [(["pics"], Dir);
               (pic_a, File [x00]); (pic_b, File [x00]);
               (pic_c, File [x07]); (pic_d, File [xff])].

Definition pics_processor : ImageProcessor := init_default [["pics"]].

(** The order of the ranking: by pixel count, then by file size. *)
Definition lex_lt (k1 k2 : Z * Z) : Prop :=
  (k1.1 < k2.1 ∨ (k1.1 = k2.1 ∧ k1.2 < k2.2))%Z.

Definition lex_le (k1 k2 : Z * Z) : Prop := ¬ lex_lt k2 k1.

(** The pixel count a group records for a file ([0] when it records none) and
    the pair by which the file is ranked. *)
Definition pixels_of (g : group_data) (f : Path) : Z :=
  match Dict.get (resolutions g) f with
  | Some (_, _, pixels) => pixels
  | None => 0%Z
  end.

Definition file_key (t : fs) (g : group_data) (f : Path) : Z * Z :=
  (pixels_of g f, size_or_zero t f).

(** The file the report keeps: row 0 of the ranking. *)
Definition keep (t : fs) (g : group_data) : option Path :=
  (λ x, x.1.1) <$> head (ranked t g).

(** The files [delete_duplicates] would act on, over all groups. *)
Definition redundant (t : fs) (duplicates : Dict.t string group_data)
  : list Path :=
  concat (low_res_of t <$> Dict.values duplicates).

Definition Zsum (l : list Z) : Z := foldr Z.add 0%Z l.

(** Three files of 100, 200 and 300 bytes and the same resolution, reported
    as one group. *)
Definition size_a : Path := ["pics"; "s100.png"].
Definition size_b : Path := ["pics"; "s200.png"].
Definition size_c : Path := ["pics"; "s300.png"].

Definition sizes_fs : fs :=
  list_to_map [(["pics"], Dir);
               (size_a, File (repeat x00 100));
               (size_b, File (repeat x01 200));
               (size_c, File (repeat x02 300))].



(** A folder with one picture whose extension mixes cases and one
    sub-folder whose name ends like a picture's. *)
Definition pic_mixed : Path := ["shots"; "e.Jpg"].
Definition album_dir : Path := ["shots"; "album.jpg"].
Definition pic_plain : Path := ["shots"; "f.jpg"].

Definition shots_fs : fs :=
  list_to_map [(["shots"], Dir); (pic_mixed, File [x01]);
               (album_dir, Dir); (pic_plain, File [x02])].

(** How often a path occurs in a list. *)
Definition occurrences (p : Path) (l : list Path) : nat :=
  length (List.filter (λ q, bool_decide (q = p)) l).

(** The clusters are [Person_1], ..., [Person_n] in the order of their
    creation, [n] being the counter. *)
Definition wf_faces {E : Type} (st : face_state E) : Prop :=
  Dict.keys (known_faces st) = person_label <$> seq 1 (person_counter st).

(** A toy face library: every byte of a file is one face, found by every
    detector, whose embedding is the byte's value in hundredths; the distance
    of two embeddings is the absolute difference; an empty file cannot be
    loaded. *)
Definition toy_distance (a b : Q) : Q :=
  if Qle_bool a b then (b - a)%Q else (a - b)%Q.

Definition toy_faces : FaceLib :=
  {| Pixels := list byte;
     Location := byte;
     Encoding := Q;
     load_image_file := λ c, match c with
                             | [] => Raise "cannot identify image file"
                             | _ => Ok c
                             end;
     face_locations := λ img _ _, Ok img;
     face_encodings := λ _ loc, Ok [(Z.of_N (Byte.to_N loc) # 100)%Q];
     face_distance := toy_distance;
     dlib_importable := true;
     blank_image := [] |}.

(** One cluster, at embedding 0. *)
Definition one_cluster : face_state Q :=
  {| known_faces := [(person_label 1, 0%Q)]; person_counter := 1 |}.

(** The entry that a failed copy leaves in [errors], and the one of the
    catch-all handler. *)
Definition copy_error (p : Path) (e : string) : string :=
  "Error copying " +:+ name p +:+ ": " +:+ truncate 100 e.

Definition unexpected_error (p : Path) (e : string) : string :=
  "Unexpected error processing " +:+ name p +:+ ": " +:+ truncate 100 e.

(** A picture with two faces far apart, and a file that cannot be loaded. *)
Definition duo_pic : Path := ["in"; "duo.jpg"].
Definition bad_pic : Path := ["in"; "bad.jpg"].

Definition duo_fs : fs :=
  list_to_map [(["in"], Dir); (duo_pic, File [x00; xc8]); (bad_pic, File [])].

Definition duo_processor : ImageProcessor := init_default [["in"]].

(** Whether a file is in some group of the given kind of a result, and
    whether it is in no group at all. *)
Definition in_group_of (ty : string) (r : Dict.t string group_data)
    (f : Path) : bool :=
  existsb (λ g, String.eqb (type g) ty && bool_decide (f ∈ files g))
          (Dict.values r).

Definition ungrouped (r : Dict.t string group_data) (f : Path) : bool :=
  negb (existsb (λ g, bool_decide (f ∈ files g)) (Dict.values r)).

(** The entry [find_duplicates] makes for a group. *)
Definition group_entry (lib : Imaging) (t : fs) (ty : string)
    (fl : list Path) : group_data :=
  {| files := fl; resolutions := resolutions_of lib t fl; type := ty |}.

(** What the first loop of [find_duplicates] maintains on [md5_to_files]:
    the digests are distinct keys, and a file listed under a digest is an
    input file with that digest. *)
Definition md5_inv (lib : Imaging) (t : fs) (image_files : list Path)
    (d : Dict.t string (list Path)) : Prop :=
  NoDup (Dict.keys d)
  ∧ ∀ m fl, (m, fl) ∈ d →
      ∀ f, f ∈ fl → calculate_md5_hash lib t f = Some m ∧ f ∈ image_files.

(** The similar groups of a result, as lists of files. *)
Definition similar_part (r : Dict.t string group_data) : list (list Path) :=
  files <$> List.filter (λ g, String.eqb (type g) "similar") (Dict.values r).

(** The three lists [find_duplicates] works with: the exact groups of the
    input, the candidate groups of the similarity step, and the candidates
    that contain no file of an exact group. *)
Definition exact_duplicates_in (lib : Imaging) (t : fs)
    (image_files : list Path) : Dict.t string (list Path) :=
  exact_duplicates_of (foldl (md5_step lib t) [] image_files).

Definition candidate_groups (lib : Imaging) (self : ImageProcessor) (t : fs)
    (image_files : list Path) : list (list Path) :=
  similar_groups_of self (foldl (hashes_step lib t) [] image_files).

Definition kept_candidates (lib : Imaging) (self : ImageProcessor) (t : fs)
    (image_files : list Path) : list (list Path) :=
  List.filter
    (λ g, negb (touches (exact_files_of (exact_duplicates_in lib t image_files))
                        g))
    (candidate_groups lib self t image_files).

(** * Further notions *)

(** Whether a file has the given digest and [find_duplicates] files it under
    it (an empty digest is skipped by [if md5_hash]). *)
Definition digest_is (lib : Imaging) (t : fs) (m : string) (f : Path) : bool :=
  bool_decide (calculate_md5_hash lib t f = Some m)
  && negb (bool_decide (m = EmptyString)).

(** A group of the similarity step: a first file, the seed, with hashes, and
    after it only files with hashes that pass the vote against the seed's. *)
Definition seeded (self : ImageProcessor) (hashes_of : Path → option hashes)
    (g : list Path) : Prop :=
  match g with
  | [] => False
  | s :: rest =>
      ∃ hs, hashes_of s = Some hs
            ∧ ∀ f, f ∈ rest →
                   ∃ h, hashes_of f = Some h ∧ joins self hs h = true
  end.

(** All the files a mapping of groups lists. *)
Definition listed (duplicates : Dict.t string group_data) : list Path :=
  concat (files <$> Dict.values duplicates).



(** A list whose keys never increase from one element to the next. *)
Fixpoint descending {A : Type} (key : A → Z * Z) (l : list A) : Prop :=
  match l with
  | x :: ((y :: _) as l') => key_lt (key x) (key y) = false ∧ descending key l'
  | _ => True
  end.

(** A group with its files listed in the order of the report's ranking. *)
Definition reranked (t : fs) (g : group_data) : group_data :=
  {| files := (λ x, x.1.1) <$> ranked t g;
     resolutions := resolutions g;
     type := type g |}.

(** [sum(len(group['files']) - 1 for group in duplicates.values())], the
    [duplicates_found] of the [/api/find-duplicates] route. *)
Definition duplicates_found (duplicates : Dict.t string group_data) : Z :=
  foldl (λ acc g, acc + (Z.of_nat (length (files g)) - 1))%Z 0%Z
        (Dict.values duplicates).


(** What an entry made by [organize_images] looks like: a directory on the
    way to the output folder or directly in it, or a file in a folder of the
    output folder that has the bytes of an input image. *)
Definition organizer_entry (out : Path) (image_files : list Path) (t' : fs)
    (q : Path) (n : node) : Prop :=
  match n with
  | Dir => q `prefix_of` out ∨ parent q = out
  | File c =>
      parent (parent q) = out
      ∧ ∃ p, p ∈ image_files ∧ p ≠ q ∧ t' !! p = Some (File c)
  end.

(** * The similarity step, as the specification words it *)

(** [processed] and [similar_groups] when the outer loop has gone through the
    entries [pre] of [image_hashes]. *)
Definition assigned_before (self : ImageProcessor)
    (image_hashes : Dict.t Path hashes) (pre : list (Path * hashes))
  : gset Path :=
  (foldl (outer_step self image_hashes) ([], ∅) pre).2.

Definition groups_before (self : ImageProcessor)
    (image_hashes : Dict.t Path hashes) (pre : list (Path * hashes))
  : list (list Path) :=
  (foldl (outer_step self image_hashes) ([], ∅) pre).1.

(** Whether an entry joins the seed [s] with hashes [hs]: it is not yet
    assigned, it is not the seed, and at least two of the three distances to
    the seed's hashes are within the threshold. *)
Definition joins_seed (self : ImageProcessor) (processed : gset Path)
    (s : Path) (hs : hashes) (item : Path * hashes) : bool :=
  negb (bool_decide (item.1 ∈ processed))
  && negb (bool_decide (item.1 = s))
  && (2 <=? votes self hs item.2).

(** The files that join the seed, in the order of [image_hashes]. *)
Definition joiners (self : ImageProcessor) (image_hashes : Dict.t Path hashes)
    (processed : gset Path) (s : Path) (hs : hashes) : list Path :=
  (List.filter (joins_seed self processed s hs) image_hashes).*1.

(** * Further scenarios *)

(** Two pictures with one face each, at embeddings 0.50 and 0.51. *)
Definition near_pic : Path := ["in"; "near.jpg"].
Definition far_pic : Path := ["in"; "far.jpg"].

Definition near_far_fs : fs :=
  list_to_map [(["in"], Dir); (near_pic, File [x32]); (far_pic, File [x33])].




(** * The reach of the file-system model

    The tree is keyed by paths as the operating system resolves them.  The
    system itself also accepts a path with [..] components, stepping back
    from a directory; [stat] does not.  The two agree on the paths spelled
    without [..]. *)
Definition plain (p : Path) : Prop := ".." ∉ p.

Fixpoint resolve_from (t : fs) (cur : Path) (rest : list string)
  : option Path :=
  match rest with
  | [] => Some cur
  | c :: rest' =>
      if String.eqb c ".." then
        if is_dir t cur then resolve_from t (parent cur) rest' else None
      else resolve_from t (joinpath cur c) rest'
  end.

Definition os_stat (t : fs) (p : Path) : option node :=
  q ← resolve_from t [] p; stat t q.


(** * Properties *)

Set Warnings "-clear-no-such-hyp".

(** ** Loops and dictionaries *)

Lemma foldl_invariant {A B : Type} (P : A → Prop) (f : A → B → A) l : ∀ a,
  P a → (∀ a x, P a → x ∈ l → P (f a x)) → P (foldl f a l).
Proof.
  induction l as [|x l IH]; intros a Ha Hstep; [done|].
  cbn. apply IH.
  - apply Hstep; [done|by left].
  - intros a' y Ha' Hy. apply Hstep; [done|by right].
Qed.

Lemma foldl_guarded {A B : Type} (c : B → bool) (f : A → B → A) l : ∀ a,
  foldl (λ a x, if c x then f a x else a) a l = foldl f a (List.filter c l).
Proof.
  induction l as [|x l IH]; intros a; [done|].
  cbn. destruct (c x); cbn; apply IH.
Qed.

Section DictFacts.
Context {K V : Type} `{EqDecision K}.
Implicit Types (d : Dict.t K V) (k : K) (v : V).

Lemma dict_set_fresh d k v :
  k ∉ Dict.keys d → Dict.set d k v = d ++ [(k, v)].
Proof.
  induction d as [|[k' v'] d IH]; intros Hk; [done|].
  cbn in *. rewrite not_elem_of_cons in Hk. destruct Hk as [Hne Hk].
  destruct (decide (k' = k)); [congruence|]. by rewrite IH.
Qed.

Lemma dict_set_present d k v :
  k ∈ Dict.keys d → Dict.keys (Dict.set d k v) = Dict.keys d.
Proof.
  induction d as [|[k' v'] d IH]; intros Hk; [by apply elem_of_nil in Hk|].
  cbn in *. destruct (decide (k' = k)) as [->|Hne]; [done|].
  apply elem_of_cons in Hk as [->|Hk]; [done|].
  cbn. f_equal. by apply IH.
Qed.

Lemma dict_set_keys_NoDup d k v :
  NoDup (Dict.keys d) → NoDup (Dict.keys (Dict.set d k v)).
Proof.
  intros Hnd. destruct (decide (k ∈ Dict.keys d)) as [Hin|Hout].
  - by rewrite dict_set_present.
  - rewrite dict_set_fresh by done. unfold Dict.keys in *.
    rewrite fmap_app. apply NoDup_app. split_and!; [done| |].
    + intros x Hx. cbn. rewrite list_elem_of_singleton. by intros ->.
    + cbn. apply NoDup_singleton.
Qed.

Lemma dict_set_elem d k v k' v' :
  (k', v') ∈ Dict.set d k v → (k', v') = (k, v) ∨ (k', v') ∈ d.
Proof.
  induction d as [|[k0 v0] d IH]; cbn.
  - rewrite list_elem_of_singleton. by left.
  - destruct (decide (k0 = k)) as [->|Hne].
    + rewrite !elem_of_cons. intros [?|?]; [by left|by right; right].
    + rewrite !elem_of_cons. intros [?|Hin]; [by right; left|].
      destruct (IH Hin); [by left|by right; right].
Qed.

Lemma dict_set_keys_elem d k v k' :
  k' ∈ Dict.keys (Dict.set d k v) ↔ k' = k ∨ k' ∈ Dict.keys d.
Proof.
  induction d as [|[k0 v0] d IH]; cbn.
  - rewrite list_elem_of_singleton. split; [by left|]. intros [?|H0]; [done|].
    by apply elem_of_nil in H0.
  - destruct (decide (k0 = k)) as [->|Hne]; cbn; rewrite !elem_of_cons.
    + naive_solver.
    + rewrite IH. naive_solver.
Qed.

Lemma dict_get_elem d k v : Dict.get d k = Some v → (k, v) ∈ d.
Proof.
  induction d as [|[k0 v0] d IH]; cbn; [done|].
  destruct (decide (k0 = k)) as [->|Hne].
  - intros [= ->]. by left.
  - intros Hg. right. by apply IH.
Qed.

Lemma dict_get_None d k : Dict.get d k = None ↔ k ∉ Dict.keys d.
Proof.
  induction d as [|[k0 v0] d IH]; cbn.
  - split; [intros _; apply not_elem_of_nil|done].
  - rewrite not_elem_of_cons. destruct (decide (k0 = k)) as [->|Hne].
    + split; [done|]. by intros [? _].
    + rewrite IH. naive_solver.
Qed.

Lemma dict_get_set_eq d k v : Dict.get (Dict.set d k v) k = Some v.
Proof.
  induction d as [|[k0 v0] d IH]; cbn.
  - by rewrite decide_True.
  - destruct (decide (k0 = k)) as [->|Hne]; cbn.
    + by rewrite decide_True.
    + by rewrite decide_False.
Qed.

Lemma dict_get_set_ne d k v k' :
  k ≠ k' → Dict.get (Dict.set d k v) k' = Dict.get d k'.
Proof.
  intros Hne. induction d as [|[k0 v0] d IH]; cbn.
  - by rewrite decide_False.
  - destruct (decide (k0 = k)) as [->|Hne0]; cbn.
    + by rewrite !decide_False.
    + destruct (decide (k0 = k')); [done|apply IH].
Qed.
End DictFacts.

(** ** Similarity grouping: the inner and the outer loop *)

Example hash_sub_examples :
  hash_sub 0 7 = 3%Z ∧ hash_sub 7 255 = 5%Z ∧ hash_sub 0 255 = 8%Z.
Proof. by vm_compute. Qed.

Lemma joins_majority self hash1 hash2 :
  joins self hash1 hash2 = true ↔ 2 ≤ votes self hash1 hash2.
Proof.
  unfold joins, votes. cbn [List.filter].
  destruct (_ <=? _)%Z, (_ <=? _)%Z, (_ <=? _)%Z; cbn; split; (lia || done).
Qed.

Lemma all_three_votes self hash1 hash2 :
  (hash_sub (h_phash hash1) (h_phash hash2) <=? hash_threshold self)%Z
  && (hash_sub (h_dhash hash1) (h_dhash hash2) <=? hash_threshold self)%Z
  && (hash_sub (h_whash hash1) (h_whash hash2) <=? hash_threshold self)%Z
  = true →
  votes self hash1 hash2 = 3.
Proof.
  unfold votes. cbn [List.filter].
  destruct (_ <=? _)%Z, (_ <=? _)%Z, (_ <=? _)%Z; cbn; done.
Qed.

Lemma dict_key_unique {V : Type} (d : Dict.t Path V) p v v' :
  NoDup (Dict.keys d) → (p, v) ∈ d → (p, v') ∈ d → v = v'.
Proof.
  induction d as [|[k0 v0] d IH]; cbn; intros Hnd H1 H2.
  - by apply elem_of_nil in H1.
  - apply NoDup_cons in Hnd as [Hk0 Hnd].
    apply elem_of_cons in H1 as [H1|H1], H2 as [H2|H2].
    + congruence.
    + injection H1 as -> ->. destruct Hk0.
      apply (list_elem_of_fmap_2 fst) in H2. done.
    + injection H2 as -> ->. destruct Hk0.
      apply (list_elem_of_fmap_2 fst) in H1. done.
    + by apply IH.
Qed.

Section InnerLoop.
Context (self : ImageProcessor) (img1_path : Path) (hash1 : hashes).

(** Who is in the group after the inner loop: the members it started with,
    and every file that was neither processed nor the seed and whose hashes
    pass the vote against the seed's. *)
Lemma inner_loop_members items : ∀ group processed group' processed',
  foldl (inner_step self img1_path hash1) (group, processed) items
    = (group', processed') →
  ∀ p, p ∈ group' ↔
       (p ∈ group ∨
        ((p ∉ processed) ∧ p ≠ img1_path ∧
         ∃ h, (p, h) ∈ items ∧ joins self hash1 h = true)).
Proof.
  induction items as [|[p2 h2] items IH];
    intros group processed group' processed' Hf p.
  - cbn in Hf. injection Hf as <- <-. split; [by left|].
    intros [?|(_ & _ & h & Hin & _)]; [done|]. by apply elem_of_nil in Hin.
  - cbn [foldl] in Hf. unfold inner_step at 2 in Hf.
    destruct (bool_decide (p2 ∈ processed) || bool_decide (img1_path = p2))
      eqn:Hskip.
    + rewrite (IH _ _ _ _ Hf p). split.
      * intros [?|(? & ? & h & Hin & ?)]; [by left|right].
        split_and!; try done. exists h. split; [by right|done].
      * intros [?|(Hp & Hne & h & Hin & Hj)]; [by left|].
        apply elem_of_cons in Hin as [Heq|Hin].
        -- injection Heq as Hp2 Hh2. subst p2 h2.
           apply orb_true_iff in Hskip as [H|H];
             apply bool_decide_eq_true in H; congruence.
        -- right. eauto 6.
    + apply orb_false_iff in Hskip as [H1 H2].
      apply bool_decide_eq_false in H1, H2.
      destruct (joins self hash1 h2) eqn:Hj.
      * rewrite (IH _ _ _ _ Hf p), elem_of_app, list_elem_of_singleton.
        split.
        -- intros [[?|Hpp]|(Hp & Hne & h & Hin & ?)].
           ++ by left.
           ++ subst p. right. split_and!; [done|congruence|].
              exists h2. split; [by left|done].
           ++ right. split_and!; [set_solver|done|].
              exists h. split; [by right|done].
        -- intros [?|(Hp & Hne & h & Hin & Hjh)]; [by left; left|].
           destruct (decide (p = p2)) as [Hpp|Hpp]; [by left; right|].
           apply elem_of_cons in Hin as [Heq|Hin]; [congruence|].
           right. split_and!; [set_solver|done|]. eauto.
      * rewrite (IH _ _ _ _ Hf p). split.
        -- intros [?|(? & ? & h & Hin & ?)]; [by left|right].
           split_and!; try done. exists h. split; [by right|done].
        -- intros [?|(Hp & Hne & h & Hin & Hjh)]; [by left|].
           apply elem_of_cons in Hin as [Heq|Hin].
           ++ injection Heq as Hp2 Hh2. subst p2 h2. congruence.
           ++ right. eauto 6.
Qed.

(** [processed] grows by exactly the files that joined. *)
Lemma inner_loop_processed items : ∀ group processed group' processed',
  foldl (inner_step self img1_path hash1) (group, processed) items
    = (group', processed') →
  (∀ p, p ∈ group → p ∈ processed) →
  ∀ p, p ∈ processed' ↔ (p ∈ processed ∨ p ∈ group').
Proof.
  induction items as [|[p2 h2] items IH];
    intros group processed group' processed' Hf Hsub p.
  - cbn in Hf. injection Hf as <- <-. naive_solver.
  - cbn [foldl] in Hf. unfold inner_step at 2 in Hf.
    destruct (bool_decide (p2 ∈ processed) || bool_decide (img1_path = p2)).
    + by apply (IH _ _ _ _ Hf).
    + destruct (joins self hash1 h2).
      * rewrite (IH _ _ _ _ Hf).
        -- pose proof (inner_loop_members _ _ _ _ _ Hf p2) as Hm.
           assert (p2 ∈ group') by (apply Hm; left; set_solver).
           rewrite elem_of_union, elem_of_singleton.
           split; [|naive_solver].
           intros [[?|Hpp]|?]; [by left| |by right]. subst p. by right.
        -- intros q. rewrite elem_of_app, list_elem_of_singleton.
           set_solver.
      * by apply (IH _ _ _ _ Hf).
Qed.

(** The group keeps its first member in front and never repeats a file. *)
Lemma inner_loop_NoDup items : ∀ group processed group' processed',
  foldl (inner_step self img1_path hash1) (group, processed) items
    = (group', processed') →
  (∀ p, p ∈ group → p ∈ processed) → NoDup group →
  NoDup group' ∧ length group ≤ length group'.
Proof.
  induction items as [|[p2 h2] items IH];
    intros group processed group' processed' Hf Hsub Hnd.
  - cbn in Hf. injection Hf as <- <-. done.
  - cbn [foldl] in Hf. unfold inner_step at 2 in Hf.
    destruct (bool_decide (p2 ∈ processed) || bool_decide (img1_path = p2))
      eqn:Hskip.
    + by apply (IH _ _ _ _ Hf).
    + apply orb_false_iff in Hskip as [H1 _].
      apply bool_decide_eq_false in H1.
      destruct (joins self hash1 h2).
      * destruct (IH _ _ _ _ Hf) as [? Hlen].
        -- intros q. rewrite elem_of_app, list_elem_of_singleton. set_solver.
        -- apply NoDup_app. split_and!; [done| |apply NoDup_singleton].
           intros q Hq. rewrite list_elem_of_singleton. intros ->. auto.
        -- split; [done|]. rewrite length_app in Hlen. cbn in Hlen. lia.
      * by apply (IH _ _ _ _ Hf).
Qed.
End InnerLoop.

Lemma pairwise_disjoint_snoc gs g :
  pairwise_disjoint (gs ++ [g]) ↔
  pairwise_disjoint gs ∧ Forall (λ g', g' ## g) gs.
Proof.
  induction gs as [|g0 gs IH]; cbn.
  - split; [done|]. intros _. split; [constructor|done].
  - rewrite IH, Forall_app, Forall_singleton, Forall_cons. naive_solver.
Qed.

Lemma pairwise_disjoint_app gs1 gs2 :
  pairwise_disjoint (gs1 ++ gs2) ↔
  pairwise_disjoint gs1 ∧ pairwise_disjoint gs2
  ∧ ∀ g1 g2, g1 ∈ gs1 → g2 ∈ gs2 → g1 ## g2.
Proof.
  induction gs1 as [|g0 gs1 IH]; cbn.
  - split; [|naive_solver]. intros ?. split_and!; [done..|].
    intros g1 g2 Hg1. by apply elem_of_nil in Hg1.
  - rewrite IH, Forall_app. split.
    + intros [[Hf1 Hf2] (? & ? & Hx)]. split_and!; [done..|].
      intros g1 g2 Hg1 Hg2. apply elem_of_cons in Hg1 as [->|Hg1].
      * by eapply Forall_forall in Hf2.
      * by apply Hx.
    + intros [[Hf1 ?] [? Hx]]. split_and!; [done| |done..|].
      * apply Forall_forall. intros g2 Hg2. apply Hx; [by left|done].
      * intros g1 g2 Hg1 Hg2. apply Hx; [by right|done].
Qed.

Lemma pairwise_disjoint_filter (c : list Path → bool) gs :
  pairwise_disjoint gs → pairwise_disjoint (List.filter c gs).
Proof.
  induction gs as [|g gs IH]; cbn; [done|]. intros [Hf Hpd].
  destruct (c g); cbn; [|by apply IH]. split; [|by apply IH].
  apply Forall_forall. intros g' Hg'.
  apply list_elem_of_In, filter_In in Hg' as [Hg' _].
  apply list_elem_of_In in Hg'. by eapply Forall_forall in Hf.
Qed.

Lemma pairwise_disjoint_lookup gs i j gi gj f :
  pairwise_disjoint gs →
  gs !! i = Some gi → gs !! j = Some gj → f ∈ gi → f ∈ gj → i = j.
Proof.
  revert i j. induction gs as [|g gs IH]; intros i j Hpd Hi Hj Hfi Hfj.
  - done.
  - destruct Hpd as [Hf Hpd]. destruct i as [|i], j as [|j]; cbn in *.
    + done.
    + injection Hi as ->. apply list_elem_of_lookup_2 in Hj.
      eapply Forall_forall in Hf; [|done]. by destruct (Hf f).
    + injection Hj as ->. apply list_elem_of_lookup_2 in Hi.
      eapply Forall_forall in Hf; [|done]. by destruct (Hf f).
    + f_equal. by apply IH.
Qed.

Section OuterLoop.
Context (self : ImageProcessor) (image_hashes : Dict.t Path hashes).

Lemma outer_step_inv st item :
  item ∈ image_hashes → outer_inv image_hashes st →
  outer_inv image_hashes (outer_step self image_hashes st item).
Proof.
  destruct st as [similar_groups processed], item as [img1_path hash1].
  intros Hitem [Hall Hpd]. cbn in Hall, Hpd. unfold outer_step.
  destruct (bool_decide (img1_path ∈ processed)) eqn:Hseen; [done|].
  apply bool_decide_eq_false in Hseen.
  destruct (foldl _ _ image_hashes) as [group processed'] eqn:Hf.
  pose proof (inner_loop_members _ _ _ _ _ _ _ _ Hf) as Hmem.
  assert (∀ p, p ∈ [img1_path] → p ∈ processed ∪ {[img1_path]}) as Hsub
    by (intros p; rewrite list_elem_of_singleton; set_solver).
  pose proof (inner_loop_processed _ _ _ _ _ _ _ _ Hf Hsub) as Hproc.
  destruct (inner_loop_NoDup _ _ _ _ _ _ _ _ Hf Hsub) as [Hnd _];
    [apply NoDup_singleton|].
  assert (Forall (λ g, (∀ f, f ∈ g → f ∈ processed'
                                     ∧ f ∈ Dict.keys image_hashes)
                       ∧ 1 < length g ∧ NoDup g) similar_groups) as Hall'.
  { eapply Forall_impl; [exact Hall|]. cbn. intros g (Hg & ? & ?).
    split_and!; [|done..]. intros f Hfg. destruct (Hg f Hfg).
    split; [|done]. apply Hproc. left. set_solver. }
  destruct (1 <? length group) eqn:Hlen; [|by split].
  apply Nat.ltb_lt in Hlen. split; cbn.
  - apply Forall_app. split; [done|]. apply Forall_singleton.
    split_and!; [|done..]. intros f Hfg. split.
    + apply Hproc. by right.
    + apply Hmem in Hfg as [Hfg|(_ & _ & h & Hin & _)].
      * apply list_elem_of_singleton in Hfg as ->.
        by apply (list_elem_of_fmap_2 fst) in Hitem.
      * by apply (list_elem_of_fmap_2 fst) in Hin.
  - apply pairwise_disjoint_snoc. split; [done|].
    eapply Forall_impl; [exact Hall|]. cbn. intros g (Hg & _ & _) f Hfg Hfn.
    destruct (Hg f Hfg) as [Hfp _].
    apply Hmem in Hfn as [Hfn|(Hnp & _)].
    + apply list_elem_of_singleton in Hfn as ->. done.
    + set_solver.
Qed.

Lemma similar_groups_inv :
  Forall (λ g, (∀ f, f ∈ g → f ∈ Dict.keys image_hashes)
               ∧ 1 < length g ∧ NoDup g)
         (similar_groups_of self image_hashes)
  ∧ pairwise_disjoint (similar_groups_of self image_hashes).
Proof.
  unfold similar_groups_of.
  assert (outer_inv image_hashes (foldl (outer_step self image_hashes) ([], ∅)
                           image_hashes)) as [Hall Hpd].
  { apply foldl_invariant.
    - split; cbn; [constructor|done].
    - intros st item Hst Hin. by apply outer_step_inv. }
  split; [|done]. eapply Forall_impl; [exact Hall|]. cbn. naive_solver.
Qed.
End OuterLoop.

Lemma image_hashes_NoDup lib t image_files :
  NoDup (Dict.keys (foldl (hashes_step lib t) [] image_files)).
Proof.
  apply (foldl_invariant (λ d, NoDup (Dict.keys d))); [apply NoDup_nil_2|].
  intros d p Hd _. unfold hashes_step.
  destruct (calculate_image_hashes lib t p); [|done].
  by apply dict_set_keys_NoDup.
Qed.

Lemma image_hashes_computed lib t image_files f h :
  (f, h) ∈ foldl (hashes_step lib t) [] image_files →
  calculate_image_hashes lib t f = Some h.
Proof.
  revert f h.
  apply (foldl_invariant
           (λ d, ∀ f h, (f, h) ∈ d → calculate_image_hashes lib t f = Some h)).
  - intros f h Hin. by apply elem_of_nil in Hin.
  - intros d p Hd _ f h. unfold hashes_step.
    destruct (calculate_image_hashes lib t p) as [hp|] eqn:Hp; [|by apply Hd].
    intros Hin. apply dict_set_elem in Hin as [Heq|Hin]; [|by apply Hd].
    by injection Heq as -> ->.
Qed.

Lemma image_hashes_keys lib t image_files f :
  f ∈ Dict.keys (foldl (hashes_step lib t) [] image_files) → f ∈ image_files.
Proof.
  revert f.
  apply (foldl_invariant (λ d, ∀ f, f ∈ Dict.keys d → f ∈ image_files)).
  - intros f Hf. by apply elem_of_nil in Hf.
  - intros d p Hd Hp f. unfold hashes_step.
    destruct (calculate_image_hashes lib t p); [|by apply Hd].
    rewrite dict_set_keys_elem. intros [->|?]; [done|by apply Hd].
Qed.

Lemma joins_seed_ext self P P' s hs (items : list (Path * hashes)) :
  (∀ item, item ∈ items → (item.1 ∈ P' ↔ item.1 ∈ P ∨ item.1 = s)) →
  List.filter (joins_seed self P' s hs) items
  = List.filter (joins_seed self P s hs) items.
Proof.
  intros Hext. apply List.filter_ext_in. intros item Hin.
  apply list_elem_of_In, Hext in Hin. unfold joins_seed.
  destruct (decide (item.1 = s)) as [Heq|Hne].
  - rewrite (bool_decide_eq_true_2 (item.1 = s)) by done. cbn.
    by rewrite !andb_false_r.
  - f_equal. f_equal. f_equal. apply bool_decide_ext. naive_solver.
Qed.

(** The inner loop, in one piece: the group grows by the entries that join
    the seed, in order. *)
Lemma inner_loop_filter self s hs items : ∀ group processed,
  NoDup items.*1 → s ∈ processed →
  foldl (inner_step self s hs) (group, processed) items
  = (group ++ (List.filter (joins_seed self processed s hs) items).*1,
     processed
     ∪ list_to_set (List.filter (joins_seed self processed s hs) items).*1).
Proof.
  induction items as [|[p2 h2] items IH]; intros group processed Hnd Hs.
  - cbn. rewrite app_nil_r. f_equal. set_solver.
  - cbn [fmap list_fmap] in Hnd. apply NoDup_cons in Hnd as [Hp2 Hnd].
    cbn [foldl]. unfold inner_step at 2. cbn [List.filter].
    destruct (decide (p2 ∈ processed)) as [Hin|Hout].
    + assert (joins_seed self processed s hs (p2, h2) = false) as ->.
      { unfold joins_seed. cbn [fst snd]. by rewrite bool_decide_eq_true_2. }
      rewrite (bool_decide_eq_true_2 (p2 ∈ processed)) by done. cbn [orb].
      by apply IH.
    + assert (s ≠ p2) as Hne by congruence.
      assert (joins_seed self processed s hs (p2, h2) = joins self hs h2)
        as ->.
      { unfold joins_seed. cbn [fst snd].
        rewrite !bool_decide_eq_false_2 by done. cbn [negb andb].
        apply eq_true_iff_eq. by rewrite Nat.leb_le, joins_majority. }
      rewrite (bool_decide_eq_false_2 (p2 ∈ processed)) by done.
      rewrite (bool_decide_eq_false_2 (s = p2)) by done. cbn [orb].
      destruct (joins self hs h2) eqn:Hj; [|by apply IH].
      rewrite IH by set_solver.
      rewrite (joins_seed_ext self processed (processed ∪ {[p2]}) s hs).
      * cbn. rewrite <- app_assoc. f_equal. set_solver.
      * intros item Hitem.
        assert (item.1 ≠ p2) as Hitem2.
        { intros Heq. apply Hp2. cbn. rewrite <- Heq.
          by apply list_elem_of_fmap_2. }
        set_solver.
Qed.

Section OuterTrace.
Context (self : ImageProcessor) (image_hashes : Dict.t Path hashes).
Hypothesis Hkeys : NoDup (Dict.keys image_hashes).

(** One turn of the outer loop, on the entry that follows [pre]. *)
Lemma outer_loop_snoc pre s hs :
  foldl (outer_step self image_hashes) ([], ∅) (pre ++ [(s, hs)])
  = if bool_decide (s ∈ assigned_before self image_hashes pre)
    then (groups_before self image_hashes pre,
          assigned_before self image_hashes pre)
    else
      let js := joiners self image_hashes
                  (assigned_before self image_hashes pre) s hs in
      (if 1 <? length (s :: js)
       then groups_before self image_hashes pre ++ [s :: js]
       else groups_before self image_hashes pre,
       assigned_before self image_hashes pre ∪ {[s]} ∪ list_to_set js).
Proof.
  rewrite foldl_app. cbn [foldl]. unfold assigned_before, groups_before.
  destruct (foldl (outer_step self image_hashes) ([], ∅) pre)
    as [gs P]. cbn [fst snd]. unfold outer_step at 1.
  case_bool_decide as Hs; [done|].
  rewrite (inner_loop_filter self s hs image_hashes [s] (P ∪ {[s]}) Hkeys)
    by set_solver.
  rewrite (joins_seed_ext self P (P ∪ {[s]}) s hs) by set_solver.
  fold (joiners self image_hashes P s hs). cbn [app].
  by destruct (1 <? length (s :: joiners self image_hashes P s hs)).
Qed.

(** The groups formed over a stretch of entries: one for every entry that
    was not assigned when the loop came to it and that some file joined. *)
Lemma groups_before_spec l g :
  g ∈ groups_before self image_hashes l ↔
  ∃ pre s hs post,
    l = pre ++ (s, hs) :: post
    ∧ (s ∉ assigned_before self image_hashes pre)
    ∧ g = s :: joiners self image_hashes
                 (assigned_before self image_hashes pre) s hs
    ∧ 1 < length g.
Proof.
  induction l as [|[s hs] l IH] using rev_ind.
  - split; [intros Hg; by apply elem_of_nil in Hg|].
    intros (pre & ? & ? & ? & Hl & _). by destruct pre.
  - unfold groups_before at 1. rewrite outer_loop_snoc.
    set (js := joiners self image_hashes
                 (assigned_before self image_hashes l) s hs).
    assert (g ∈ groups_before self image_hashes l →
            ∃ pre s0 hs0 post,
              l ++ [(s, hs)] = pre ++ (s0, hs0) :: post
              ∧ (s0 ∉ assigned_before self image_hashes pre)
              ∧ g = s0 :: joiners self image_hashes
                            (assigned_before self image_hashes pre) s0 hs0
              ∧ 1 < length g) as Hold.
    { intros Hg. apply IH in Hg as (pre & s0 & hs0 & post & -> & ?).
      exists pre, s0, hs0, (post ++ [(s, hs)]).
      split; [by rewrite <- app_assoc|done]. }
    assert (∀ pre s0 hs0 post,
              l ++ [(s, hs)] = pre ++ (s0, hs0) :: post →
              (post = [] ∧ pre = l ∧ s0 = s ∧ hs0 = hs)
              ∨ ∃ post', post = post' ++ [(s, hs)]
                         ∧ l = pre ++ (s0, hs0) :: post') as Hsplit.
    { intros pre s0 hs0 post Heq.
      destruct post as [|x post _] using rev_ind.
      - apply app_inj_tail in Heq as [-> [= -> ->]]. by left.
      - right. rewrite app_comm_cons, app_assoc in Heq.
        apply app_inj_tail in Heq as [-> ->]. by exists post. }
    case_bool_decide as Hs; cbn [fst].
    + split; [done|]. intros (pre & s0 & hs0 & post & Heq & Hs0 & Hg & Hlen).
      apply Hsplit in Heq as [(-> & -> & -> & ->)|(post' & -> & ->)]; [done|].
      apply IH. by exists pre, s0, hs0, post'.
    + destruct (1 <? length (s :: js)) eqn:Hlen.
      * rewrite elem_of_app, list_elem_of_singleton. split.
        -- intros [Hg| ->]; [by apply Hold|].
           exists l, s, hs, []. split_and!; [done..|]. by apply Nat.ltb_lt.
        -- intros (pre & s0 & hs0 & post & Heq & Hs0 & Hg & Hl).
           apply Hsplit in Heq as [(-> & -> & -> & ->)|(post' & -> & ->)];
             [by right|].
           left. apply IH. by exists pre, s0, hs0, post'.
      * split; [done|].
        intros (pre & s0 & hs0 & post & Heq & Hs0 & Hg & Hl).
        apply Hsplit in Heq as [(-> & -> & -> & ->)|(post' & -> & ->)].
        -- subst g. apply Nat.ltb_ge in Hlen. fold js in Hl. lia.
        -- apply IH. by exists pre, s0, hs0, post'.
Qed.

(** [processed] holds the entries the loop has come to and the members of
    the groups formed so far. *)
Lemma assigned_before_spec l p :
  p ∈ assigned_before self image_hashes l ↔
  p ∈ l.*1 ∨ ∃ g, g ∈ groups_before self image_hashes l ∧ p ∈ g.
Proof.
  induction l as [|[s hs] l IH] using rev_ind.
  - unfold assigned_before, groups_before. cbn. split; [set_solver|].
    intros [Hp|(g & Hg & _)]; [by apply elem_of_nil in Hp|].
    by apply elem_of_nil in Hg.
  - unfold assigned_before at 1, groups_before. rewrite outer_loop_snoc.
    fold (groups_before self image_hashes l).
    set (js := joiners self image_hashes
                 (assigned_before self image_hashes l) s hs).
    rewrite fmap_app, elem_of_app. cbn [fmap list_fmap fst].
    rewrite list_elem_of_singleton.
    case_bool_decide as Hs; cbn [fst snd].
    + rewrite IH. split; [naive_solver|].
      intros [[?| ->]|?]; [naive_solver| |naive_solver].
      by apply IH.
    + rewrite !elem_of_union, elem_of_singleton, elem_of_list_to_set, IH.
      destruct (1 <? length (s :: js)) eqn:Hlen.
      * split.
        -- intros [[[?|(g & ? & ?)]| ->]|Hj].
           ++ by left; left.
           ++ right. exists g. split; [|done]. apply elem_of_app. by left.
           ++ by left; right.
           ++ right. exists (s :: js). split; [|by right].
              apply elem_of_app. right. by apply list_elem_of_singleton.
        -- intros [[?| ->]|(g & Hg & Hp)]; [by left; left; left|by left; right|].
           apply elem_of_app in Hg as [Hg|Hg].
           ++ left. left. right. by exists g.
           ++ apply list_elem_of_singleton in Hg as ->.
              apply elem_of_cons in Hp as [->|?]; [by left; right|by right].
      * assert (js = []) as Hnil.
        { apply Nat.ltb_ge in Hlen. destruct js; [done|cbn in Hlen; lia]. }
        rewrite Hnil. split.
        -- intros [[[?|?]| ->]|Hj]; [by left; left|by right|by left; right|].
           by apply elem_of_nil in Hj.
        -- intros [[?| ->]|?]; [by left; left; left|by left; right|].
           by left; left; right.
Qed.
End OuterTrace.

Lemma joiners_spec self image_hashes processed s hs p :
  p ∈ joiners self image_hashes processed s hs ↔
  ∃ h, (p, h) ∈ image_hashes ∧ (p ∉ processed) ∧ p ≠ s
       ∧ 2 ≤ votes self hs h.
Proof.
  unfold joiners. rewrite list_elem_of_fmap. split.
  - intros ([p' h] & -> & Hin). apply list_elem_of_In, filter_In in Hin
      as [Hin Hc]. apply list_elem_of_In in Hin. unfold joins_seed in Hc.
    cbn [fst snd] in *. apply andb_true_iff in Hc as [Hc Hv].
    apply andb_true_iff in Hc as [Hp Hs].
    apply negb_true_iff, bool_decide_eq_false in Hp, Hs.
    apply Nat.leb_le in Hv. by exists h.
  - intros (h & Hin & Hp & Hs & Hv). exists (p, h). split; [done|].
    apply list_elem_of_In, filter_In. split; [by apply list_elem_of_In|].
    unfold joins_seed. cbn [fst snd].
    rewrite !bool_decide_eq_false_2 by done. cbn [negb andb].
    by apply Nat.leb_le.
Qed.

Lemma image_hashes_has_key lib t image_files p h :
  p ∈ image_files → calculate_image_hashes lib t p = Some h →
  p ∈ Dict.keys (foldl (hashes_step lib t) [] image_files).
Proof.
  intros Hp Hh. induction image_files as [|x l IH] using rev_ind;
    [by apply elem_of_nil in Hp|].
  rewrite foldl_app. cbn [foldl]. unfold hashes_step at 1.
  apply elem_of_app in Hp as [Hp|Hp].
  - destruct (calculate_image_hashes lib t x); [|by apply IH].
    apply dict_set_keys_elem. right. by apply IH.
  - apply list_elem_of_singleton in Hp as ->. rewrite Hh.
    apply dict_set_keys_elem. by left.
Qed.

(** C6. The similarity step returns exactly these groups: for every entry of
    [image_hashes] that is not yet assigned when the outer loop comes to it
    (the seed), the seed followed, in order, by the files that are not yet
    assigned, are not the seed, and have at least two of the three hash
    distances to the seed's own hashes within the threshold; a seed that no
    file joins gives no group.  The same holds of the groups formed over
    any stretch of entries, and a file is assigned when the loop has come to
    it or it is in a group formed before.  The condition of the code (all
    three, or at least two) is that majority vote, and the default threshold
    is 5. *)
Theorem similarity_join_rule lib self t image_files :
  let image_hashes := foldl (hashes_step lib t) [] image_files in
  (∀ g, g ∈ similar_groups_of self image_hashes ↔
        ∃ pre s hs post,
          image_hashes = pre ++ (s, hs) :: post
          ∧ calculate_image_hashes lib t s = Some hs
          ∧ (s ∉ assigned_before self image_hashes pre)
          ∧ g = s :: joiners self image_hashes
                       (assigned_before self image_hashes pre) s hs
          ∧ 1 < length g)
  ∧ similar_groups_of self image_hashes
    = groups_before self image_hashes image_hashes
  ∧ (∀ l g, g ∈ groups_before self image_hashes l ↔
            ∃ pre s hs post,
              l = pre ++ (s, hs) :: post
              ∧ (s ∉ assigned_before self image_hashes pre)
              ∧ g = s :: joiners self image_hashes
                           (assigned_before self image_hashes pre) s hs
              ∧ 1 < length g)
  ∧ (∀ pre p, p ∈ assigned_before self image_hashes pre ↔
              p ∈ pre.*1
              ∨ ∃ g, g ∈ groups_before self image_hashes pre ∧ p ∈ g)
  ∧ (∀ processed s hs p,
       p ∈ joiners self image_hashes processed s hs ↔
       ∃ h, calculate_image_hashes lib t p = Some h
            ∧ p ∈ image_files ∧ (p ∉ processed) ∧ p ≠ s
            ∧ 2 ≤ votes self hs h)
  ∧ (∀ s hs processed p h,
       (p, h) ∈ image_hashes → p ∉ processed → p ≠ s →
       (p ∈ (foldl (inner_step self s hs) ([s], processed ∪ {[s]})
                   image_hashes).1
        ↔ 2 ≤ votes self hs h))
  ∧ (∀ hash1 hash2, joins self hash1 hash2 = true ↔ 2 ≤ votes self hash1 hash2)
  ∧ Forall (λ g, 1 < length g) (similar_groups_of self image_hashes)
  ∧ hash_threshold (init_default (source_dirs self)) = 5%Z.
Proof.
  intros image_hashes.
  pose proof (image_hashes_NoDup lib t image_files) as Hnd.
  fold image_hashes in Hnd. split_and!.
  - intros g. unfold similar_groups_of.
    fold (groups_before self image_hashes image_hashes).
    rewrite (groups_before_spec self image_hashes Hnd). split.
    + intros (pre & s & hs & post & Heq & Hrest).
      exists pre, s, hs, post. split_and!; try tauto.
      apply (image_hashes_computed lib t image_files). fold image_hashes.
      rewrite Heq. apply elem_of_app. right. by left.
    + intros (pre & s & hs & post & Heq & _ & Hrest).
      by exists pre, s, hs, post.
  - done.
  - intros l g. apply (groups_before_spec self image_hashes Hnd).
  - intros pre p. apply (assigned_before_spec self image_hashes Hnd).
  - intros processed s hs p. rewrite joiners_spec. split.
    + intros (h & Hin & Hrest). exists h. split_and!; try tauto.
      * by apply (image_hashes_computed lib t image_files).
      * apply (image_hashes_keys lib t image_files).
        by apply (list_elem_of_fmap_2 fst) in Hin.
    + intros (h & Hh & Hp & Hrest). exists h. split; [|done].
      pose proof (image_hashes_has_key lib t image_files p h Hp Hh) as Hkey.
      apply list_elem_of_fmap in Hkey as ([p' h'] & -> & Hin).
      pose proof (image_hashes_computed lib t image_files _ _ Hin) as Hh'.
      cbn in Hh. rewrite Hh in Hh'. by injection Hh' as ->.
  - intros s hs processed p h Hin Hp Hne.
    destruct (foldl _ _ image_hashes) as [group processed'] eqn:Hf. cbn [fst].
    rewrite (inner_loop_members _ _ _ _ _ _ _ _ Hf p), <- joins_majority.
    split.
    + intros [Hseed|(_ & _ & h' & Hin' & Hj)].
      * apply list_elem_of_singleton in Hseed. done.
      * assert (h' = h) as ->; [|done].
        eapply dict_key_unique; [exact Hnd|done..].
    + intros Hj. right. split_and!; [set_solver|done|by exists h].
  - intros hash1 hash2. apply joins_majority.
  - destruct (similar_groups_inv self image_hashes) as [Hall _].
    eapply Forall_impl; [exact Hall|]. cbn. naive_solver.
  - done.
Qed.

(** The four pictures: [a] is the first seed, [b] and [c] join it, and [d],
    which is close to [c] only, stays alone. *)
Lemma similarity_join_rule_witness :
  [pic_a; pic_b; pic_c]
  ∈ similar_groups_of pics_processor
      (foldl (hashes_step toy_imaging pics_fs) [] [pic_a; pic_b; pic_c; pic_d])
  ∧ similar_groups_of pics_processor
      (foldl (hashes_step toy_imaging pics_fs) [] [pic_a; pic_b; pic_c; pic_d])
    = [[pic_a; pic_b; pic_c]].
Proof.
  split; [|by vm_compute].
  apply (proj1 (similarity_join_rule toy_imaging pics_processor pics_fs
                  [pic_a; pic_b; pic_c; pic_d])).
  eexists [], pic_a, _, _. split_and!.
  - vm_compute. reflexivity.
  - by vm_compute.
  - unfold assigned_before. cbn. set_solver.
  - by vm_compute.
  - cbn. lia.
Defined.

(** ** Ranking *)

Lemma key_lt_spec k1 k2 : key_lt k1 k2 = true ↔ lex_lt k1 k2.
Proof.
  unfold key_lt, lex_lt.
  rewrite orb_true_iff, andb_true_iff, !Z.ltb_lt, Z.eqb_eq. done.
Qed.

Lemma key_lt_false k1 k2 : key_lt k1 k2 = false ↔ lex_le k2 k1.
Proof.
  unfold lex_le. rewrite <- key_lt_spec. by destruct (key_lt k1 k2).
Qed.

Lemma lex_lt_le_trans k1 k2 k3 : lex_lt k1 k2 → lex_le k2 k3 → lex_lt k1 k3.
Proof. unfold lex_le, lex_lt. lia. Qed.


Lemma lex_lt_le k1 k2 : lex_lt k1 k2 → lex_le k1 k2.
Proof. unfold lex_le, lex_lt. lia. Qed.

Section SortFacts.
Context {A : Type} (key : A → Z * Z).

Lemma insert_desc_perm x l : insert_desc key x l ≡ₚ x :: l.
Proof.
  induction l as [|y l IH]; cbn; [done|].
  destruct (key_lt (key x) (key y)); [|done].
  rewrite IH. apply Permutation_swap.
Qed.

Lemma sort_desc_perm l : sort_desc key l ≡ₚ l.
Proof.
  induction l as [|x l IH]; cbn; [done|].
  fold (sort_desc key l). by rewrite insert_desc_perm, IH.
Qed.

End SortFacts.

Lemma sort_desc_map {A B : Type} (f : A → B) (key1 : A → Z * Z)
    (key2 : B → Z * Z) l :
  (∀ x, key2 (f x) = key1 x) →
  sort_desc key2 (f <$> l) = f <$> sort_desc key1 l.
Proof.
  intros Hk. induction l as [|x l IH]; [done|].
  cbn. fold (sort_desc key1 l) (sort_desc key2 (f <$> l)). rewrite IH.
  generalize (sort_desc key1 l). intros s.
  induction s as [|y s IHs]; [done|].
  cbn. rewrite !Hk. destruct (key_lt (key1 x) (key1 y)); [|done].
  cbn. by rewrite IHs.
Qed.

(** Both rankings of the program are the ranking of the group's files by
    [file_key]. *)
Lemma ranked_files t g :
  ranked t g
  = (λ f, (f, default (0, 0, 0)%Z (Dict.get (resolutions g) f),
           size_or_zero t f))
    <$> sort_desc (file_key t g) (files g).
Proof.
  unfold ranked, report_rows. apply sort_desc_map.
  intros f. unfold report_key, file_key, pixels_of. cbn.
  by destruct (Dict.get (resolutions g) f) as [[[??]?]|].
Qed.

Lemma low_res_files t g :
  low_res_of t g = tail (sort_desc (file_key t g) (files g)).
Proof.
  unfold low_res_of, files_with_res.
  rewrite (sort_desc_map _ (file_key t g)).
  - generalize (sort_desc (file_key t g) (files g)). intros [|x s]; [done|].
    cbn. induction s as [|y s IH]; [done|]. cbn. f_equal; [|done].
    by destruct (Dict.get (resolutions g) y) as [[[??]?]|].
  - intros f. unfold rank_key, file_key, pixels_of.
    by destruct (Dict.get (resolutions g) f) as [[[??]?]|].
Qed.

Lemma keep_files t g :
  keep t g = head (sort_desc (file_key t g) (files g)).
Proof.
  unfold keep. rewrite ranked_files.
  by destruct (sort_desc (file_key t g) (files g)).
Qed.

Lemma foldl_add_sizes {A : Type} (f : A → Z) l : ∀ acc,
  foldl (λ total_space x, total_space + f x)%Z acc l
  = (acc + Zsum (f <$> l))%Z.
Proof.
  induction l as [|x l IH]; intros acc.
  - unfold Zsum. cbn. lia.
  - cbn [foldl]. rewrite IH, fmap_cons. unfold Zsum. cbn [foldr]. lia.
Qed.

Lemma Zsum_app l1 l2 : Zsum (l1 ++ l2) = (Zsum l1 + Zsum l2)%Z.
Proof.
  induction l1 as [|x l1 IH]; [done|].
  unfold Zsum in *. cbn [app foldr]. rewrite IH. lia.
Qed.

Lemma add_group_space_sum t acc g :
  add_group_space t acc g
  = (acc + Zsum (size_or_zero t <$> low_res_of t g))%Z.
Proof.
  unfold add_group_space. rewrite foldl_add_sizes. f_equal. f_equal.
  rewrite low_res_files, ranked_files.
  generalize (sort_desc (file_key t g) (files g)). intros [|x s]; [done|].
  cbn. by rewrite <- list_fmap_compose.
Qed.

Lemma space_saved_sum t duplicates :
  space_saved t duplicates = Zsum (size_or_zero t <$> redundant t duplicates).
Proof.
  unfold space_saved, redundant.
  enough (∀ gs acc, foldl (add_group_space t) acc gs
            = (acc + Zsum (size_or_zero t <$> concat (low_res_of t <$> gs)))%Z)
    as H by (rewrite H; lia).
  induction gs as [|g gs IH]; intros acc; cbn; [lia|].
  rewrite IH, add_group_space_sum, fmap_app, Zsum_app. lia.
Qed.

Lemma resolve_from_plain t rest : ∀ cur,
  plain rest → resolve_from t cur rest = Some (cur ++ rest).
Proof.
  unfold plain. induction rest as [|c rest IH]; intros cur Hplain; cbn.
  - by rewrite app_nil_r.
  - apply not_elem_of_cons in Hplain as [Hc Hrest].
    rewrite (proj2 (String.eqb_neq c "..")) by congruence.
    rewrite IH by done. unfold joinpath. by rewrite <- app_assoc.
Qed.

Lemma os_stat_plain t p : plain p → os_stat t p = stat t p.
Proof.
  intros Hp. unfold os_stat. by rewrite resolve_from_plain.
Qed.

(** A second spelling of a file: the system finds it, the lookup of the
    model does not. *)
Lemma os_stat_alias :
  os_stat sizes_fs ["pics"; ".."; "pics"; "s100.png"] = sizes_fs !! size_a
  ∧ stat sizes_fs ["pics"; ".."; "pics"; "s100.png"] = None
  ∧ is_Some (sizes_fs !! size_a).
Proof. split_and!; [by vm_compute..|]. vm_compute. by eexists. Qed.







(** ** Names and the collision loop *)

Lemma string_length_app s1 s2 :
  String.length (s1 +:+ s2) = String.length s1 + String.length s2.
Proof. induction s1 as [|c s1 IH]; simpl; [done|]. by f_equal. Qed.

Lemma string_app_inj_r s1 s2 s : s1 +:+ s = s2 +:+ s → s1 = s2.
Proof.
  revert s2. induction s1 as [|c s1 IH]; intros [|c2 s2] Heq.
  - done.
  - apply (f_equal String.length) in Heq.
    rewrite !string_length_app in Heq. cbn in Heq. lia.
  - apply (f_equal String.length) in Heq.
    rewrite !string_length_app in Heq. cbn in Heq. lia.
  - change (String c (s1 +:+ s) = String c2 (s2 +:+ s)) in Heq.
    injection Heq as -> Heq. f_equal. by apply IH.
Qed.

Lemma rsplit_dot_app s a b : rsplit_dot s = Some (a, b) → a +:+ b = s.
Proof.
  revert a b. induction s as [|c s IH]; intros a b; cbn; [done|].
  destruct (rsplit_dot s) as [[a' b']|].
  - intros [= <- <-]. change (String c (a' +:+ b') = String c s).
    f_equal. by apply IH.
  - destruct (Ascii.eqb c "."); [|done]. by intros [= <- <-].
Qed.

Lemma string_app_empty_r s : s +:+ EmptyString = s.
Proof.
  induction s as [|c s IH]; [done|].
  change (String c (s +:+ EmptyString) = String c s). by f_equal.
Qed.

Lemma stem_suffix p : stem p +:+ suffix p = name p.
Proof.
  unfold stem, suffix. destruct (rsplit_dot (name p)) as [[a b]|] eqn:Hs.
  - destruct (_ && _); [by apply rsplit_dot_app|apply string_app_empty_r].
  - apply string_app_empty_r.
Qed.

Example stem_suffix_examples :
  stem ["pics"; "a.tar.gz"] = "a.tar" ∧ suffix ["pics"; "a.tar.gz"] = ".gz"
  ∧ stem [".bashrc"] = ".bashrc" ∧ suffix [".bashrc"] = EmptyString
  ∧ numbered ["pics"; "photo.jpg"] 12 = "photo_12.jpg".
Proof. by vm_compute. Qed.

Lemma numbered_inj p i j : numbered p i = numbered p j → i = j.
Proof.
  unfold numbered. intros Heq.
  apply (inj (String.append (stem p))) in Heq.
  apply (inj (String.append "_")) in Heq.
  apply string_app_inj_r in Heq. by apply (inj pretty) in Heq.
Qed.

Lemma joinpath_inj d n1 n2 : joinpath d n1 = joinpath d n2 → n1 = n2.
Proof. unfold joinpath. intros Heq. by apply app_inj_tail in Heq as [_ ?]. Qed.

Lemma stat_joinpath t d n : stat t (joinpath d n) = t !! joinpath d n.
Proof. unfold stat, joinpath. by destruct d. Qed.

Lemma parent_joinpath d n : parent (joinpath d n) = d.
Proof. apply removelast_last. Qed.

Lemma name_joinpath d n : name (joinpath d n) = n.
Proof. apply last_last. Qed.

Lemma exists_lookup t p : p ≠ [] → exists_ t p = true ↔ is_Some (t !! p).
Proof.
  intros Hp. unfold exists_, stat. destruct p; [done|].
  destruct (t !! _); split; (done || by intros [??] || eauto).
Qed.

Section CollisionLoop.
Context (t : fs) (folder src : Path).

Lemma collision_loop_None fuel : ∀ dest counter,
  collision_loop fuel t folder src dest counter = None →
  ∀ j, counter ≤ j < counter + fuel →
       exists_ t (joinpath folder (numbered src j)) = true.
Proof.
  induction fuel as [|fuel IH]; intros dest counter Hnone j Hj; [lia|].
  cbn in Hnone. destruct (exists_ t dest); [|done].
  destruct (decide (j = counter)) as [->|Hne].
  - destruct fuel; cbn in Hnone;
      by destruct (exists_ t (joinpath folder (numbered src counter))).
  - apply (IH _ _ Hnone). lia.
Qed.

Lemma collision_loop_Some fuel : ∀ dest counter d,
  collision_loop fuel t folder src dest counter = Some d →
  exists_ t d = false
  ∧ (if exists_ t dest
     then ∃ k, counter ≤ k ∧ d = joinpath folder (numbered src k)
               ∧ ∀ j, counter ≤ j < k →
                      exists_ t (joinpath folder (numbered src j)) = true
     else d = dest).
Proof.
  induction fuel as [|fuel IH]; intros dest counter d Hsome.
  - cbn in Hsome. destruct (exists_ t dest) eqn:He; [done|].
    by injection Hsome as <-.
  - cbn in Hsome. destruct (exists_ t dest) eqn:He.
    + destruct (IH _ _ _ Hsome) as [Hd Hrest]. split; [done|].
      destruct (exists_ t (joinpath folder (numbered src counter))) eqn:Hc.
      * destruct Hrest as (k & Hk & -> & Hall). exists k.
        split_and!; [lia|done|]. intros j Hj.
        destruct (decide (j = counter)) as [->|Hne]; [done|].
        apply Hall. lia.
      * subst d. exists counter. split_and!; [lia|done|]. intros j Hj. lia.
    + by injection Hsome as <-.
Qed.

(** The loop ends: the names it tries are pairwise different, and the tree
    has only [size t] entries. *)
Lemma free_dest_total : is_Some (free_dest t folder src).
Proof.
  unfold free_dest.
  destruct (collision_loop _ _ _ _ _ _) as [d|] eqn:Hloop; [by eexists|].
  pose proof (collision_loop_None _ _ _ Hloop) as Hall.
  set (cands := (λ j, joinpath folder (numbered src j))
                  <$> seq 1 (S (size t))).
  assert (NoDup cands) as Hnd.
  { apply NoDup_fmap_2; [|apply NoDup_seq].
    intros i j Hij. by apply joinpath_inj, numbered_inj in Hij. }
  assert (list_to_set cands ⊆ dom t) as Hsub.
  { intros p Hp. apply elem_of_list_to_set in Hp.
    apply list_elem_of_fmap in Hp as (j & -> & Hj).
    apply elem_of_seq in Hj. apply elem_of_dom.
    apply exists_lookup; [by destruct folder|]. apply Hall. lia. }
  apply subseteq_size in Hsub.
  rewrite size_list_to_set, size_dom in Hsub by done.
  unfold cands in Hsub. rewrite length_fmap, length_seq in Hsub. lia.
Qed.
End CollisionLoop.

Example free_dest_examples :
  free_dest sizes_fs ["pics"] size_a = Some ["pics"; "s100_1.png"]
  ∧ free_dest sizes_fs ["pics"; "_duplicates"] size_a
    = Some ["pics"; "_duplicates"; "s100.png"].
Proof. by vm_compute. Qed.

(** ** The tree only grows where the program writes *)

Lemma mkdir_parents_from_keeps rest : ∀ pre t t' q n,
  mkdir_parents_from pre rest t = Ok t' → t !! q = Some n → t' !! q = Some n.
Proof.
  induction rest as [|c rest IH]; intros pre t t' q n Hmk Hq; cbn in Hmk.
  - by injection Hmk as <-.
  - rewrite stat_joinpath in Hmk.
    destruct (t !! joinpath pre c) as [[?|]|] eqn:Hc; [done|by eapply IH|].
    eapply IH; [done|]. rewrite lookup_insert_ne; [done|]. congruence.
Qed.

Lemma mkdir_parents_keeps t p t' q n :
  mkdir_parents t p = Ok t' → t !! q = Some n → t' !! q = Some n.
Proof. apply mkdir_parents_from_keeps. Qed.

Lemma mkdir_keeps t p t' q n :
  mkdir t p = Ok t' → t !! q = Some n → t' !! q = Some n.
Proof.
  unfold mkdir. intros Hmk Hq. destruct p as [|c p].
  - cbn in Hmk. by injection Hmk as <-.
  - cbn [stat] in Hmk. destruct (t !! (c :: p)) as [[?|]|] eqn:Hp; [done| |].
    + by injection Hmk as <-.
    + destruct (stat t (parent (c :: p))) as [[?|]|]; [done| |done].
      injection Hmk as <-. rewrite lookup_insert_ne; [done|]. congruence.
Qed.

Lemma copy2_fresh t src dst t' :
  dst ≠ [] → exists_ t dst = false → copy2 t src dst = Ok t' →
  ∃ c, t !! src = Some (File c) ∧ t' = <[dst := File c]> t
       ∧ t !! dst = None.
Proof.
  intros Hne Hex. unfold copy2, is_dir, exists_ in *.
  destruct (stat t dst) eqn:Hdst; [done|].
  destruct (stat t src) as [[c|]|] eqn:Hsrc; [|done..].
  destruct (stat t (parent dst)) as [[?|]|]; [done| |done].
  intros [= <-]. exists c. unfold stat in *.
  destruct dst; [done|]. destruct src; [done|]. done.
Qed.

Lemma move_fresh t src dst t' :
  dst ≠ [] → exists_ t dst = false → move t src dst = Ok t' →
  ∃ c, t !! src = Some (File c) ∧ t' = <[dst := File c]> (delete src t)
       ∧ t !! dst = None.
Proof.
  intros Hne Hex. unfold move, is_dir, exists_ in *.
  destruct (stat t dst) eqn:Hdst; [done|].
  destruct (stat t src) as [[c|]|] eqn:Hsrc; [|done..].
  destruct (stat t (parent dst)) as [[?|]|]; [done| |done].
  intros [= <-]. exists c. unfold stat in *.
  destruct dst; [done|]. destruct src; [done|]. done.
Qed.

Lemma copy_into_total t out folder_name img_path :
  is_Some (copy_into t out folder_name img_path).
Proof.
  unfold copy_into. destruct (mkdir_parents _ _) as [t1|e]; [|by eexists].
  destruct (free_dest_total t1 (joinpath out folder_name) img_path)
    as [dest ->].
  cbn [mbind option_bind]. destruct (copy2 t1 img_path dest); by eexists.
Qed.

Lemma free_dest_fresh t folder src dest :
  free_dest t folder src = Some dest →
  dest ≠ [] ∧ exists_ t dest = false ∧ parent dest = folder.
Proof.
  intros Hfree. unfold free_dest in Hfree.
  apply collision_loop_Some in Hfree as [Hd Hform]. split_and!; [|done|].
  - destruct (exists_ t (joinpath folder (name src))).
    + destruct Hform as (k & _ & -> & _). by destruct folder.
    + subst dest. by destruct folder.
  - destruct (exists_ t (joinpath folder (name src))).
    + destruct Hform as (k & _ & -> & _). apply parent_joinpath.
    + subst dest. apply parent_joinpath.
Qed.

Lemma copy_into_keeps t out folder_name img_path t' r q n :
  copy_into t out folder_name img_path = Some (t', r) →
  t !! q = Some n → t' !! q = Some n.
Proof.
  unfold copy_into. intros Hcopy Hq.
  destruct (mkdir_parents _ _) as [t1|e] eqn:Hmk.
  - pose proof (mkdir_parents_keeps _ _ _ _ _ Hmk Hq) as Hq1.
    destruct (free_dest t1 _ _) as [dest|] eqn:Hfree; [|done].
    cbn in Hcopy. apply free_dest_fresh in Hfree as (Hne & Hex & _).
    destruct (copy2 t1 img_path dest) as [t2|e] eqn:Hcp.
    + injection Hcopy as <- <-.
      apply copy2_fresh in Hcp as (c & _ & -> & Hnone); [|done..].
      rewrite lookup_insert_ne; [done|]. congruence.
    + by injection Hcopy as <- <-.
  - by injection Hcopy as <- <-.
Qed.

(** C9. The [while dest.exists()] loop always ends, on a path that does not
    exist: the plain name when that is free, and otherwise the name with
    [_k] put between stem and extension, for the least [k >= 1] that is free.
    Hence neither the organizer's copy nor the move of a duplicate replaces
    an entry of the tree: the copy, when it succeeds, writes the file at the
    path the loop ended on, which did not exist, and leaves every earlier
    entry as it was; the move does the same but for the file it moves. *)
Theorem collision_safe_naming t folder src :
  (∃ dest, free_dest t folder src = Some dest
     ∧ exists_ t dest = false
     ∧ stem src +:+ suffix src = name src
     ∧ (if exists_ t (joinpath folder (name src))
        then ∃ k, 1 ≤ k
               ∧ dest = joinpath folder
                          (stem src +:+ "_" +:+ pretty k +:+ suffix src)
               ∧ ∀ j, 1 ≤ j < k →
                      exists_ t (joinpath folder (numbered src j)) = true
        else dest = joinpath folder (name src)))
  ∧ (∀ out folder_name, ∃ t' r,
       copy_into t out folder_name src = Some (t', r)
       ∧ (∀ q n, t !! q = Some n → t' !! q = Some n)
       ∧ (r = Ok () →
          ∃ t1 dest c,
            mkdir_parents t (joinpath out folder_name) = Ok t1
            ∧ free_dest t1 (joinpath out folder_name) src = Some dest
            ∧ t1 !! dest = None
            ∧ t1 !! src = Some (File c)
            ∧ t' = <[dest := File c]> t1))
  ∧ (∃ r, remove_one t true (Some folder) src = Some r
       ∧ ∀ t', r = Ok t' →
           ∃ dest c, free_dest t folder src = Some dest
             ∧ t !! src = Some (File c)
             ∧ t' = <[dest := File c]> (delete src t)
             ∧ ∀ q n, q ≠ src → t !! q = Some n → t' !! q = Some n).
Proof.
  destruct (free_dest_total t folder src) as [dest Hfree].
  pose proof (free_dest_fresh _ _ _ _ Hfree) as (Hne & Hex & Hpar).
  split_and!.
  - exists dest. split_and!; [done|done|apply stem_suffix|].
    unfold free_dest in Hfree. by apply collision_loop_Some in Hfree as [_ ?].
  - intros out folder_name.
    destruct (copy_into_total t out folder_name src) as [[t' r] Hcopy].
    exists t', r. split_and!; [done| |].
    + intros q n. by eapply copy_into_keeps.
    + intros ->. unfold copy_into in Hcopy.
      destruct (mkdir_parents t (joinpath out folder_name)) as [t1|e];
        [|by injection Hcopy].
      destruct (free_dest t1 (joinpath out folder_name) src) as [d|] eqn:Hd;
        [|done].
      cbn in Hcopy. pose proof (free_dest_fresh _ _ _ _ Hd) as (Hdne & Hdex & _).
      destruct (copy2 t1 src d) as [t2|e] eqn:Hcp; [|by injection Hcopy].
      injection Hcopy as <-.
      apply copy2_fresh in Hcp as (c & Hsrc & -> & Hnone); [|done..].
      by exists t1, d, c.
  - unfold remove_one. rewrite Hfree. cbn. eexists. split; [done|].
    intros t' Hmv. apply move_fresh in Hmv as (c & Hsrc & -> & Hnone);
      [|done..].
    exists dest, c. split_and!; [done..|]. intros q n Hq Hqn.
    rewrite lookup_insert_ne by congruence. by rewrite lookup_delete_ne.
Qed.

(** ** Deleting from an empty mapping *)

Lemma mkdir_other t p t' q : mkdir t p = Ok t' → q ≠ p → t' !! q = t !! q.
Proof.
  unfold mkdir. intros Hmk Hq.
  destruct (stat t p) as [[?|]|]; [done|by injection Hmk as <-|].
  destruct (stat t (parent p)) as [[?|]|]; [done| |done].
  injection Hmk as <-. by rewrite lookup_insert_ne.
Qed.

Lemma mkdir_is_dir t p t' : mkdir t p = Ok t' → is_dir t' p = true.
Proof.
  unfold mkdir, is_dir. intros Hmk.
  destruct (stat t p) as [[?|]|] eqn:Hp; [done| |].
  - injection Hmk as <-. by rewrite Hp.
  - destruct (stat t (parent p)) as [[?|]|]; [done| |done].
    injection Hmk as <-. unfold stat in *. destruct p; [done|].
    by rewrite lookup_insert_eq.
Qed.

Lemma mkdir_files t p t' q c :
  mkdir t p = Ok t' → t' !! q = Some (File c) ↔ t !! q = Some (File c).
Proof.
  intros Hmk. destruct (decide (q = p)) as [->|Hne].
  - pose proof (mkdir_is_dir _ _ _ Hmk) as Hd.
    unfold mkdir in Hmk. unfold is_dir in Hd.
    destruct (stat t p) as [[?|]|] eqn:Hp; [done|by injection Hmk as <-|].
    unfold stat in *. destruct p; [by injection Hmk as <-|].
    rewrite Hp. destruct (t' !! _) as [[?|]|]; done.
  - by rewrite (mkdir_other _ _ _ _ Hmk Hne).
Qed.

(** C3, as the code has it.  With an empty mapping [delete_duplicates] moves
    and deletes nothing and changes no file.  In permanent-delete mode, or
    without a source directory, it leaves the tree as it was and returns the
    empty list.  In move-to-folder mode with a source directory it first
    makes [_duplicates] under the first source directory: when that succeeds
    the folder is there afterwards, nothing else has changed and the empty
    list is returned; when it fails the exception escapes. *)
Theorem delete_duplicates_empty self t move_to_folder auto_delete_low_res :
  ∃ t' r,
    delete_duplicates self t [] move_to_folder auto_delete_low_res
      = Some (t', r)
    ∧ (∀ q c, t' !! q = Some (File c) ↔ t !! q = Some (File c))
    ∧ (∀ q n, t !! q = Some n → t' !! q = Some n)
    ∧ match move_to_folder, source_dirs self with
      | true, d :: _ =>
          (∀ q, q ≠ joinpath d "_duplicates" → t' !! q = t !! q)
          ∧ ((r = Ok [] ∧ is_dir t' (joinpath d "_duplicates") = true)
             ∨ (t' = t ∧ ∃ e, r = Raise e))
      | _, _ => t' = t ∧ r = Ok []
      end.
Proof.
  unfold delete_duplicates.
  destruct move_to_folder; [destruct (source_dirs self) as [|d ds]|].
  - exists t, (Ok []). by split_and!.
  - destruct (mkdir t (joinpath d "_duplicates")) as [t1|e] eqn:Hmk.
    + exists t1, (Ok []). cbn. split_and!; [done| | | |].
      * intros q c. by apply mkdir_files with (p := joinpath d "_duplicates").
      * intros q n. by apply mkdir_keeps with (p := joinpath d "_duplicates").
      * intros q Hq. by eapply mkdir_other.
      * left. split; [done|]. by eapply mkdir_is_dir.
    + exists t, (Raise e). split_and!; [done..|]. right. eauto.
  - exists t, (Ok []). by split_and!.
Qed.

(** C3 as stated fails: in move-to-folder mode an empty mapping makes the
    [_duplicates] folder, and with a missing first source directory the call
    raises instead of returning a list. *)
Lemma delete_duplicates_empty_makes_folder :
  (∃ t', delete_duplicates pics_processor pics_fs [] true false
           = Some (t', Ok [])
         ∧ pics_fs !! ["pics"; "_duplicates"] = None
         ∧ t' !! ["pics"; "_duplicates"] = Some Dir)
  ∧ delete_duplicates (init_default [["gone"]]) pics_fs [] true false
    = Some (pics_fs, Raise "FileNotFoundError").
Proof.
  split.
  - eexists. split_and!; [reflexivity|by vm_compute..].
  - reflexivity.
Qed.

(** ** File Enumerator *)

Lemma ends_with_refl s : ends_with s s = true.
Proof. destruct s; cbn; by rewrite ?Ascii.eqb_refl, ?String.eqb_refl. Qed.

Lemma ends_with_map f s suf :
  ends_with s suf = true → ends_with (str_map f s) (str_map f suf) = true.
Proof.
  induction s as [|c s IH].
  - cbn [ends_with]. rewrite orb_false_r. intros Heq.
    apply String.eqb_eq in Heq as <-. done.
  - cbn [ends_with]. intros Hor. apply orb_true_iff in Hor as [Heq|Hend].
    + apply String.eqb_eq in Heq as <-. apply ends_with_refl.
    + cbn [str_map ends_with]. rewrite (IH Hend). apply orb_true_r.
Qed.

Lemma rglob_elem cs t d ext p :
  p ∈ rglob cs t d ext ↔
  is_Some (t !! p) ∧ under d p = true ∧ glob_match cs (name p) ext = true.
Proof.
  unfold rglob. rewrite list_elem_of_In, filter_In, <- list_elem_of_In.
  rewrite andb_true_iff, list_elem_of_fmap. split.
  - intros [([q n] & -> & Hq) [??]]. apply elem_of_map_to_list in Hq.
    split_and!; [by eexists|done..].
  - intros ([n Hn] & ? & ?). split; [|done]. exists (p, n). split; [done|].
    by apply elem_of_map_to_list.
Qed.

Section EnumeratorFacts.
Context (cs : bool) (t : fs).

Lemma formats_loop_elem d exts : ∀ acc p,
  p ∈ foldl (λ image_files ext,
               (image_files ++ rglob cs t d ext)
               ++ rglob cs t d (upper ext)) acc exts
  ↔ (p ∈ acc ∨ ∃ ext, ext ∈ exts
                      ∧ (p ∈ rglob cs t d ext ∨ p ∈ rglob cs t d (upper ext))).
Proof.
  induction exts as [|e exts IH]; intros acc p; cbn.
  - split; [by left|]. intros [?|(ext & Hext & _)]; [done|].
    by apply elem_of_nil in Hext.
  - rewrite IH, !elem_of_app. split.
    + intros [[[?|?]|?]|(ext & Hext & Hp)].
      * by left.
      * right. exists e. split; [by left|by left].
      * right. exists e. split; [by left|by right].
      * right. exists ext. split; [by right|done].
    + intros [?|(ext & Hext & Hp)]; [by left; left; left|].
      apply elem_of_cons in Hext as [->|Hext].
      * left. destruct Hp; [by left; right|by right].
      * right. by exists ext.
Qed.

Lemma dirs_loop_elem exts dirs : ∀ acc p,
  p ∈ foldl (λ image_files source_dir,
               if negb (exists_ t source_dir) then image_files
               else foldl (λ image_files ext,
                             (image_files ++ rglob cs t source_dir ext)
                             ++ rglob cs t source_dir (upper ext))
                          image_files exts) acc dirs
  ↔ (p ∈ acc ∨ ∃ d ext, d ∈ dirs ∧ exists_ t d = true ∧ ext ∈ exts
                        ∧ (p ∈ rglob cs t d ext
                           ∨ p ∈ rglob cs t d (upper ext))).
Proof.
  induction dirs as [|d0 dirs IH]; intros acc p; cbn [foldl].
  - split; [by left|]. intros [?|(d & ext & Hd & _)]; [done|].
    by apply elem_of_nil in Hd.
  - rewrite IH. destruct (exists_ t d0) eqn:Hex; cbn [negb].
    + rewrite formats_loop_elem. split.
      * intros [[?|(ext & ? & ?)]|(d & ext & ? & ? & ? & ?)].
        -- by left.
        -- right. exists d0, ext. split_and!; [by left|done..].
        -- right. exists d, ext. split_and!; [by right|done..].
      * intros [?|(d & ext & Hd & ? & ? & ?)]; [by left; left|].
        apply elem_of_cons in Hd as [->|Hd].
        -- left. right. by exists ext.
        -- right. by exists d, ext.
    + split.
      * intros [?|(d & ext & ? & ? & ? & ?)]; [by left|].
        right. exists d, ext. split_and!; [by right|done..].
      * intros [?|(d & ext & Hd & Hdex & ? & ?)]; [by left|].
        apply elem_of_cons in Hd as [->|Hd]; [congruence|].
        right. by exists d, ext.
Qed.

Lemma get_image_files_elem self p :
  p ∈ get_image_files cs self t ↔
  ∃ d ext, d ∈ source_dirs self ∧ exists_ t d = true
           ∧ ext ∈ supported_formats self
           ∧ (p ∈ rglob cs t d ext ∨ p ∈ rglob cs t d (upper ext)).
Proof.
  unfold get_image_files. rewrite dirs_loop_elem. split; [|by right].
  intros [Hnil|?]; [|done]. by apply elem_of_nil in Hnil.
Qed.
End EnumeratorFacts.

Lemma allowlist_lower dirs out thr cnn ext :
  ext ∈ supported_formats (init dirs out thr cnn) →
  lower ext = ext ∧ lower (upper ext) = ext.
Proof.
  cbn. rewrite !elem_of_cons.
  intros [->|[->|[->|[->|[->|[->|[->|H]]]]]]]; [by vm_compute..|].
  by apply elem_of_nil in H.
Qed.

(** C4, as the code has it.  [get_image_files] returns a list in which the
    same path can occur several times.  Every path in it is an entry of the
    tree (a file or a folder) strictly below a source directory that exists,
    with a name that ends in an extension of the allowlist up to the case of
    letters.  Every such entry whose name ends in an allowlisted extension
    written all in lower case or all in upper case is in the list.  A source
    directory that does not exist adds nothing and raises nothing. *)
Theorem get_image_files_spec cs dirs out thr cnn t p :
  let self := init dirs out thr cnn in
  (p ∈ get_image_files cs self t →
     is_Some (t !! p)
     ∧ ∃ d ext, d ∈ dirs ∧ exists_ t d = true ∧ under d p = true
                ∧ ext ∈ supported_formats self
                ∧ ends_with (lower (name p)) ext = true)
  ∧ (∀ d ext, d ∈ dirs → exists_ t d = true → under d p = true →
              is_Some (t !! p) → ext ∈ supported_formats self →
              ends_with (name p) ext = true
              ∨ ends_with (name p) (upper ext) = true →
              p ∈ get_image_files cs self t)
  ∧ (∀ d, exists_ t d = false →
          get_image_files cs (init (d :: dirs) out thr cnn) t
          = get_image_files cs self t).
Proof.
  intros self. split_and!.
  - rewrite get_image_files_elem.
    intros (d & ext & Hd & Hex & Hext & Hp).
    destruct (allowlist_lower _ _ _ _ _ Hext) as [Hl Hlu].
    assert (is_Some (t !! p) ∧ under d p = true
            ∧ ends_with (lower (name p)) ext = true) as (? & ? & ?).
    { destruct Hp as [Hp|Hp]; apply rglob_elem in Hp as (? & ? & Hm);
        (split_and!; [done..|]); unfold glob_match in Hm; destruct cs.
      - rewrite <- Hl. by apply ends_with_map.
      - by rewrite Hl in Hm.
      - rewrite <- Hlu. by apply ends_with_map.
      - by rewrite Hlu in Hm. }
    split; [done|]. by exists d, ext.
  - intros d ext Hd Hex Hu Hp Hext Hends.
    apply get_image_files_elem. exists d, ext. split_and!; [done..|].
    destruct Hends as [He|He]; [left|right]; apply rglob_elem;
      (split_and!; [done..|]); unfold glob_match; destruct cs;
      try done; by apply ends_with_map.
  - intros d Hex. unfold get_image_files. cbn [source_dirs init foldl].
    by rewrite Hex.
Qed.

Lemma get_image_files_spec_witness :
  pic_plain ∈ get_image_files true (init_default [["shots"]]) shots_fs.
Proof.
  refine (proj1 (proj2 (get_image_files_spec true [["shots"]]
            default_output_dir default_hash_threshold default_use_cnn
            shots_fs pic_plain)) ["shots"] ".jpg" _ _ _ _ _ _).
  - apply list_elem_of_In. left. reflexivity.
  - reflexivity.
  - by vm_compute.
  - vm_compute. by eexists.
  - apply list_elem_of_In. left. reflexivity.
  - left. by vm_compute.
Defined.

(** C4 as stated fails.  The list is not deduplicated: a source directory
    given twice yields each picture twice, and so does a platform whose
    globbing ignores case.  On a platform whose globbing respects case an
    extension that mixes cases is not found; and a folder whose name ends in
    an allowlisted extension is returned although it is not a file. *)
Lemma get_image_files_repeats_and_misses :
  occurrences pic_plain
    (get_image_files true (init_default [["shots"]; ["shots"]]) shots_fs) = 2
  ∧ occurrences pic_plain
      (get_image_files false (init_default [["shots"]]) shots_fs) = 2
  ∧ bool_decide
      (pic_mixed ∈ get_image_files true (init_default [["shots"]]) shots_fs)
    = false
  ∧ shots_fs !! pic_mixed = Some (File [x01])
  ∧ ends_with (lower (name pic_mixed)) ".jpg" = true
  ∧ bool_decide
      (album_dir ∈ get_image_files true (init_default [["shots"]]) shots_fs)
    = true
  ∧ shots_fs !! album_dir = Some Dir.
Proof. by vm_compute. Qed.

(** ** Face clustering *)

Lemma person_label_inj i j : person_label i = person_label j → i = j.
Proof.
  unfold person_label. intros Heq.
  apply (inj (String.append "Person_")) in Heq. by apply (inj pretty) in Heq.
Qed.

Lemma person_label_not_sentinel n :
  person_label n ≠ not_detected ∧ person_label n ≠ multiple_persons.
Proof. by split. Qed.

Lemma wf_faces_length {E} (st : face_state E) :
  wf_faces st → length (known_faces st) = person_counter st.
Proof.
  unfold wf_faces, Dict.keys. intros Hwf.
  apply (f_equal length) in Hwf. by rewrite !length_fmap, length_seq in Hwf.
Qed.

Lemma wf_faces_fresh {E} (st : face_state E) :
  wf_faces st →
  person_label (S (person_counter st)) ∉ Dict.keys (known_faces st).
Proof.
  unfold wf_faces. intros -> Hin.
  apply list_elem_of_fmap in Hin as (j & Heq & Hj).
  apply person_label_inj in Heq as <-. apply elem_of_seq in Hj. lia.
Qed.

Lemma wf_faces_init {E} : wf_faces (@init_faces E).
Proof. done. Qed.

Section FaceFacts.
Context (lib : FaceLib).
Implicit Types (st : face_state (Encoding lib)) (enc : Encoding lib).

Lemma compare_faces_le known enc tol :
  compare_faces lib known enc tol = true
  ↔ (face_distance lib known enc <= tol)%Q.
Proof. apply Qle_bool_iff. Qed.

(** [identify_person] answers with the first cluster, in the order of the
    dictionary, whose representative is within the tolerance. *)
Lemma identify_person_first st enc tol i nm rep :
  known_faces st !! i = Some (nm, rep) →
  (face_distance lib rep enc <= tol)%Q →
  (∀ j nm' rep', j < i → known_faces st !! j = Some (nm', rep') →
                 ¬ (face_distance lib rep' enc <= tol)%Q) →
  identify_person lib st enc tol = Some nm.
Proof.
  unfold identify_person. generalize (known_faces st). intros kf.
  revert i. induction kf as [|[nm0 rep0] kf IH]; intros i Hi Hle Hfirst.
  - done.
  - destruct i as [|i]; cbn in Hi |- *.
    + injection Hi as -> ->.
      by rewrite (proj2 (compare_faces_le _ _ _) Hle).
    + destruct (compare_faces lib rep0 enc tol) eqn:Hc.
      * apply compare_faces_le in Hc.
        destruct (Hfirst 0 nm0 rep0); [lia|done..].
      * apply (IH i); [done..|]. intros j nm' rep' Hj.
        apply (Hfirst (S j) nm' rep'). lia.
Qed.

Lemma identify_person_none st enc tol :
  (∀ nm rep, (nm, rep) ∈ known_faces st →
             ¬ (face_distance lib rep enc <= tol)%Q) →
  identify_person lib st enc tol = None.
Proof.
  unfold identify_person. generalize (known_faces st). intros kf Hall.
  induction kf as [|[nm0 rep0] kf IH]; [done|]. cbn.
  destruct (compare_faces lib rep0 enc tol) eqn:Hc.
  - apply compare_faces_le in Hc. destruct (Hall nm0 rep0); [by left|done].
  - apply IH. intros nm rep Hin. apply (Hall nm rep). by right.
Qed.


(** One face: the state stays well formed, and no representative that is
    there changes. *)
Lemma face_step_wf image st persons loc :
  wf_faces st →
  wf_faces (face_step lib image (st, persons) loc).1
  ∧ person_counter st ≤ person_counter (face_step lib image (st, persons) loc).1
  ∧ ∀ nm rep, Dict.get (known_faces st) nm = Some rep →
      Dict.get (known_faces (face_step lib image (st, persons) loc).1) nm
      = Some rep.
Proof.
  intros Hwf. unfold face_step.
  destruct (get_face_encoding lib image loc) as [enc|]; [|done].
  destruct (identify_person lib st enc (1 # 2)); [done|].
  cbn [fst]. pose proof (wf_faces_fresh _ Hwf) as Hfresh. split_and!.
  - unfold wf_faces in *. cbn [known_faces person_counter].
    rewrite dict_set_fresh by done. unfold Dict.keys in *.
    rewrite fmap_app, Hwf, seq_S, fmap_app. done.
  - cbn [person_counter]. lia.
  - intros nm rep Hget. cbn [known_faces].
    rewrite dict_get_set_ne; [done|]. intros <-.
    apply dict_get_None in Hfresh. congruence.
Qed.

Lemma faces_loop_wf image locs : ∀ st persons,
  wf_faces st →
  wf_faces (foldl (face_step lib image) (st, persons) locs).1
  ∧ person_counter st
    ≤ person_counter (foldl (face_step lib image) (st, persons) locs).1
  ∧ ∀ nm rep, Dict.get (known_faces st) nm = Some rep →
      Dict.get (known_faces
                  (foldl (face_step lib image) (st, persons) locs).1) nm
      = Some rep.
Proof.
  induction locs as [|loc locs IH]; intros st persons Hwf; [done|].
  cbn [foldl].
  destruct (face_step_wf image st persons loc Hwf) as (Hwf1 & Hle1 & Hk1).
  destruct (face_step lib image (st, persons) loc) as [st1 persons1].
  destruct (IH st1 persons1 Hwf1) as (Hwf2 & Hle2 & Hk2).
  split_and!; [done|cbn in *; lia|]. intros nm rep Hget.
  apply Hk2. by apply Hk1.
Qed.

Lemma process_image_wf self st t image_path :
  wf_faces st →
  wf_faces (process_image lib self st t image_path).1
  ∧ person_counter st
    ≤ person_counter (process_image lib self st t image_path).1
  ∧ ∀ nm rep, Dict.get (known_faces st) nm = Some rep →
      Dict.get (known_faces (process_image lib self st t image_path).1) nm
      = Some rep.
Proof.
  intros Hwf. unfold process_image.
  destruct (detect_faces lib self t image_path) as [[|loc locs] [image|]];
    [done..| |done].
  pose proof (faces_loop_wf image (loc :: locs) st ∅ Hwf) as Hloop.
  destruct (foldl _ _ (loc :: locs)) as [st' persons].
  destruct (1 <? size persons); [done|]. by destruct (size persons =? 1).
Qed.

(** [process_image] always returns a label. *)
Lemma process_image_returns self st t image_path :
  ∃ label, (process_image lib self st t image_path).2 = Ok label.
Proof.
  unfold process_image.
  destruct (detect_faces lib self t image_path) as [[|loc locs] [image|]];
    [by eexists..| |by eexists].
  destruct (foldl _ _ (loc :: locs)) as [st' persons].
  destruct (1 <? size persons); [by eexists|].
  destruct (size persons =? 1); by eexists.
Qed.

(** A failed detection leaves the state alone and yields the sentinel. *)
Lemma process_image_detection_raises self st t image_path e :
  detect_faces_try lib self t image_path = Raise e →
  process_image lib self st t image_path = (st, Ok not_detected).
Proof.
  intros Hraise. unfold process_image, detect_faces. by rewrite Hraise.
Qed.
End FaceFacts.

Section OneFace.
Context (lib : FaceLib) (self : ImageProcessor).

(** What [process_image] does with the located faces: the loop over them,
    and then the label from the set of persons. *)
Lemma process_image_faces st t image_path locs image :
  detect_faces_try lib self t image_path = Ok (locs, image) →
  locs ≠ [] →
  process_image lib self st t image_path
  = let acc := foldl (face_step lib image) (st, ∅) locs in
    (acc.1,
     Ok (if 1 <? size acc.2 then multiple_persons
         else if size acc.2 =? 1
              then default EmptyString (head (elements acc.2))
              else not_detected)).
Proof.
  intros Hdet Hne. unfold process_image, detect_faces. rewrite Hdet.
  destruct locs as [|loc locs]; [done|].
  destruct (foldl _ _ (loc :: locs)) as [st' persons]. cbn [fst snd].
  destruct (1 <? size persons); [done|]. by destruct (size persons =? 1).
Qed.

(** One face that matched or made the cluster [nm]: the image is labelled
    with it. *)
Lemma process_image_one_face st t image_path image loc st' nm :
  detect_faces_try lib self t image_path = Ok ([loc], image) →
  face_step lib image (st, ∅) loc = (st', {[nm]}) →
  process_image lib self st t image_path = (st', Ok nm).
Proof.
  intros Hdet Hstep.
  rewrite (process_image_faces st t image_path [loc] image Hdet) by done.
  cbn [foldl]. rewrite Hstep. cbn [fst snd].
  by rewrite size_singleton, elements_singleton.
Qed.
End OneFace.

(** C7. When [process_image] has located one face with an embedding, it
    returns the first cluster, in the order of creation, whose representative
    is at distance at most 0.5 from it, and leaves the clusters as they are;
    when no representative is that close it makes the cluster
    [Person_{counter+1}] with this embedding as representative, after the
    others, and returns its name.  With several faces it does this for each
    face in turn.  Representatives never change, for one face and for a whole
    image.  A distance of exactly 0.5 matches and a greater one does not:
    with one cluster at 0, a picture with a face at 0.5 is labelled
    [Person_1] and one with a face at 0.51 makes [Person_2]. *)
Theorem first_match_or_new_cluster lib image loc st persons enc :
  wf_faces st →
  get_face_encoding lib image loc = Some enc →
  let st' := (face_step lib image (st, persons) loc).1 in
  let persons' := (face_step lib image (st, persons) loc).2 in
  (∀ self t image_path,
     detect_faces_try lib self t image_path = Ok ([loc], image) →
     (∀ i nm rep,
        known_faces st !! i = Some (nm, rep) →
        (face_distance lib rep enc <= 1 # 2)%Q →
        (∀ j nm' rep', j < i → known_faces st !! j = Some (nm', rep') →
                       ¬ (face_distance lib rep' enc <= 1 # 2)%Q) →
        process_image lib self st t image_path = (st, Ok nm))
     ∧ ((∀ nm rep, (nm, rep) ∈ known_faces st →
                   ¬ (face_distance lib rep enc <= 1 # 2)%Q) →
        process_image lib self st t image_path
        = ({| known_faces :=
                known_faces st
                ++ [(person_label (S (person_counter st)), enc)];
              person_counter := S (person_counter st) |},
           Ok (person_label (S (person_counter st))))))
  ∧ (∀ self t image_path locs img st0,
       detect_faces_try lib self t image_path = Ok (locs, img) →
       locs ≠ [] →
       (process_image lib self st0 t image_path).1
       = (foldl (face_step lib img) (st0, ∅) locs).1)
  ∧ (∀ i nm rep,
       known_faces st !! i = Some (nm, rep) →
       (face_distance lib rep enc <= 1 # 2)%Q →
       (∀ j nm' rep', j < i → known_faces st !! j = Some (nm', rep') →
                      ¬ (face_distance lib rep' enc <= 1 # 2)%Q) →
       st' = st ∧ persons' = persons ∪ {[nm]})
  ∧ ((∀ nm rep, (nm, rep) ∈ known_faces st →
                ¬ (face_distance lib rep enc <= 1 # 2)%Q) →
     person_counter st' = S (person_counter st)
     ∧ known_faces st'
       = known_faces st ++ [(person_label (S (person_counter st)), enc)]
     ∧ persons' = persons ∪ {[person_label (S (person_counter st))]})
  ∧ wf_faces st'
  ∧ (∀ nm rep, Dict.get (known_faces st) nm = Some rep →
               Dict.get (known_faces st') nm = Some rep)
  ∧ (∀ self t image_path nm rep,
       Dict.get (known_faces st) nm = Some rep →
       Dict.get (known_faces (process_image lib self st t image_path).1) nm
       = Some rep)
  ∧ (∀ rep, ((face_distance lib rep enc == 1 # 2)%Q →
             compare_faces lib rep enc (1 # 2) = true)
            ∧ ((1 # 2 < face_distance lib rep enc)%Q →
               compare_faces lib rep enc (1 # 2) = false))
  ∧ process_image toy_faces duo_processor one_cluster near_far_fs near_pic
    = (one_cluster, Ok (person_label 1))
  ∧ process_image toy_faces duo_processor one_cluster near_far_fs far_pic
    = ({| known_faces := [(person_label 1, 0%Q); (person_label 2, (51 # 100)%Q)];
          person_counter := 2 |}, Ok (person_label 2))
  ∧ face_step toy_faces [x32] (one_cluster, ∅) x32
    = (one_cluster, {[person_label 1]})
  ∧ face_step toy_faces [x33] (one_cluster, ∅) x33
    = ({| known_faces := [(person_label 1, 0%Q); (person_label 2, (51 # 100)%Q)];
          person_counter := 2 |}, {[person_label 2]}).
Proof.
  intros Hwf Henc st' persons'. split_and!.
  - intros self t image_path Hdet. split.
    + intros i nm rep Hi Hle Hfirst.
      apply (process_image_one_face lib self st t image_path image loc);
        [done|].
      unfold face_step. rewrite Henc.
      rewrite (identify_person_first lib st enc _ i nm rep) by done.
      f_equal. apply (left_id_L ∅ (∪)).
    + intros Hnone.
      apply (process_image_one_face lib self st t image_path image loc);
        [done|].
      unfold face_step.
      rewrite Henc, (identify_person_none lib st enc _ Hnone). cbn.
      rewrite dict_set_fresh by by apply wf_faces_fresh.
      f_equal. apply (left_id_L ∅ (∪)).
  - intros self t image_path locs img st0 Hdet Hne.
    by rewrite (process_image_faces lib self st0 t image_path locs img).
  - intros i nm rep Hi Hle Hfirst. subst st' persons'. unfold face_step.
    rewrite Henc. by rewrite (identify_person_first lib st enc _ i nm rep).
  - intros Hnone. subst st' persons'. unfold face_step.
    rewrite Henc, (identify_person_none lib st enc _ Hnone). cbn.
    rewrite dict_set_fresh by by apply wf_faces_fresh. done.
  - by apply face_step_wf.
  - by apply face_step_wf.
  - intros self t image_path. by apply process_image_wf.
  - intros rep. split.
    + intros Heq. apply compare_faces_le. by rewrite Heq.
    + intros Hlt. destruct (compare_faces lib rep enc (1 # 2)) eqn:Hc; [|done].
      apply compare_faces_le in Hc. by apply Qlt_not_le in Hlt.
  - by vm_compute.
  - by vm_compute.
  - by vm_compute.
  - by vm_compute.
Qed.

(** The picture with a face at 0.51, through [process_image]. *)
Lemma first_match_or_new_cluster_witness :
  process_image toy_faces duo_processor one_cluster near_far_fs far_pic
  = ({| known_faces := known_faces one_cluster
                       ++ [(person_label 2, (51 # 100)%Q)];
        person_counter := 2 |}, Ok (person_label 2)).
Proof.
  refine (proj2 (proj1 (first_match_or_new_cluster toy_faces [x33] x33
                          one_cluster ∅ (51 # 100)%Q _ _)
                   duo_processor near_far_fs far_pic _) _).
  - reflexivity.
  - reflexivity.
  - by vm_compute.
  - intros nm rep Hin. apply list_elem_of_singleton in Hin.
    injection Hin as -> ->. vm_compute. intros Hle. by apply Hle.
Defined.

(** ** The organizer's loop *)

Section OrganizeFacts.
Context (lib : FaceLib) (self : ImageProcessor).
Context (cb : option (nat → nat → Path → result unit)) (total_ : nat).
Implicit Types (s : loop_state lib).

(** The two ways one iteration can go: the callback raised and the
    catch-all handler ran, or the image got a label and the copy was
    tried. *)
Lemma organize_step_cases s idx p s' :
  organize_step lib self cb total_ s idx p = Some s' →
  (∃ e, s' = {| l_fs := l_fs lib s;
                l_faces := l_faces lib s;
                l_processed := S (l_processed lib s);
                l_errors := l_errors lib s ++ [unexpected_error p e];
                l_faces_detected := l_faces_detected lib s;
                l_no_faces_count := S (l_no_faces_count lib s) |})
  ∨ (∃ label t' copied,
       process_image lib self (l_faces lib s) (l_fs lib s) p
         = ((process_image lib self (l_faces lib s) (l_fs lib s) p).1,
            Ok label)
       ∧ copy_into (l_fs lib s) (output_dir self) label p
         = Some (t', copied)
       ∧ s' = {| l_fs := t';
                 l_faces :=
                   (process_image lib self (l_faces lib s) (l_fs lib s) p).1;
                 l_processed := S (l_processed lib s);
                 l_errors :=
                   match copied with
                   | Ok _ => l_errors lib s
                   | Raise e => l_errors lib s ++ [copy_error p e]
                   end;
                 l_faces_detected :=
                   if negb (String.eqb label not_detected)
                   then S (l_faces_detected lib s)
                   else l_faces_detected lib s;
                 l_no_faces_count :=
                   if negb (String.eqb label not_detected)
                   then l_no_faces_count lib s
                   else S (l_no_faces_count lib s) |}).
Proof.
  unfold organize_step.
  destruct (match cb with Some f => f idx total_ p | None => Ok () end)
    as [[]|e].
  - destruct (process_image_returns lib self (l_faces lib s) (l_fs lib s) p)
      as [label Hlabel].
    destruct (process_image lib self (l_faces lib s) (l_fs lib s) p)
      as [faces outcome].
    cbn in Hlabel. subst outcome.
    destruct (copy_into (l_fs lib s) (output_dir self) label p)
      as [[t' copied]|] eqn:Hcopy; [|done].
    cbn. intros [= <-]. right. exists label, t', copied.
    split_and!; [done..|]. by destruct copied.
  - intros [= <-]. left. by exists e.
Qed.

Lemma organize_step_total s idx p :
  is_Some (organize_step lib self cb total_ s idx p).
Proof.
  unfold organize_step.
  destruct (match cb with Some f => f idx total_ p | None => Ok () end)
    as [[]|e]; [|by eexists].
  destruct (process_image lib self (l_faces lib s) (l_fs lib s) p)
    as [faces outcome].
  destruct (match outcome with Ok f => _ | Raise e => _ end)
    as [folder_name errs].
  destruct (copy_into_total (l_fs lib s) (output_dir self) folder_name p)
    as [[t' copied] ->].
  by eexists.
Qed.

Lemma organize_loop_total files : ∀ idx s,
  is_Some (organize_loop lib self cb total_ idx files s).
Proof.
  induction files as [|p files IH]; intros idx s; cbn; [by eexists|].
  destruct (organize_step_total s idx p) as [s1 ->]. cbn. apply IH.
Qed.

(** Whatever the images are: each is counted once as processed and once as
    with or without faces, the clusters stay well formed and keep their
    representatives, and no entry of the tree changes. *)
Lemma organize_loop_counts files : ∀ idx s s',
  organize_loop lib self cb total_ idx files s = Some s' →
  wf_faces (l_faces lib s) →
  wf_faces (l_faces lib s')
  ∧ l_processed lib s' = l_processed lib s + length files
  ∧ l_faces_detected lib s' + l_no_faces_count lib s'
    = l_faces_detected lib s + l_no_faces_count lib s + length files
  ∧ (∀ q n, l_fs lib s !! q = Some n → l_fs lib s' !! q = Some n)
  ∧ (∀ nm rep, Dict.get (known_faces (l_faces lib s)) nm = Some rep →
               Dict.get (known_faces (l_faces lib s')) nm = Some rep).
Proof.
  induction files as [|p files IH]; intros idx s s' Hloop Hwf.
  - cbn in Hloop. injection Hloop as <-. split_and!; (done || lia).
  - cbn in Hloop.
    destruct (organize_step lib self cb total_ s idx p) as [s1|] eqn:Hstep;
      [|done].
    cbn in Hloop.
    assert (wf_faces (l_faces lib s1)
            ∧ l_processed lib s1 = S (l_processed lib s)
            ∧ l_faces_detected lib s1 + l_no_faces_count lib s1
              = S (l_faces_detected lib s + l_no_faces_count lib s)
            ∧ (∀ q n, l_fs lib s !! q = Some n → l_fs lib s1 !! q = Some n)
            ∧ (∀ nm rep,
                 Dict.get (known_faces (l_faces lib s)) nm = Some rep →
                 Dict.get (known_faces (l_faces lib s1)) nm = Some rep))
      as (Hwf1 & Hp1 & Hc1 & Hfs1 & Hk1).
    { apply organize_step_cases in Hstep
        as [[e ->]|(label & t' & copied & _ & Hcopy & ->)]; cbn.
      - split_and!; (done || lia).
      - destruct (process_image_wf lib self (l_faces lib s) (l_fs lib s) p
                    Hwf) as (? & _ & ?).
        split_and!;
          [done|done| |intros q n; by eapply copy_into_keeps|done].
        destruct (negb _); lia. }
    destruct (IH _ _ _ Hloop Hwf1) as (Hwf2 & Hp2 & Hc2 & Hfs2 & Hk2).
    cbn [length]. split_and!; [done|lia|lia|naive_solver|naive_solver].
Qed.

(** When detection raises for every image, in the tree at hand and in every
    tree that extends it: no cluster is made, every image counts as without
    faces, and [errors] only grows by entries of failed copies and of the
    catch-all handler. *)
Lemma organize_loop_silent (t : fs) files : ∀ idx s s',
  (∀ t0 p, p ∈ files → (∀ q n, t !! q = Some n → t0 !! q = Some n) →
           ∃ e, detect_faces_try lib self t0 p = Raise e) →
  (∀ q n, t !! q = Some n → l_fs lib s !! q = Some n) →
  organize_loop lib self cb total_ idx files s = Some s' →
  l_faces lib s' = l_faces lib s
  ∧ l_faces_detected lib s' = l_faces_detected lib s
  ∧ l_no_faces_count lib s' = l_no_faces_count lib s + length files
  ∧ ∃ extra, l_errors lib s' = l_errors lib s ++ extra
      ∧ Forall (λ x, ∃ p e, p ∈ files
                            ∧ (x = copy_error p e ∨ x = unexpected_error p e))
               extra.
Proof.
  induction files as [|p files IH]; intros idx s s' Hraise Hext Hloop.
  - cbn in Hloop. injection Hloop as <-. split_and!; [done|done|cbn; lia|].
    exists []. split; [by rewrite app_nil_r|constructor].
  - cbn in Hloop.
    destruct (organize_step lib self cb total_ s idx p) as [s1|] eqn:Hstep;
      [|done].
    cbn in Hloop.
    assert (l_faces lib s1 = l_faces lib s
            ∧ l_faces_detected lib s1 = l_faces_detected lib s
            ∧ l_no_faces_count lib s1 = S (l_no_faces_count lib s)
            ∧ (∀ q n, l_fs lib s !! q = Some n → l_fs lib s1 !! q = Some n)
            ∧ ∃ extra, l_errors lib s1 = l_errors lib s ++ extra
                ∧ Forall (λ x, ∃ e, x = copy_error p e
                                    ∨ x = unexpected_error p e) extra)
      as (Hf1 & Hd1 & Hn1 & Hfs1 & extra1 & He1 & Hx1).
    { destruct (Hraise (l_fs lib s) p) as [e He]; [by left|done|].
      pose proof (process_image_detection_raises lib self (l_faces lib s)
                    _ _ _ He) as Hpi.
      apply organize_step_cases in Hstep
        as [[e' ->]|(label & t' & copied & Hlabel & Hcopy & ->)]; cbn.
      - split_and!; [done..|]. eexists. split; [done|].
        apply Forall_singleton. eauto.
      - rewrite Hpi in Hlabel |- *. injection Hlabel as <-. cbn.
        split_and!; [done|done|done|intros q n; by eapply copy_into_keeps|].
        destruct copied as [[]|e'].
        + exists []. split; [by rewrite app_nil_r|constructor].
        + eexists. split; [done|]. apply Forall_singleton. eauto. }
    destruct (IH (S idx) s1 s') as (Hf2 & Hd2 & Hn2 & extra2 & He2 & Hx2).
    + intros t0 q Hq. apply Hraise. by right.
    + naive_solver.
    + done.
    + split_and!; [congruence|congruence|cbn [length]; lia|].
      exists (extra1 ++ extra2). split.
      * by rewrite He2, He1, app_assoc.
      * apply Forall_app. split.
        -- eapply Forall_impl; [exact Hx1|]. cbn. intros x [e Hx].
           exists p, e. split; [by left|done].
        -- eapply Forall_impl; [exact Hx2|]. cbn.
           intros x (p' & e & Hp' & Hx). exists p', e.
           split; [by right|done].
Qed.
End OrganizeFacts.

Lemma organize_images_total lib self st t image_files cb :
  is_Some (organize_images lib self st t image_files cb).
Proof.
  unfold organize_images.
  destruct (mkdir_parents t (output_dir self)) as [t0|e]; [|by eexists].
  destruct (organize_loop_total lib self cb (length image_files) image_files 1
              {| l_fs := t0; l_faces := st; l_processed := 0;
                 l_errors := preflight_errors lib; l_faces_detected := 0;
                 l_no_faces_count := 0 |}) as [s ->].
  by eexists.
Qed.

(** C10. Started on a fresh processor, [organize_images] reports as
    [person_folders] the number of clusters, which is the final value of the
    person counter; the clusters are [Person_1], ..., [Person_n], so neither
    sentinel is among them.  It is not the number of person folders on disk:
    a picture showing two new persons makes two clusters and one folder,
    [Multiple Persons], and none named after either person. *)
Theorem person_folders_counts_clusters lib self t image_files cb t' st' res :
  organize_images lib self init_faces t image_files cb
    = Some (t', st', Ok res) →
  person_folders res = length (known_faces st')
  ∧ person_folders res = person_counter st'
  ∧ Dict.keys (known_faces st') = person_label <$> seq 1 (person_counter st')
  ∧ (not_detected ∉ Dict.keys (known_faces st'))
  ∧ (multiple_persons ∉ Dict.keys (known_faces st'))
  ∧ match organize_images toy_faces duo_processor init_faces duo_fs
            [duo_pic] None with
    | Some (t2, st2, Ok res2) =>
        person_folders res2 = 2
        ∧ Dict.keys (known_faces st2) = [person_label 1; person_label 2]
        ∧ t2 !! joinpath (output_dir duo_processor) (person_label 1) = None
        ∧ t2 !! joinpath (output_dir duo_processor) (person_label 2) = None
        ∧ t2 !! joinpath (output_dir duo_processor) multiple_persons
          = Some Dir
    | _ => False
    end.
Proof.
  unfold organize_images at 1. intros Hrun.
  destruct (mkdir_parents t (output_dir self)) as [t0|e]; [|done].
  destruct (organize_loop _ _ _ _ _ _ _) as [s|] eqn:Hloop; [|done].
  cbn in Hrun. injection Hrun as <- <- <-.
  apply organize_loop_counts in Hloop as (Hwf & _); [|apply wf_faces_init].
  cbn [person_folders]. split_and!.
  - done.
  - by apply wf_faces_length.
  - done.
  - rewrite Hwf. intros Hin. apply list_elem_of_fmap in Hin as (n & Hn & _).
    by destruct (person_label_not_sentinel n).
  - rewrite Hwf. intros Hin. apply list_elem_of_fmap in Hin as (n & Hn & _).
    by destruct (person_label_not_sentinel n).
  - vm_compute. by repeat split.
Qed.

Lemma person_folders_counts_clusters_witness :
  match organize_images toy_faces duo_processor init_faces duo_fs
          [duo_pic] None with
  | Some (_, st2, Ok res2) => person_folders res2 = person_counter st2
  | _ => False
  end.
Proof.
  assert (match organize_images toy_faces duo_processor init_faces duo_fs
                  [duo_pic] None with
          | Some (_, _, Ok _) => True
          | _ => False
          end) as Hrun by (by vm_compute).
  destruct (organize_images toy_faces duo_processor init_faces duo_fs
              [duo_pic] None) as [[[t2 st2] [res2|e]]|] eqn:E; [|done..].
  exact (proj1 (proj2 (person_folders_counts_clusters _ _ _ _ _ _ _ _ E))).
Defined.

Lemma organize_loop_processed lib self cb total_ files : ∀ idx s s',
  organize_loop lib self cb total_ idx files s = Some s' →
  l_processed lib s' = l_processed lib s + length files.
Proof.
  induction files as [|p files IH]; intros idx s s' Hloop; cbn in Hloop.
  - injection Hloop as <-. cbn. lia.
  - destruct (organize_step lib self cb total_ s idx p) as [s1|] eqn:Hstep;
      [|done].
    cbn in Hloop. apply IH in Hloop. rewrite Hloop. cbn [length].
    apply organize_step_cases in Hstep as [[e ->]|(? & ? & ? & _ & _ & ->)];
      cbn; lia.
Qed.

Lemma bad_pic_detection_raises t0 :
  (∀ q n, duo_fs !! q = Some n → t0 !! q = Some n) →
  detect_faces_try toy_faces duo_processor t0 bad_pic
  = Raise "cannot identify image file".
Proof.
  intros Hext. unfold detect_faces_try.
  assert (stat t0 bad_pic = Some (File [])) as ->; [|done].
  apply Hext. by vm_compute.
Qed.

(** One image in any batch.  When detection raises for the image at hand,
    the iteration still ends: the image is counted as processed and as
    without faces, the clusters stay as they are, and [errors] is left as it
    was, or gets the entry of a failed copy or of the catch-all handler;
    the handler that would record the failure of [process_image] is never
    entered, since [process_image] returns whatever happens. *)
Lemma detection_failure_step lib self cb total_ s idx p e :
  detect_faces_try lib self (l_fs lib s) p = Raise e →
  (∀ st0 t0 p0, ∃ label, (process_image lib self st0 t0 p0).2 = Ok label)
  ∧ ∃ s', organize_step lib self cb total_ s idx p = Some s'
      ∧ l_faces lib s' = l_faces lib s
      ∧ l_processed lib s' = S (l_processed lib s)
      ∧ l_no_faces_count lib s' = S (l_no_faces_count lib s)
      ∧ l_faces_detected lib s' = l_faces_detected lib s
      ∧ (l_errors lib s' = l_errors lib s
         ∨ (∃ e', l_errors lib s' = l_errors lib s ++ [copy_error p e'])
         ∨ (∃ e', l_errors lib s'
                  = l_errors lib s ++ [unexpected_error p e'])).
Proof.
  intros Hraise. split; [intros st0 t0 p0; apply process_image_returns|].
  destruct (organize_step_total lib self cb total_ s idx p) as [s' Hstep].
  exists s'. split; [done|].
  apply organize_step_cases in Hstep
    as [[e' ->]|(label & t' & copied & Hlabel & _ & ->)]; cbn.
  - split_and!; [done..|]. right. right. by exists e'.
  - rewrite (process_image_detection_raises lib self _ _ _ e Hraise) in Hlabel.
    injection Hlabel as <-.
    rewrite (process_image_detection_raises lib self _ _ _ e Hraise). cbn.
    split_and!; [done..|].
    destruct copied as [[]|e']; [by left|]. right. left. by exists e'.
Qed.

(** A whole batch.  An exception raised by detection is swallowed by
    [detect_faces]: the image gets the label [Not Detected Persons], the
    clusters stay as they are, and nothing is added to [errors] for it.  An
    exception raised by the encoding of a face only skips that face.  When
    detection raises for each of the N images, the batch runs to its end with
    [processed = N], [no_faces = N] and [faces_detected = 0]; [errors] holds
    what the two checks before the loop left there, followed only by entries
    of failed copies and of the catch-all handler. *)
Theorem detection_failure_is_silent lib self st t image_files cb t' st' res :
  (∀ t0 p, p ∈ image_files → (∀ q n, t !! q = Some n → t0 !! q = Some n) →
           ∃ e, detect_faces_try lib self t0 p = Raise e) →
  organize_images lib self st t image_files cb = Some (t', st', Ok res) →
  (∀ t0 p e st0, detect_faces_try lib self t0 p = Raise e →
                 process_image lib self st0 t0 p = (st0, Ok not_detected))
  ∧ (∀ image loc e acc, face_encodings lib image loc = Raise e →
                        face_step lib image acc loc = acc)
  ∧ processed res = length image_files
  ∧ no_faces res = length image_files
  ∧ faces_detected res = 0
  ∧ st' = st
  ∧ ∃ extra,
      errors res = preflight_errors lib ++ extra
      ∧ Forall (λ x, ∃ p e, p ∈ image_files
                            ∧ (x = copy_error p e ∨ x = unexpected_error p e))
               extra.
Proof.
  unfold organize_images. intros Hraise Hrun.
  destruct (mkdir_parents t (output_dir self)) as [t0|e] eqn:Hmk; [|done].
  destruct (organize_loop _ _ _ _ _ _ _) as [s|] eqn:Hloop; [|done].
  cbn in Hrun. injection Hrun as <- <- <-.
  pose proof (organize_loop_processed _ _ _ _ _ _ _ _ Hloop) as Hproc.
  apply (organize_loop_silent lib self cb _ t) in Hloop
    as (Hfaces & Hdet & Hno & extra & Herr & Hextra); [|done|].
  - cbn in *. split_and!; [| |done..|by exists extra].
    + intros t1 p e st0. apply process_image_detection_raises.
    + intros image loc e [st0 persons] Henc. unfold face_step, get_face_encoding.
      by rewrite Henc.
  - intros q n. by apply mkdir_parents_keeps with (p := output_dir self).
Qed.

Lemma detection_failure_is_silent_witness :
  match organize_images toy_faces duo_processor init_faces duo_fs
          [bad_pic] None with
  | Some (_, _, Ok res) => processed res = length [bad_pic]
  | _ => False
  end.
Proof.
  assert (match organize_images toy_faces duo_processor init_faces duo_fs
                  [bad_pic] None with
          | Some (_, _, Ok _) => True
          | _ => False
          end) as Hrun by (by vm_compute).
  destruct (organize_images toy_faces duo_processor init_faces duo_fs
              [bad_pic] None) as [[[t2 st2] [res2|e]]|] eqn:E; [|done..].
  refine (proj1 (proj2 (proj2
            (detection_failure_is_silent _ _ _ _ _ _ _ _ _ _ E)))).
  intros t0 p Hp Hext. apply list_elem_of_singleton in Hp. subst p.
  eexists. by apply bad_pic_detection_raises.
Defined.

(** C2.  The claim fails on the code at a batch of one file that cannot be
    loaded: detection raises for [bad_pic], in the tree at hand and in every
    tree that extends it; organizing it alone reports one processed image
    without faces, and [errors] is empty where the claim has an entry with
    the image's name. *)
Lemma detection_failure_leaves_no_error :
  (∀ t0, (∀ q n, duo_fs !! q = Some n → t0 !! q = Some n) →
         detect_faces_try toy_faces duo_processor t0 bad_pic
         = Raise "cannot identify image file")
  ∧ match organize_images toy_faces duo_processor init_faces duo_fs
            [bad_pic] None with
    | Some (_, st2, Ok res) =>
        processed res = 1 ∧ no_faces res = 1 ∧ faces_detected res = 0
        ∧ errors res = [] ∧ known_faces st2 = []
    | _ => False
    end.
Proof.
  split; [apply bad_pic_detection_raises|]. vm_compute. by repeat split.
Qed.

(** ** The groups of [find_duplicates] *)

Section ExactGroups.
Context (lib : Imaging) (t : fs) (image_files : list Path).

Lemma md5_to_files_inv :
  md5_inv lib t image_files (foldl (md5_step lib t) [] image_files).
Proof.
  apply (foldl_invariant (md5_inv lib t image_files)).
  - split; [apply NoDup_nil_2|]. intros m fl Hin. by apply elem_of_nil in Hin.
  - intros d p [Hnd Hd] Hp. unfold md5_step.
    destruct (calculate_md5_hash lib t p) as [m|] eqn:Hm; [|done].
    case_bool_decide; [done|]. split; [by apply dict_set_keys_NoDup|].
    intros m' fl' Hin f Hf. apply dict_set_elem in Hin as [Heq|Hin].
    + injection Heq as -> ->. apply elem_of_app in Hf as [Hf|Hf].
      * destruct (Dict.get d m) as [old|] eqn:Hget; cbn in Hf.
        -- apply dict_get_elem in Hget. by apply (Hd m old).
        -- by apply elem_of_nil in Hf.
      * apply list_elem_of_singleton in Hf as ->. done.
    + by apply (Hd m' fl').
Qed.

Lemma md5_inv_disjoint d :
  md5_inv lib t image_files d → pairwise_disjoint (Dict.values d).
Proof.
  intros [Hnd Hd]. induction d as [|[m fl] d IH]; [done|].
  cbn in Hnd. apply NoDup_cons in Hnd as [Hm Hnd]. cbn. split.
  - apply Forall_forall. intros fl' Hfl' f Hf Hf'.
    apply list_elem_of_fmap in Hfl' as ([m' fl''] & -> & Hin).
    destruct (Hd m fl (ltac:(by left)) f Hf) as [H1 _].
    destruct (Hd m' fl'' (ltac:(by right)) f Hf') as [H2 _].
    assert (m = m') as <- by congruence.
    apply Hm. by apply (list_elem_of_fmap_2 fst) in Hin.
  - apply IH; [done|]. intros m' fl' Hin. apply Hd. by right.
Qed.

Lemma exact_duplicates_values d :
  Dict.values (exact_duplicates_of d)
  = List.filter (λ fl, 1 <? length fl) (Dict.values d).
Proof.
  unfold exact_duplicates_of, Dict.values.
  induction d as [|[m fl] d IH]; [done|].
  simpl. destruct (1 <? length fl); simpl; [f_equal|]; apply IH.
Qed.

Lemma exact_files_elem ed f :
  f ∈ exact_files_of ed ↔ ∃ fl, fl ∈ Dict.values ed ∧ f ∈ fl.
Proof.
  unfold exact_files_of.
  enough (∀ l (acc : gset Path),
            f ∈ foldl (λ exact_files fl, exact_files ∪ list_to_set fl) acc l
            ↔ f ∈ acc ∨ ∃ fl, fl ∈ l ∧ f ∈ fl) as H.
  { rewrite H. split; [|by right]. intros [?|?]; [set_solver|done]. }
  induction l as [|fl l IH]; intros acc; cbn.
  - split; [by left|]. intros [?|(fl & Hfl & _)]; [done|].
    by apply elem_of_nil in Hfl.
  - rewrite IH, elem_of_union, elem_of_list_to_set. split.
    + intros [[?|?]|(fl' & ? & ?)]; [by left| |].
      * right. exists fl. split; [by left|done].
      * right. exists fl'. split; [by right|done].
    + intros [?|(fl' & Hfl' & ?)]; [by left; left|].
      apply elem_of_cons in Hfl' as [->|?]; [by left; right|].
      right. by exists fl'.
Qed.
End ExactGroups.

Lemma group_key_inj i j : group_key i = group_key j → i = j.
Proof.
  unfold group_key. intros Heq.
  apply (inj (String.append "group_")) in Heq. by apply (inj pretty) in Heq.
Qed.

Section Combine.
Context (lib : Imaging) (t : fs).

(** Adding groups one after the other never overwrites an entry: the keys
    are [group_0], [group_1], ... in order. *)
Lemma add_groups ty gl : ∀ st : Dict.t string group_data * nat,
  Dict.keys st.1 = group_key <$> seq 0 st.2 →
  Dict.keys (foldl (add_group lib t ty) st gl).1
    = group_key <$> seq 0 (foldl (add_group lib t ty) st gl).2
  ∧ Dict.values (foldl (add_group lib t ty) st gl).1
    = Dict.values st.1 ++ (group_entry lib t ty <$> gl).
Proof.
  induction gl as [|fl gl IH]; intros [d n] Hkeys; cbn [fst snd] in Hkeys.
  - cbn. by rewrite app_nil_r.
  - cbn [foldl]. unfold add_group at 2 4 6.
    assert (group_key n ∉ Dict.keys d) as Hfresh.
    { rewrite Hkeys. intros Hin.
      apply list_elem_of_fmap in Hin as (j & Heq & Hj).
      apply group_key_inj in Heq as <-. apply elem_of_seq in Hj. lia. }
    rewrite dict_set_fresh by done.
    destruct (IH (d ++ [(group_key n, group_entry lib t ty fl)], S n))
      as (Hk & Hv).
    { cbn [fst snd]. unfold Dict.keys in *.
      rewrite fmap_app, Hkeys, seq_S, fmap_app. done. }
    split; [exact Hk|]. etrans; [exact Hv|]. cbn [fst].
    unfold Dict.values. rewrite fmap_app, <- app_assoc. done.
Qed.

(** The result of [find_duplicates], written out: the exact groups in the
    order of their digests, then the candidate groups of the similarity
    step that contain no file of an exact group. *)
Lemma find_duplicates_values self image_files :
  Dict.values (find_duplicates lib self t image_files)
  = (group_entry lib t "exact"
     <$> Dict.values (exact_duplicates_in lib t image_files))
    ++ (group_entry lib t "similar"
        <$> kept_candidates lib self t image_files)
  ∧ NoDup (Dict.keys (find_duplicates lib self t image_files)).
Proof.
  unfold find_duplicates, kept_candidates, candidate_groups.
  fold (exact_duplicates_in lib t image_files).
  set (ed := exact_duplicates_in lib t image_files).
  set (sg := similar_groups_of self
               (foldl (hashes_step lib t) [] image_files)).
  rewrite (foldl_guarded (λ g, negb (touches (exact_files_of ed) g))
                         (add_group lib t "similar")).
  remember (foldl (add_group lib t "exact") ([], 0) (Dict.values ed))
    as st1 eqn:Hst1.
  assert (Dict.keys st1.1 = group_key <$> seq 0 st1.2
          ∧ Dict.values st1.1 = group_entry lib t "exact" <$> Dict.values ed)
    as [Hk1 Hv1].
  { subst st1. by apply (add_groups "exact" (Dict.values ed) ([], 0)). }
  destruct (add_groups "similar"
              (List.filter (λ g, negb (touches (exact_files_of ed) g)) sg)
              st1 Hk1) as (Hk2 & Hv2).
  rewrite Hv2, Hv1, Hk2. split; [done|].
  apply NoDup_fmap_2; [|apply NoDup_seq].
  intros i j. apply group_key_inj.
Qed.
End Combine.

Lemma existsb_entries lib t ty ty' f gl :
  existsb (λ g, String.eqb (type g) ty' && bool_decide (f ∈ files g))
          (group_entry lib t ty <$> gl)
  = String.eqb ty ty' && existsb (λ fl, bool_decide (f ∈ fl)) gl.
Proof.
  induction gl as [|fl gl IH]; cbn; [by rewrite andb_false_r|].
  rewrite IH. by destruct (String.eqb ty ty'), (bool_decide (f ∈ fl)).
Qed.

Lemma existsb_entries_any lib t ty f gl :
  existsb (λ g, bool_decide (f ∈ files g)) (group_entry lib t ty <$> gl)
  = existsb (λ fl, bool_decide (f ∈ fl)) gl.
Proof. induction gl as [|fl gl IH]; cbn; [done|]. by rewrite IH. Qed.

Lemma existsb_pointwise {A : Type} (f g : A → bool) l :
  (∀ x, f x = g x) → existsb f l = existsb g l.
Proof. intros Hfg. induction l as [|x l IH]; cbn; [done|]. by rewrite Hfg, IH. Qed.

Lemma existsb_member f (gl : list (list Path)) :
  existsb (λ fl, bool_decide (f ∈ fl)) gl = true ↔ ∃ fl, fl ∈ gl ∧ f ∈ fl.
Proof.
  rewrite existsb_exists. split.
  - intros (fl & Hin & Hf). apply list_elem_of_In in Hin.
    apply bool_decide_eq_true in Hf. by exists fl.
  - intros (fl & Hin & Hf). exists fl. rewrite <- list_elem_of_In.
    split; [done|]. by apply bool_decide_eq_true.
Qed.

Lemma filter_entries_same lib t ty gl :
  List.filter (λ g, String.eqb (type g) ty) (group_entry lib t ty <$> gl)
  = group_entry lib t ty <$> gl.
Proof.
  induction gl as [|fl gl IH]; cbn; [done|].
  rewrite String.eqb_refl. by rewrite IH.
Qed.

Lemma filter_entries_other lib t ty ty' gl :
  String.eqb ty ty' = false →
  List.filter (λ g, String.eqb (type g) ty') (group_entry lib t ty <$> gl)
  = [].
Proof.
  intros Hne. induction gl as [|fl gl IH]; cbn; [done|]. by rewrite Hne.
Qed.

Lemma files_entries lib t ty (gl : list (list Path)) :
  files <$> (group_entry lib t ty <$> gl) = gl.
Proof. induction gl as [|fl gl IH]; cbn; [done|]. by rewrite IH. Qed.

Section Partition.
Context (lib : Imaging) (self : ImageProcessor) (t : fs).
Context (image_files : list Path).

Lemma result_groups :
  files <$> Dict.values (find_duplicates lib self t image_files)
  = Dict.values (exact_duplicates_in lib t image_files)
    ++ kept_candidates lib self t image_files.
Proof.
  destruct (find_duplicates_values lib t self image_files) as [-> _].
  by rewrite fmap_app, !files_entries.
Qed.

Lemma exact_groups_facts :
  pairwise_disjoint (Dict.values (exact_duplicates_in lib t image_files))
  ∧ ∀ fl f, fl ∈ Dict.values (exact_duplicates_in lib t image_files) →
            f ∈ fl → f ∈ image_files.
Proof.
  pose proof (md5_to_files_inv lib t image_files) as Hinv.
  unfold exact_duplicates_in. rewrite exact_duplicates_values. split.
  - by apply pairwise_disjoint_filter, (md5_inv_disjoint lib t image_files).
  - intros fl f Hfl Hf.
    apply list_elem_of_In, filter_In in Hfl as [Hfl _].
    apply list_elem_of_In, list_elem_of_fmap in Hfl as ([m fl'] & -> & Hin).
    destruct Hinv as [_ Hd]. by destruct (Hd m fl' Hin f Hf).
Qed.

Lemma kept_groups_facts :
  pairwise_disjoint (kept_candidates lib self t image_files)
  ∧ (∀ g f, g ∈ kept_candidates lib self t image_files → f ∈ g →
            f ∈ image_files)
  ∧ ∀ g f fl, g ∈ kept_candidates lib self t image_files → f ∈ g →
              fl ∈ Dict.values (exact_duplicates_in lib t image_files) →
              f ∉ fl.
Proof.
  unfold kept_candidates, candidate_groups.
  destruct (similar_groups_inv self
              (foldl (hashes_step lib t) [] image_files)) as [Hall Hpd].
  split_and!.
  - by apply pairwise_disjoint_filter.
  - intros g f Hg Hf. apply list_elem_of_In, filter_In in Hg as [Hg _].
    apply list_elem_of_In in Hg. eapply Forall_forall in Hall; [|exact Hg].
    destruct Hall as [Hkeys _]. by eapply image_hashes_keys, Hkeys.
  - intros g f fl Hg Hf Hfl Hffl.
    apply list_elem_of_In, filter_In in Hg as [_ Hg].
    apply negb_true_iff in Hg.
    assert (touches (exact_files_of (exact_duplicates_in lib t image_files))
                    g = true) as Ht; [|congruence].
    apply existsb_exists. exists f. split; [by apply list_elem_of_In|].
    apply bool_decide_eq_true, exact_files_elem. by exists fl.
Qed.

Lemma result_groups_disjoint :
  pairwise_disjoint
    (files <$> Dict.values (find_duplicates lib self t image_files)).
Proof.
  rewrite result_groups.
  destruct exact_groups_facts as [Hpd1 _].
  destruct kept_groups_facts as (Hpd2 & _ & Hcross).
  apply pairwise_disjoint_app. split_and!; [done..|].
  intros g1 g2 Hg1 Hg2 f Hf1 Hf2. by apply (Hcross g2 f g1).
Qed.

Lemma in_exact_spec f :
  in_group_of "exact" (find_duplicates lib self t image_files) f
  = existsb (λ fl, bool_decide (f ∈ fl))
            (Dict.values (exact_duplicates_in lib t image_files)).
Proof.
  unfold in_group_of.
  destruct (find_duplicates_values lib t self image_files) as [-> _].
  rewrite existsb_app, !existsb_entries. cbn. by rewrite orb_false_r.
Qed.

Lemma in_similar_spec f :
  in_group_of "similar" (find_duplicates lib self t image_files) f
  = existsb (λ fl, bool_decide (f ∈ fl))
            (kept_candidates lib self t image_files).
Proof.
  unfold in_group_of.
  destruct (find_duplicates_values lib t self image_files) as [-> _].
  rewrite existsb_app, !existsb_entries. done.
Qed.

Lemma ungrouped_spec f :
  ungrouped (find_duplicates lib self t image_files) f
  = negb (existsb (λ fl, bool_decide (f ∈ fl))
                  (Dict.values (exact_duplicates_in lib t image_files))
          || existsb (λ fl, bool_decide (f ∈ fl))
                     (kept_candidates lib self t image_files)).
Proof.
  unfold ungrouped.
  destruct (find_duplicates_values lib t self image_files) as [-> _].
  by rewrite existsb_app, !existsb_entries_any.
Qed.

Lemma touches_in_exact g :
  touches (exact_files_of (exact_duplicates_in lib t image_files)) g
  = existsb (in_group_of "exact" (find_duplicates lib self t image_files)) g.
Proof.
  unfold touches. apply existsb_pointwise. intros f. rewrite in_exact_spec.
  apply eq_true_iff_eq. rewrite bool_decide_eq_true, exact_files_elem.
  by rewrite existsb_member.
Qed.
End Partition.

(** C5. The groups returned by [find_duplicates] never share a file: a file
    that is in two entries of the mapping is in the same entry twice.  The
    keys of the mapping are distinct, every member of a group is an input
    file, and every input file is in exactly one of three cases: in an exact
    group, in a similar group, in no group. *)
Theorem find_duplicates_partition lib self t image_files :
  let r := find_duplicates lib self t image_files in
  NoDup (Dict.keys r)
  ∧ (∀ i j gi gj f,
       Dict.values r !! i = Some gi → Dict.values r !! j = Some gj →
       f ∈ files gi → f ∈ files gj → i = j)
  ∧ (∀ g f, g ∈ Dict.values r → f ∈ files g → f ∈ image_files)
  ∧ (∀ f, f ∈ image_files →
       (in_group_of "exact" r f = true ∧ in_group_of "similar" r f = false
        ∧ ungrouped r f = false)
       ∨ (in_group_of "exact" r f = false ∧ in_group_of "similar" r f = true
          ∧ ungrouped r f = false)
       ∨ (in_group_of "exact" r f = false ∧ in_group_of "similar" r f = false
          ∧ ungrouped r f = true)).
Proof.
  intros r. subst r. split_and!.
  - by destruct (find_duplicates_values lib t self image_files) as [_ ?].
  - intros i j gi gj f Hi Hj Hfi Hfj.
    apply (pairwise_disjoint_lookup _ i j (files gi) (files gj) f
             (result_groups_disjoint lib self t image_files));
      [by rewrite list_lookup_fmap, ?Hi, ?Hj..|done|done].
  - intros g f Hg Hf. apply (list_elem_of_fmap_2 files) in Hg.
    rewrite result_groups in Hg. apply elem_of_app in Hg as [Hg|Hg].
    + by eapply (proj2 (exact_groups_facts lib t image_files)).
    + by eapply (proj1 (proj2 (kept_groups_facts lib self t image_files))).
  - intros f _. rewrite in_exact_spec, in_similar_spec, ungrouped_spec.
    destruct (existsb _ (Dict.values _)) eqn:He;
      destruct (existsb _ (kept_candidates _ _ _ _)) eqn:Hs; cbn; auto.
    apply existsb_member in He as (fl & Hfl & Hffl).
    apply existsb_member in Hs as (g & Hg & Hfg).
    by destruct (proj2 (proj2 (kept_groups_facts lib self t image_files))
                   g f fl).
Qed.

(** C1, as the code has it.  The similarity step clusters all the files that
    have hashes, those of exact groups included, and a candidate group that
    contains a file of an exact group is dropped whole: the similar groups of
    the result are the candidate groups without such a file, in order.  So
    every similar group of the result consists of files that are in no exact
    group. *)
Theorem similar_groups_avoid_exact lib self t image_files :
  let r := find_duplicates lib self t image_files in
  similar_part r
  = List.filter (λ group, negb (existsb (in_group_of "exact" r) group))
      (similar_groups_of self (foldl (hashes_step lib t) [] image_files))
  ∧ ∀ g f, g ∈ Dict.values r → type g = "similar" → f ∈ files g →
           in_group_of "exact" r f = false.
Proof.
  intros r. subst r.
  assert (similar_part (find_duplicates lib self t image_files)
          = List.filter
              (λ group, negb (existsb (in_group_of "exact"
                         (find_duplicates lib self t image_files)) group))
              (similar_groups_of self
                 (foldl (hashes_step lib t) [] image_files))) as Hpart.
  { unfold similar_part.
    destruct (find_duplicates_values lib t self image_files) as [Hv _].
    rewrite Hv at 1. rewrite List.filter_app, filter_entries_other by done.
    rewrite filter_entries_same, app_nil_l, files_entries.
    unfold kept_candidates, candidate_groups. apply filter_ext. intros g.
    by rewrite (touches_in_exact lib self t image_files). }
  split; [done|]. intros g f Hg Hty Hf.
  assert (files g ∈ similar_part (find_duplicates lib self t image_files))
    as Hin.
  { unfold similar_part. apply list_elem_of_fmap_2, list_elem_of_In, filter_In.
    split; [by apply list_elem_of_In|]. rewrite Hty. done. }
  rewrite Hpart in Hin. apply list_elem_of_In, filter_In in Hin as [_ Hno].
  apply negb_true_iff in Hno.
  destruct (in_group_of "exact" _ f) eqn:Hex; [|done].
  assert (existsb (in_group_of "exact"
                     (find_duplicates lib self t image_files)) (files g)
          = true) as Hyes; [|congruence].
  apply existsb_exists. exists f. split; [by apply list_elem_of_In|done].
Qed.

(** C1 as stated fails.  [pic_a] and [pic_b] are byte-identical and form an
    exact group; [pic_c] and [pic_d] are in no exact group and pass the vote
    against each other, and alone they form a similar group.  With all four
    as input the similarity step seeds a group at [pic_a], which takes in
    [pic_b] and [pic_c]; that group is dropped, [pic_d] is left alone, and no
    similar group is returned. *)
Lemma exact_files_shape_similar_groups :
  similar_groups_of pics_processor
    (foldl (hashes_step toy_imaging pics_fs) [] [pic_a; pic_b; pic_c; pic_d])
  = [[pic_a; pic_b; pic_c]]
  ∧ files <$> Dict.values (find_duplicates toy_imaging pics_processor pics_fs
                             [pic_a; pic_b; pic_c; pic_d])
    = [[pic_a; pic_b]]
  ∧ similar_part (find_duplicates toy_imaging pics_processor pics_fs
                    [pic_a; pic_b; pic_c; pic_d]) = []
  ∧ in_group_of "exact"
      (find_duplicates toy_imaging pics_processor pics_fs
         [pic_a; pic_b; pic_c; pic_d]) pic_c = false
  ∧ in_group_of "exact"
      (find_duplicates toy_imaging pics_processor pics_fs
         [pic_a; pic_b; pic_c; pic_d]) pic_d = false
  ∧ similar_part (find_duplicates toy_imaging pics_processor pics_fs
                    [pic_c; pic_d]) = [[pic_c; pic_d]].
Proof. by vm_compute. Qed.

(** ** More on the groups of [find_duplicates] *)

Lemma dict_elem_get {K V : Type} `{EqDecision K} (d : Dict.t K V) k v :
  NoDup (Dict.keys d) → (k, v) ∈ d → Dict.get d k = Some v.
Proof.
  induction d as [|[k0 v0] d IH]; cbn; intros Hnd Hin.
  - by apply elem_of_nil in Hin.
  - apply NoDup_cons in Hnd as [Hk0 Hnd].
    apply elem_of_cons in Hin as [Heq|Hin].
    + injection Heq as -> ->. by rewrite decide_True.
    + destruct (decide (k0 = k)) as [->|Hne]; [|by apply IH].
      destruct Hk0. by apply (list_elem_of_fmap_2 fst) in Hin.
Qed.

Section Md5Closed.
Context (lib : Imaging) (t : fs).

(** What [md5_to_files] holds under a digest after the first loop: the
    input files with that digest, in input order, if there are any. *)
Lemma md5_to_files_get image_files m :
  Dict.get (foldl (md5_step lib t) [] image_files) m
  = match List.filter (digest_is lib t m) image_files with
    | [] => None
    | fl => Some fl
    end.
Proof.
  induction image_files as [|x l IH] using rev_ind; [done|].
  rewrite foldl_app, List.filter_app. cbn [foldl List.filter].
  unfold md5_step at 1, digest_is at 2.
  destruct (calculate_md5_hash lib t x) as [mx|] eqn:Hx.
  - case_bool_decide as Hempty.
    + subst mx. rewrite IH. case_bool_decide as Hm; cbn.
      * injection Hm as <-. rewrite bool_decide_eq_true_2 by done. cbn.
        by rewrite app_nil_r.
      * by rewrite app_nil_r.
    + destruct (decide (mx = m)) as [->|Hne].
      * rewrite dict_get_set_eq, IH.
        rewrite bool_decide_eq_true_2, bool_decide_eq_false_2 by done. cbn.
        by destruct (List.filter (digest_is lib t m) l).
      * rewrite dict_get_set_ne, IH by done.
        rewrite bool_decide_eq_false_2 by congruence. cbn.
        by rewrite app_nil_r.
  - rewrite IH. rewrite bool_decide_eq_false_2 by done. cbn.
    by rewrite app_nil_r.
Qed.
End Md5Closed.

Lemma two_members_length {A : Type} (l : list A) x y :
  x ∈ l → y ∈ l → x ≠ y → 1 < length l.
Proof.
  destruct l as [|a [|b l]]; cbn; intros Hx Hy Hne; [|exfalso|lia].
  - by apply elem_of_nil in Hx.
  - apply list_elem_of_singleton in Hx, Hy. congruence.
Qed.

(** X1. Two different input files are in one exact group exactly when they
    have the same non-empty digest, whatever their perceptual hashes are. *)
Theorem exact_group_iff_same_digest lib self t image_files f1 f2 :
  f1 ∈ image_files → f2 ∈ image_files → f1 ≠ f2 →
  (∃ g, g ∈ Dict.values (find_duplicates lib self t image_files)
        ∧ type g = "exact" ∧ f1 ∈ files g ∧ f2 ∈ files g)
  ↔ (∃ m, m ≠ EmptyString
          ∧ calculate_md5_hash lib t f1 = Some m
          ∧ calculate_md5_hash lib t f2 = Some m).
Proof.
  intros Hf1 Hf2 Hne.
  destruct (find_duplicates_values lib t self image_files) as [Hv _].
  pose proof (md5_to_files_inv lib t image_files) as [Hnd Hinv].
  split.
  - intros (g & Hg & Hty & Hg1 & Hg2). rewrite Hv in Hg.
    apply elem_of_app in Hg as [Hg|Hg];
      apply list_elem_of_fmap in Hg as (fl & -> & Hfl); [|done].
    cbn in Hg1, Hg2. unfold exact_duplicates_in in Hfl.
    rewrite exact_duplicates_values in Hfl.
    apply list_elem_of_In, filter_In in Hfl as [Hfl _].
    apply list_elem_of_In, list_elem_of_fmap in Hfl as ([m fl'] & -> & Hin).
    cbn in Hg1, Hg2. exists m.
    destruct (Hinv m fl' Hin f1 Hg1) as [Hm1 _].
    destruct (Hinv m fl' Hin f2 Hg2) as [Hm2 _].
    split_and!; [|done..].
    apply dict_elem_get in Hin; [|done].
    rewrite md5_to_files_get in Hin.
    destruct (List.filter (digest_is lib t m) image_files) as [|a fl] eqn:Hflt;
      [done|].
    injection Hin as <-. rewrite <- Hflt in Hg1.
    apply list_elem_of_In, filter_In in Hg1 as [_ Hd].
    unfold digest_is in Hd. apply andb_true_iff in Hd as [_ Hd].
    apply negb_true_iff, bool_decide_eq_false in Hd. done.
  - intros (m & Hm & Hm1 & Hm2).
    assert (∀ f, f ∈ image_files → calculate_md5_hash lib t f = Some m →
                 f ∈ List.filter (digest_is lib t m) image_files) as Hmem.
    { intros f Hf Hfm. apply list_elem_of_In, filter_In.
      split; [by apply list_elem_of_In|]. unfold digest_is.
      by rewrite bool_decide_eq_true_2, bool_decide_eq_false_2. }
    pose proof (md5_to_files_get lib t image_files m) as Hget.
    pose proof (Hmem f1 Hf1 Hm1) as H1. pose proof (Hmem f2 Hf2 Hm2) as H2.
    destruct (List.filter (digest_is lib t m) image_files) as [|a fl] eqn:Hflt;
      [by apply elem_of_nil in H1|].
    apply dict_get_elem in Hget.
    exists (group_entry lib t "exact" (a :: fl)).
    split_and!; [|done..]. rewrite Hv. apply elem_of_app. left.
    apply list_elem_of_fmap_2. unfold exact_duplicates_in.
    rewrite exact_duplicates_values. apply list_elem_of_In, filter_In. split.
    + apply list_elem_of_In. by apply (list_elem_of_fmap_2 snd) in Hget.
    + apply Nat.ltb_lt. by apply (two_members_length _ f1 f2).
Qed.

Lemma exact_group_iff_same_digest_witness :
  ∃ g, g ∈ Dict.values (find_duplicates toy_imaging pics_processor pics_fs
                          [pic_a; pic_b; pic_c; pic_d])
       ∧ type g = "exact" ∧ pic_a ∈ files g ∧ pic_b ∈ files g.
Proof.
  refine (proj2 (exact_group_iff_same_digest toy_imaging pics_processor
                   pics_fs [pic_a; pic_b; pic_c; pic_d] pic_a pic_b _ _ _) _).
  - apply list_elem_of_In. left. reflexivity.
  - apply list_elem_of_In. right. left. reflexivity.
  - discriminate.
  - exists (md5_hexdigest toy_imaging [x00]).
    split_and!; by vm_compute.
Defined.

Section Keys.
Context (lib : Imaging) (t : fs).

Lemma find_duplicates_keys self image_files :
  Dict.keys (find_duplicates lib self t image_files)
  = group_key <$> seq 0 (length (find_duplicates lib self t image_files)).
Proof.
  enough (∃ n, Dict.keys (find_duplicates lib self t image_files)
               = group_key <$> seq 0 n) as [n Hn].
  { rewrite Hn. f_equal. f_equal. apply (f_equal length) in Hn.
    unfold Dict.keys in Hn. by rewrite !length_fmap, length_seq in Hn. }
  unfold find_duplicates.
  set (ed := exact_duplicates_of (foldl (md5_step lib t) [] image_files)).
  set (sg := similar_groups_of self
               (foldl (hashes_step lib t) [] image_files)).
  rewrite (foldl_guarded (λ g, negb (touches (exact_files_of ed) g))
                         (add_group lib t "similar")).
  remember (foldl (add_group lib t "exact") ([], 0) (Dict.values ed))
    as st1 eqn:Hst1.
  assert (Dict.keys st1.1 = group_key <$> seq 0 st1.2) as Hk1.
  { subst st1. by apply (add_groups lib t "exact" (Dict.values ed) ([], 0)). }
  destruct (add_groups lib t "similar"
              (List.filter (λ g, negb (touches (exact_files_of ed) g)) sg)
              st1 Hk1) as (Hk2 & _).
  eexists. exact Hk2.
Qed.
End Keys.

(** X2. The mapping returned by [find_duplicates] has the keys [group_0],
    [group_1], ... in this order; every group lists at least two files; the
    exact groups come first and the similar groups after them. *)
Theorem find_duplicates_shape lib self t image_files :
  let r := find_duplicates lib self t image_files in
  Dict.keys r = group_key <$> seq 0 (length r)
  ∧ Forall (λ g, 2 ≤ length (files g)) (Dict.values r)
  ∧ ∃ n, ∀ i g, Dict.values r !! i = Some g →
                if decide (i < n) then type g = "exact"
                else type g = "similar".
Proof.
  intros r. subst r. split_and!.
  - apply find_duplicates_keys.
  - destruct (find_duplicates_values lib t self image_files) as [-> _].
    apply Forall_app. split; apply Forall_fmap, Forall_forall; intros fl Hfl;
      cbn.
    + unfold exact_duplicates_in in Hfl. rewrite exact_duplicates_values in Hfl.
      apply list_elem_of_In, filter_In in Hfl as [_ Hlen].
      apply Nat.ltb_lt in Hlen. lia.
    + unfold kept_candidates, candidate_groups in Hfl.
      apply list_elem_of_In, filter_In in Hfl as [Hfl _].
      apply list_elem_of_In in Hfl.
      destruct (similar_groups_inv self
                  (foldl (hashes_step lib t) [] image_files)) as [Hall _].
      eapply Forall_forall in Hall; [|exact Hfl]. lia.
  - exists (length (Dict.values (exact_duplicates_in lib t image_files))).
    intros i g Hi.
    destruct (find_duplicates_values lib t self image_files) as [Hv _].
    rewrite Hv in Hi. case_decide as Hlt.
    + rewrite lookup_app_l in Hi by by rewrite length_fmap.
      apply list_lookup_fmap_Some in Hi as (fl & -> & _). done.
    + rewrite lookup_app_r in Hi by (rewrite length_fmap; lia).
      apply list_lookup_fmap_Some in Hi as (fl & -> & _). done.
Qed.

(** ** More on similar groups *)

Lemma inner_loop_prefix self img1_path hash1 items :
  ∀ group processed group' processed',
    foldl (inner_step self img1_path hash1) (group, processed) items
      = (group', processed') →
    ∃ rest, group' = group ++ rest.
Proof.
  induction items as [|[p2 h2] items IH];
    intros group processed group' processed' Hf.
  - cbn in Hf. injection Hf as <- <-. exists []. by rewrite app_nil_r.
  - cbn [foldl] in Hf. unfold inner_step at 2 in Hf.
    destruct (bool_decide (p2 ∈ processed) || bool_decide (img1_path = p2));
      [by eapply IH|].
    destruct (joins self hash1 h2); [|by eapply IH].
    destruct (IH _ _ _ _ Hf) as [rest ->]. exists (p2 :: rest).
    by rewrite <- app_assoc.
Qed.

Section Seeds.
Context (self : ImageProcessor) (image_hashes : Dict.t Path hashes).
Hypothesis Hkeys : NoDup (Dict.keys image_hashes).

Lemma outer_step_seeded st item :
  item ∈ image_hashes →
  Forall (seeded self (Dict.get image_hashes)) st.1 →
  Forall (seeded self (Dict.get image_hashes))
         (outer_step self image_hashes st item).1.
Proof.
  destruct st as [similar_groups processed], item as [img1_path hash1].
  intros Hitem Hall. cbn in Hall. unfold outer_step.
  destruct (bool_decide (img1_path ∈ processed)); [done|].
  destruct (foldl _ _ image_hashes) as [group processed'] eqn:Hf.
  destruct (1 <? length group); [|done]. cbn.
  apply Forall_app. split; [done|]. apply Forall_singleton.
  pose proof (inner_loop_members _ _ _ _ _ _ _ _ Hf) as Hmem.
  destruct (inner_loop_prefix _ _ _ _ _ _ _ _ Hf) as [rest ->].
  destruct (inner_loop_NoDup _ _ _ _ _ _ _ _ Hf) as [Hnd _].
  { intros p. rewrite list_elem_of_singleton. set_solver. }
  { apply NoDup_singleton. }
  cbn in Hnd |- *. apply NoDup_cons in Hnd as [Hseed _].
  exists hash1. split; [by apply dict_elem_get|]. intros f Hf'.
  destruct (proj1 (Hmem f)) as [Hs|(_ & _ & h & Hin & Hj)].
  - by right.
  - apply list_elem_of_singleton in Hs. congruence.
  - exists h. split; [by apply dict_elem_get|done].
Qed.

Lemma similar_groups_seeded :
  Forall (seeded self (Dict.get image_hashes))
         (similar_groups_of self image_hashes).
Proof.
  unfold similar_groups_of.
  apply (foldl_invariant
           (λ st, Forall (seeded self (Dict.get image_hashes)) st.1)).
  - constructor.
  - intros st item Hst Hin. by apply outer_step_seeded.
Qed.
End Seeds.

Lemma similar_entry lib self t image_files g :
  g ∈ Dict.values (find_duplicates lib self t image_files) →
  type g = "similar" →
  g = group_entry lib t "similar" (files g)
  ∧ files g ∈ candidate_groups lib self t image_files.
Proof.
  intros Hg Hty.
  destruct (find_duplicates_values lib t self image_files) as [Hv _].
  rewrite Hv in Hg.
  apply elem_of_app in Hg as [Hg|Hg];
    apply list_elem_of_fmap in Hg as (fl & -> & Hfl); [done|].
  split; [done|]. cbn. unfold kept_candidates in Hfl.
  apply list_elem_of_In, filter_In in Hfl as [Hfl _].
  by apply list_elem_of_In.
Qed.

Lemma similar_group_facts lib self t image_files g :
  g ∈ Dict.values (find_duplicates lib self t image_files) →
  type g = "similar" →
  NoDup (files g) ∧ seeded self (calculate_image_hashes lib t) (files g).
Proof.
  intros Hg Hty. destruct (similar_entry _ _ _ _ _ Hg Hty) as [_ Hin].
  unfold candidate_groups in Hin.
  set (ih := foldl (hashes_step lib t) [] image_files) in *.
  destruct (similar_groups_inv self ih) as [Hall _].
  pose proof (similar_groups_seeded self ih
                (image_hashes_NoDup lib t image_files)) as Hseeded.
  eapply Forall_forall in Hall; [|exact Hin].
  eapply Forall_forall in Hseeded; [|exact Hin].
  split; [by destruct Hall as (_ & _ & ?)|].
  assert (∀ f h, Dict.get ih f = Some h →
                 calculate_image_hashes lib t f = Some h) as Hcalc.
  { intros f h Hget. apply dict_get_elem in Hget.
    by eapply image_hashes_computed. }
  destruct (files g) as [|s rest]; [done|].
  destruct Hseeded as (hs & Hs & Hrest). exists hs. split; [by apply Hcalc|].
  intros f Hf. destruct (Hrest f Hf) as (h & Hh & Hj).
  exists h. split; [by apply Hcalc|done].
Qed.

Lemma similar_group_entry_hashed lib self t image_files g f :
  g ∈ Dict.values (find_duplicates lib self t image_files) →
  type g = "similar" → f ∈ files g →
  ∃ h, calculate_image_hashes lib t f = Some h.
Proof.
  intros Hg Hty Hf.
  destruct (similar_group_facts _ _ _ _ _ Hg Hty) as [_ Hseeded].
  destruct (files g) as [|s rest]; [done|].
  destruct Hseeded as (hs & Hs & Hrest).
  apply elem_of_cons in Hf as [->|Hf]; [by exists hs|].
  destruct (Hrest f Hf) as (h & Hh & _). by exists h.
Qed.

(** X3. A similar group never repeats a file, and it is built around its
    first file: every member has perceptual hashes, and every member after
    the first passes the two-of-three vote against the first. *)
Theorem similar_group_members_match_seed lib self t image_files g :
  g ∈ Dict.values (find_duplicates lib self t image_files) →
  type g = "similar" →
  NoDup (files g) ∧ seeded self (calculate_image_hashes lib t) (files g).
Proof. apply similar_group_facts. Qed.

Lemma similar_group_members_match_seed_witness :
  NoDup [pic_c; pic_d]
  ∧ seeded pics_processor (calculate_image_hashes toy_imaging pics_fs)
           [pic_c; pic_d].
Proof.
  refine (similar_group_members_match_seed toy_imaging pics_processor pics_fs
            [pic_c; pic_d]
            (group_entry toy_imaging pics_fs "similar" [pic_c; pic_d]) _ _).
  - vm_compute. apply list_elem_of_In. left. reflexivity.
  - reflexivity.
Defined.

Lemma hash_sub_nonneg h1 h2 : (0 ≤ hash_sub h1 h2)%Z.
Proof. unfold hash_sub. lia. Qed.

Lemma joins_negative self hash1 hash2 :
  (hash_threshold self < 0)%Z → joins self hash1 hash2 = false.
Proof.
  intros Hneg. unfold joins.
  pose proof (hash_sub_nonneg (h_phash hash1) (h_phash hash2)).
  pose proof (hash_sub_nonneg (h_dhash hash1) (h_dhash hash2)).
  pose proof (hash_sub_nonneg (h_whash hash1) (h_whash hash2)).
  rewrite !(proj2 (Z.leb_gt _ _)) by lia. done.
Qed.

(** X4. With a negative threshold no file ever joins a seed: the result has
    exact groups only. *)
Theorem negative_threshold_exact_only lib self t image_files :
  (hash_threshold self < 0)%Z →
  similar_groups_of self (foldl (hashes_step lib t) [] image_files) = []
  ∧ Forall (λ g, type g = "exact")
           (Dict.values (find_duplicates lib self t image_files)).
Proof.
  intros Hneg.
  set (ih := foldl (hashes_step lib t) [] image_files).
  assert (similar_groups_of self ih = []) as Hnone.
  { destruct (similar_groups_inv self ih) as [Hall _].
    pose proof (similar_groups_seeded self ih
                  (image_hashes_NoDup lib t image_files)) as Hseeded.
    destruct (similar_groups_of self ih) as [|g gs]; [done|]. exfalso.
    apply Forall_cons in Hall as [(_ & Hlen & _) _].
    apply Forall_cons in Hseeded as [Hg _].
    destruct g as [|s [|f rest]]; cbn in Hlen; [lia..|].
    destruct Hg as (hs & _ & Hrest).
    destruct (Hrest f) as (h & _ & Hj); [by left|].
    by rewrite joins_negative in Hj. }
  split; [done|].
  destruct (find_duplicates_values lib t self image_files) as [-> _].
  unfold kept_candidates, candidate_groups. fold ih. rewrite Hnone. cbn.
  rewrite app_nil_r. by apply Forall_fmap, Forall_forall.
Qed.

Lemma negative_threshold_exact_only_witness :
  similar_groups_of (init [["pics"]] default_output_dir (-1) true)
    (foldl (hashes_step toy_imaging pics_fs) [] [pic_c; pic_d]) = [].
Proof.
  refine (proj1 (negative_threshold_exact_only toy_imaging
                   (init [["pics"]] default_output_dir (-1) true) pics_fs
                   [pic_c; pic_d] _)).
  reflexivity.
Defined.

Lemma resolutions_of_get lib t fl f :
  Dict.get (resolutions_of lib t fl) f
  = if bool_decide (f ∈ fl) then get_image_resolution lib t f else None.
Proof.
  unfold resolutions_of. induction fl as [|x l IH] using rev_ind; [done|].
  rewrite foldl_app. cbn [foldl].
  destruct (decide (x = f)) as [->|Hne].
  - rewrite (bool_decide_eq_true_2 (f ∈ l ++ [f])) by set_solver.
    destruct (get_image_resolution lib t f) as [res|] eqn:Hres.
    + apply dict_get_set_eq.
    + rewrite IH. by case_bool_decide.
  - assert (bool_decide (f ∈ l ++ [x]) = bool_decide (f ∈ l)) as ->.
    { apply bool_decide_ext. set_solver. }
    destruct (get_image_resolution lib t x); [|done].
    by rewrite dict_get_set_ne.
Qed.

(** X5. In every returned group, looking a file up in [resolutions] gives
    what [get_image_resolution] gives for it if the file is a member of the
    group, and nothing otherwise; the pixel count recorded is width times
    height; and every member of a similar group has an entry. *)
Theorem resolutions_lookup lib self t image_files g f :
  g ∈ Dict.values (find_duplicates lib self t image_files) →
  Dict.get (resolutions g) f
  = (if bool_decide (f ∈ files g) then get_image_resolution lib t f else None)
  ∧ (∀ w h p, Dict.get (resolutions g) f = Some (w, h, p) → p = (w * h)%Z)
  ∧ (type g = "similar" → f ∈ files g → is_Some (Dict.get (resolutions g) f)).
Proof.
  intros Hg.
  assert (Dict.get (resolutions g) f
          = if bool_decide (f ∈ files g) then get_image_resolution lib t f
            else None) as Hget.
  { destruct (find_duplicates_values lib t self image_files) as [Hv _].
    rewrite Hv in Hg.
    apply elem_of_app in Hg as [Hg|Hg];
      apply list_elem_of_fmap in Hg as (fl & -> & _); apply resolutions_of_get. }
  split_and!; [done| |].
  - rewrite Hget. intros w h p. case_bool_decide; [|done].
    unfold get_image_resolution.
    destruct (stat t f) as [[c|]|]; [|done..].
    destruct (image_open lib c) as [img|]; [|done].
    destruct (image_size lib img). by intros [= <- <- <-].
  - intros Hty Hf. rewrite Hget, bool_decide_eq_true_2 by done.
    destruct (similar_group_entry_hashed lib self t image_files g f Hg Hty Hf)
      as [h Hh].
    unfold calculate_image_hashes in Hh. unfold get_image_resolution.
    destruct (stat t f) as [[c|]|]; [|done..].
    destruct (image_open lib c) as [img|]; [|done].
    destruct (image_size lib img). by eexists.
Qed.

Lemma resolutions_lookup_witness :
  is_Some (Dict.get (resolutions (group_entry toy_imaging pics_fs "similar"
                                    [pic_c; pic_d])) pic_c).
Proof.
  refine (proj2 (proj2 (resolutions_lookup toy_imaging pics_processor pics_fs
                          [pic_c; pic_d]
                          (group_entry toy_imaging pics_fs "similar"
                             [pic_c; pic_d]) pic_c _)) _ _).
  - vm_compute. apply list_elem_of_In. left. reflexivity.
  - reflexivity.
  - apply list_elem_of_In. left. reflexivity.
Defined.

(** ** More on [delete_duplicates] *)






















(** ** More on the face pipeline *)

Section LabelFacts.
Context (lib : FaceLib).
Implicit Types (st : face_state (Encoding lib)).


End LabelFacts.



Section Tally.
Context (lib : FaceLib) (self : ImageProcessor).
Context (cb : option (nat → nat → Path → result unit)) (total_ : nat).

(** Whatever the images, the loop counts each once as processed and once as
    with or without faces, adds at most one entry to [errors] for each, and
    changes no entry of the tree. *)
Lemma organize_loop_tally files : ∀ idx s s',
  organize_loop lib self cb total_ idx files s = Some s' →
  l_processed lib s' = l_processed lib s + length files
  ∧ l_faces_detected lib s' + l_no_faces_count lib s'
    = l_faces_detected lib s + l_no_faces_count lib s + length files
  ∧ length (l_errors lib s') ≤ length (l_errors lib s) + length files
  ∧ (∀ q n, l_fs lib s !! q = Some n → l_fs lib s' !! q = Some n).
Proof.
  induction files as [|p files IH]; intros idx s s' Hloop.
  - cbn in Hloop. injection Hloop as <-. cbn. split_and!; (done || lia).
  - cbn in Hloop.
    destruct (organize_step lib self cb total_ s idx p) as [s1|] eqn:Hstep;
      [|done].
    cbn in Hloop. destruct (IH _ _ _ Hloop) as (Hp & Hc & He & Hfs).
    cbn [length].
    apply organize_step_cases in Hstep
      as [[e ->]|(label & t' & copied & _ & Hcopy & ->)]; cbn in *.
    + rewrite length_app in He. cbn in He. split_and!; [lia..|done].
    + split_and!; [lia| | |].
      * destruct (negb _); lia.
      * destruct copied; [lia|]. rewrite length_app in He. cbn in He. lia.
      * intros q n Hq. apply Hfs. by eapply copy_into_keeps.
Qed.
End Tally.


(** ** More on the enumerator and the ranking *)

Section EnumeratorApp.
Context (cs : bool) (t : fs).

Lemma formats_loop_app d exts : ∀ acc,
  foldl (λ image_files ext,
           (image_files ++ rglob cs t d ext) ++ rglob cs t d (upper ext))
        acc exts
  = acc ++ foldl (λ image_files ext,
                    (image_files ++ rglob cs t d ext)
                    ++ rglob cs t d (upper ext)) [] exts.
Proof.
  induction exts as [|e exts IH]; intros acc; cbn [foldl];
    [by rewrite app_nil_r|].
  rewrite IH, (IH (([] ++ _) ++ _)). cbn [app]. by rewrite !app_assoc.
Qed.

Lemma dirs_loop_app exts dirs : ∀ acc,
  foldl (λ image_files source_dir,
           if negb (exists_ t source_dir) then image_files
           else foldl (λ image_files ext,
                         (image_files ++ rglob cs t source_dir ext)
                         ++ rglob cs t source_dir (upper ext))
                      image_files exts) acc dirs
  = acc ++ foldl (λ image_files source_dir,
                    if negb (exists_ t source_dir) then image_files
                    else foldl (λ image_files ext,
                                  (image_files ++ rglob cs t source_dir ext)
                                  ++ rglob cs t source_dir (upper ext))
                               image_files exts) [] dirs.
Proof.
  induction dirs as [|d dirs IH]; intros acc; cbn [foldl];
    [by rewrite app_nil_r|].
  destruct (negb (exists_ t d)); [apply IH|].
  rewrite IH, (IH (foldl _ [] exts)), (formats_loop_app d exts acc).
  by rewrite app_assoc.
Qed.

Lemma get_image_files_dirs_app dirs1 dirs2 out thr cnn :
  get_image_files cs (init (dirs1 ++ dirs2) out thr cnn) t
  = get_image_files cs (init dirs1 out thr cnn) t
    ++ get_image_files cs (init dirs2 out thr cnn) t.
Proof.
  unfold get_image_files. cbn [source_dirs supported_formats init].
  by rewrite foldl_app, dirs_loop_app.
Qed.
End EnumeratorApp.

(** X12. [get_image_files] works through the source directories one after
    the other: for a list of directories followed by another it returns what
    it returns for the first, followed by what it returns for the second.  So
    a directory given twice yields its pictures twice, and directories none
    of which exists yield the empty list. *)
Theorem get_image_files_concat cs t dirs1 dirs2 out thr cnn :
  get_image_files cs (init (dirs1 ++ dirs2) out thr cnn) t
  = get_image_files cs (init dirs1 out thr cnn) t
    ++ get_image_files cs (init dirs2 out thr cnn) t
  ∧ ((∀ d, d ∈ dirs1 → exists_ t d = false) →
     get_image_files cs (init dirs1 out thr cnn) t = []).
Proof.
  split; [apply get_image_files_dirs_app|].
  unfold get_image_files. cbn [source_dirs supported_formats init].
  induction dirs1 as [|d dirs IH]; intros Hnone; [done|].
  cbn [foldl]. rewrite (Hnone d) by by left. cbn [negb].
  apply IH. intros d' Hd'. apply Hnone. by right.
Qed.

Section Descending.
Context {A : Type} (key : A → Z * Z).

Lemma descending_tail x l : descending key (x :: l) → descending key l.
Proof. destruct l; cbn; [done|]. by intros [_ ?]. Qed.

Lemma insert_desc_descending x l :
  descending key l → descending key (insert_desc key x l).
Proof.
  induction l as [|y l IH]; intros Hl; [done|]. cbn [insert_desc].
  destruct (key_lt (key x) (key y)) eqn:Hxy.
  - pose proof (IH (descending_tail _ _ Hl)) as Hins.
    destruct l as [|z l]; cbn [insert_desc] in *.
    + cbn. split; [|done]. apply key_lt_false.
      apply key_lt_spec in Hxy. by apply lex_lt_le.
    + destruct Hl as [Hyz Hl]. destruct (key_lt (key x) (key z)).
      * by split.
      * split; [|done]. apply key_lt_false.
        apply key_lt_spec in Hxy. by apply lex_lt_le.
  - by split.
Qed.

Lemma sort_desc_descending l : descending key (sort_desc key l).
Proof.
  induction l as [|x l IH]; [done|]. cbn. fold (sort_desc key l).
  by apply insert_desc_descending.
Qed.

Lemma sort_desc_fixed l : descending key l → sort_desc key l = l.
Proof.
  induction l as [|x l IH]; intros Hl; [done|].
  cbn. fold (sort_desc key l). rewrite IH by by eapply descending_tail.
  destruct l as [|y l]; [done|]. destruct Hl as [Hxy _]. cbn.
  by rewrite Hxy.
Qed.

Lemma sort_desc_idem l :
  sort_desc key (sort_desc key l) = sort_desc key l.
Proof. apply sort_desc_fixed, sort_desc_descending. Qed.
End Descending.

Lemma reranked_files t g :
  files (reranked t g) = sort_desc (file_key t g) (files g).
Proof.
  unfold reranked. cbn. rewrite ranked_files, <- list_fmap_compose.
  apply list_fmap_id.
Qed.

(** X13. The ranking is stable under repetition: a group whose files are
    already listed in ranked order is ranked in that same order again, so
    the file kept and the files found redundant are the same, in the report
    and in [delete_duplicates]. *)
Theorem ranking_idempotent t g :
  ranked t (reranked t g) = ranked t g
  ∧ keep t (reranked t g) = keep t g
  ∧ low_res_of t (reranked t g) = low_res_of t g
  ∧ files (reranked t g) ≡ₚ files g.
Proof.
  assert (sort_desc (file_key t (reranked t g)) (files (reranked t g))
          = sort_desc (file_key t g) (files g)) as Hsort.
  { rewrite reranked_files.
    rewrite <- (list_fmap_id (sort_desc (file_key t g) (files g))) at 1.
    rewrite (sort_desc_map id (file_key t g)) by done.
    by rewrite list_fmap_id, sort_desc_idem. }
  split_and!.
  - by rewrite !ranked_files, Hsort.
  - by rewrite !keep_files, Hsort.
  - by rewrite !low_res_files, Hsort.
  - rewrite reranked_files. apply sort_desc_perm.
Qed.

(** ** The summary of a scan *)

Lemma dict_set_append_concat {K A : Type} `{EqDecision K}
    (d : Dict.t K (list A)) m x :
  concat (Dict.values (Dict.set d m (default [] (Dict.get d m) ++ [x])))
  ≡ₚ x :: concat (Dict.values d).
Proof.
  unfold Dict.values. induction d as [|[k0 v0] d IH]; cbn; [done|].
  destruct (decide (k0 = m)) as [->|Hne]; cbn.
  - rewrite <- app_assoc. cbn. by rewrite <- Permutation_middle.
  - rewrite IH. by rewrite <- Permutation_middle.
Qed.

(** The lists of [md5_to_files] hold every input file at most as often as
    the input does. *)
Lemma md5_to_files_submseteq lib t image_files :
  concat (Dict.values (foldl (md5_step lib t) [] image_files)) ⊆+ image_files.
Proof.
  induction image_files as [|x l IH] using rev_ind; [done|].
  rewrite foldl_app. cbn [foldl]. unfold md5_step at 1.
  assert (concat (Dict.values (foldl (md5_step lib t) [] l)) ⊆+ l ++ [x])
    as Hweak by by apply submseteq_inserts_r.
  destruct (calculate_md5_hash lib t x) as [mx|]; [|done].
  case_bool_decide; [done|].
  rewrite dict_set_append_concat, <- Permutation_cons_append.
  by apply submseteq_skip.
Qed.

Lemma concat_elem {A : Type} (x : A) (ls : list (list A)) :
  x ∈ concat ls ↔ ∃ l, x ∈ l ∧ l ∈ ls.
Proof.
  rewrite list_elem_of_In, in_concat. split.
  - intros (l & Hl & Hx). exists l. by rewrite !list_elem_of_In.
  - intros (l & Hx & Hl). exists l. by rewrite <- !list_elem_of_In.
Qed.

Lemma concat_filter_sublist {A : Type} (c : list A → bool) gs :
  concat (List.filter c gs) `sublist_of` concat gs.
Proof.
  induction gs as [|g gs IH]; cbn; [done|]. destruct (c g); cbn.
  - by apply sublist_app.
  - by apply sublist_inserts_l.
Qed.

Lemma pairwise_disjoint_NoDup gs :
  pairwise_disjoint gs → Forall NoDup gs → NoDup (concat gs).
Proof.
  induction gs as [|g gs IH]; cbn; [constructor|]. intros [Hf Hpd] Hnd.
  apply Forall_cons in Hnd as [Hg Hnd]. apply NoDup_app.
  split_and!; [done| |by apply IH].
  intros f Hfg Hin. apply concat_elem in Hin as (g' & Hf' & Hg').
  eapply Forall_forall in Hf; [|exact Hg']. by apply (Hf f).
Qed.

Lemma disjoint_parts_length {A : Type} (X S l : list A) :
  X ⊆+ l → NoDup S → (∀ x, x ∈ S → x ∈ l) → (∀ x, x ∈ S → x ∉ X) →
  length X + length S ≤ length l.
Proof.
  intros [k Hk]%submseteq_Permutation Hnd Hin Hdisj.
  rewrite Hk, length_app. apply Nat.add_le_mono_l, submseteq_length.
  apply NoDup_submseteq; [done|]. intros x Hx.
  specialize (Hin x Hx). rewrite Hk in Hin.
  apply elem_of_app in Hin as [?|?]; [by destruct (Hdisj x Hx)|done].
Qed.

Section Summary.
Context (lib : Imaging) (self : ImageProcessor) (t : fs).
Context (image_files : list Path).

(** No more files are grouped than were given. *)
Lemma listed_bound :
  length (listed (find_duplicates lib self t image_files))
  ≤ length image_files.
Proof.
  unfold listed. rewrite result_groups, concat_app, length_app.
  destruct (kept_groups_facts lib self t image_files)
    as (Hpd & Hin & Hcross).
  apply disjoint_parts_length.
  - etrans; [|apply md5_to_files_submseteq].
    unfold exact_duplicates_in. rewrite exact_duplicates_values.
    apply sublist_submseteq, concat_filter_sublist.
  - apply pairwise_disjoint_NoDup; [done|].
    apply Forall_forall. intros g Hg.
    unfold kept_candidates, candidate_groups in Hg.
    apply list_elem_of_In, filter_In in Hg as [Hg _].
    apply list_elem_of_In in Hg.
    destruct (similar_groups_inv self
                (foldl (hashes_step lib t) [] image_files)) as [Hall _].
    eapply Forall_forall in Hall; [|exact Hg]. naive_solver.
  - intros f Hf. apply concat_elem in Hf as (g & Hf & Hg).
    by apply (Hin g f).
  - intros f Hf Hex.
    apply concat_elem in Hf as (g & Hf & Hg).
    apply concat_elem in Hex as (fl & Hffl & Hfl).
    by apply (Hcross g f fl).
Qed.

Lemma group_sizes :
  Forall (λ g, 2 ≤ length (files g))
         (Dict.values (find_duplicates lib self t image_files)).
Proof.
  destruct (find_duplicates_values lib t self image_files) as [-> _].
  apply Forall_app. split; apply Forall_fmap, Forall_forall; intros fl Hfl;
    cbn.
  - unfold exact_duplicates_in in Hfl. rewrite exact_duplicates_values in Hfl.
    apply list_elem_of_In, filter_In in Hfl as [_ Hlen].
    apply Nat.ltb_lt in Hlen. lia.
  - unfold kept_candidates, candidate_groups in Hfl.
    apply list_elem_of_In, filter_In in Hfl as [Hfl _].
    apply list_elem_of_In in Hfl.
    destruct (similar_groups_inv self
                (foldl (hashes_step lib t) [] image_files)) as [Hall _].
    eapply Forall_forall in Hall; [|exact Hfl]. lia.
Qed.
End Summary.

Lemma duplicates_found_sum gs : ∀ acc,
  foldl (λ acc g, acc + (Z.of_nat (length (files g)) - 1))%Z acc gs
  = (acc + Z.of_nat (length (concat (files <$> gs)))
     - Z.of_nat (length gs))%Z.
Proof.
  induction gs as [|g gs IH]; intros acc; cbn [foldl]; [cbn; lia|].
  rewrite IH. cbn. rewrite length_app. lia.
Qed.

Lemma redundant_length t gs :
  Forall (λ g, 2 ≤ length (files g)) gs →
  length (concat (low_res_of t <$> gs)) + length gs
  = length (concat (files <$> gs)).
Proof.
  induction 1 as [|g gs Hg _ IH]; [done|]. cbn. rewrite !length_app, <- IH.
  rewrite low_res_files.
  pose proof (Permutation_length (sort_desc_perm (file_key t g) (files g)))
    as Hlen.
  destruct (sort_desc (file_key t g) (files g)); cbn in *; lia.
Qed.

Lemma two_per_group gs :
  Forall (λ g, 2 ≤ length (files g)) gs →
  2 * length gs ≤ length (concat (files <$> gs)).
Proof.
  induction 1 as [|g gs Hg _ IH]; [done|]. cbn. rewrite length_app. lia.
Qed.

Lemma size_or_zero_nonneg t p : (0 ≤ size_or_zero t p)%Z.
Proof.
  unfold size_or_zero, st_size. destruct (exists_ t p); [|done].
  destruct (stat t p) as [[c|]|]; lia.
Qed.

Lemma Zsum_nonneg l : Forall (λ z, 0 ≤ z)%Z l → (0 ≤ Zsum l)%Z.
Proof. unfold Zsum. induction 1; cbn; lia. Qed.

(** X14. The summary the [/api/find-duplicates] route computes from the
    result of [find_duplicates]: [duplicates_found] is the number of files
    the resolver would remove, there is at least one of them per group,
    groups and redundant files together are never more than the images
    scanned, and the space saved is not negative. *)
Theorem scan_summary lib self t image_files :
  let r := find_duplicates lib self t image_files in
  duplicates_found r = Z.of_nat (length (redundant t r))
  ∧ (Z.of_nat (length r) ≤ duplicates_found r)%Z
  ∧ (duplicates_found r + Z.of_nat (length r)
     ≤ Z.of_nat (length image_files))%Z
  ∧ (0 ≤ space_saved t r)%Z.
Proof.
  intros r.
  pose proof (listed_bound lib self t image_files) as Hbound.
  pose proof (redundant_length t _ (group_sizes lib self t image_files))
    as Hred.
  pose proof (two_per_group _ (group_sizes lib self t image_files)) as Htwo.
  unfold listed in Hbound. unfold duplicates_found, redundant.
  rewrite duplicates_found_sum. subst r.
  remember (find_duplicates lib self t image_files) as r eqn:Hr.
  assert (length (Dict.values r) = length r) as Hlen
    by apply length_fmap.
  split_and!; [lia..|].
  rewrite space_saved_sum. apply Zsum_nonneg, Forall_fmap, Forall_forall.
  intros p _. apply size_or_zero_nonneg.
Qed.

(** X15. The exact groups of [find_duplicates] are the digest classes of
    the input with more than one entry: each lists the input files with one
    non-empty digest, in input order and as often as the input has them. *)
Theorem exact_groups_are_digest_classes lib self t image_files fl :
  (∃ g, g ∈ Dict.values (find_duplicates lib self t image_files)
        ∧ type g = "exact" ∧ files g = fl)
  ↔ (∃ m, fl = List.filter (digest_is lib t m) image_files
          ∧ 1 < length fl).
Proof.
  destruct (find_duplicates_values lib t self image_files) as [Hv _].
  pose proof (md5_to_files_inv lib t image_files) as [Hnd Hinv].
  split.
  - intros (g & Hg & Hty & <-). rewrite Hv in Hg.
    apply elem_of_app in Hg as [Hg|Hg];
      apply list_elem_of_fmap in Hg as (fl & -> & Hfl); [|done].
    cbn. unfold exact_duplicates_in in Hfl.
    rewrite exact_duplicates_values in Hfl.
    apply list_elem_of_In, filter_In in Hfl as [Hfl Hlen].
    apply Nat.ltb_lt in Hlen.
    apply list_elem_of_In, list_elem_of_fmap in Hfl as ([m fl'] & -> & Hin).
    cbn in *. exists m. split; [|done].
    apply dict_elem_get in Hin; [|done].
    rewrite md5_to_files_get in Hin.
    destruct (List.filter (digest_is lib t m) image_files); [done|].
    by injection Hin as <-.
  - intros (m & -> & Hlen).
    pose proof (md5_to_files_get lib t image_files m) as Hget.
    destruct (List.filter (digest_is lib t m) image_files) as [|a fl] eqn:Hflt;
      [cbn in Hlen; lia|].
    apply dict_get_elem in Hget.
    exists (group_entry lib t "exact" (a :: fl)).
    split_and!; [|done..]. rewrite Hv. apply elem_of_app. left.
    apply list_elem_of_fmap_2. unfold exact_duplicates_in.
    rewrite exact_duplicates_values. apply list_elem_of_In, filter_In. split.
    + apply list_elem_of_In. by apply (list_elem_of_fmap_2 snd) in Hget.
    + by apply Nat.ltb_lt.
Qed.

(** ** Moving the redundant files *)





(** X17. A path that [find_duplicates] puts in a group is a regular file
    of the tree that could be read, and in a similar group one that the
    imaging library could open: missing paths, directories and, for the
    similarity step, undecodable files are left out. *)
Theorem grouped_files_are_readable lib self t image_files g f :
  g ∈ Dict.values (find_duplicates lib self t image_files) →
  f ∈ files g →
  ∃ c, stat t f = Some (File c)
       ∧ (type g = "similar" → ∃ img, image_open lib c = Ok img).
Proof.
  intros Hg Hf.
  destruct (find_duplicates_values lib t self image_files) as [Hv _].
  pose proof Hg as Hg'. rewrite Hv in Hg'.
  apply elem_of_app in Hg' as [Hex|Hsim].
  - apply list_elem_of_fmap in Hex as (fl & -> & Hfl). cbn in Hf.
    unfold exact_duplicates_in in Hfl. rewrite exact_duplicates_values in Hfl.
    apply list_elem_of_In, filter_In in Hfl as [Hfl _].
    apply list_elem_of_In, list_elem_of_fmap in Hfl as ([m fl'] & -> & Hin).
    destruct (md5_to_files_inv lib t image_files) as [_ Hinv].
    destruct (Hinv m fl' Hin f Hf) as [Hm _].
    unfold calculate_md5_hash in Hm.
    destruct (stat t f) as [[c|]|]; [|done..]. by exists c.
  - apply list_elem_of_fmap in Hsim as (fl & Heq & Hfl).
    assert (type g = "similar") as Hty by by subst g.
    destruct (similar_entry _ _ _ _ _ Hg Hty) as [_ Hcand].
    unfold candidate_groups in Hcand.
    destruct (similar_groups_inv self
                (foldl (hashes_step lib t) [] image_files)) as [Hall _].
    eapply Forall_forall in Hall; [|exact Hcand].
    destruct Hall as (Hkeys & _ & _).
    specialize (Hkeys f Hf).
    apply list_elem_of_fmap in Hkeys as ([f' h] & -> & Hin).
    apply image_hashes_computed in Hin. cbn.
    unfold calculate_image_hashes in Hin.
    destruct (stat t f') as [[c|]|]; [|done..]. exists c. split; [done|].
    intros _. destruct (image_open lib c) as [img|]; [by exists img|done].
Qed.

Lemma grouped_files_are_readable_witness :
  ∃ c, stat pics_fs pic_c = Some (File c)
       ∧ (type (group_entry toy_imaging pics_fs "similar" [pic_c; pic_d])
          = "similar" → ∃ img, image_open toy_imaging c = Ok img).
Proof.
  refine (grouped_files_are_readable toy_imaging pics_processor pics_fs
            [pic_c; pic_d]
            (group_entry toy_imaging pics_fs "similar" [pic_c; pic_d])
            pic_c _ _).
  - vm_compute. apply list_elem_of_In. left. reflexivity.
  - apply list_elem_of_In. left. reflexivity.
Defined.

(** ** What the organizer writes *)

Lemma prefix_snoc {A : Type} (q l : list A) x :
  q `prefix_of` l ++ [x] → q `prefix_of` l ∨ q = l ++ [x].
Proof.
  intros [k Hk]. destruct k as [|y k _] using rev_ind.
  - right. by rewrite app_nil_r in Hk.
  - left. rewrite app_assoc in Hk. apply app_inj_tail in Hk as [-> _].
    by exists k.
Qed.

Lemma mkdir_parents_from_new rest : ∀ pre t t' q n,
  mkdir_parents_from pre rest t = Ok t' → t !! q = None → t' !! q = Some n →
  n = Dir ∧ q `prefix_of` pre ++ rest.
Proof.
  induction rest as [|c rest IH]; intros pre t t' q n Hmk Hq Hq'; cbn in Hmk.
  - injection Hmk as <-. congruence.
  - rewrite stat_joinpath in Hmk.
    replace (pre ++ c :: rest) with (joinpath pre c ++ rest)
      by (unfold joinpath; by rewrite <- app_assoc).
    destruct (t !! joinpath pre c) as [[?|]|] eqn:Hc; [done|by eapply IH|].
    destruct (decide (q = joinpath pre c)) as [->|Hne].
    + pose proof (mkdir_parents_from_keeps _ _ _ _ (joinpath pre c) Dir Hmk
                    (lookup_insert_eq _ _ _)) as Hkept.
      split; [congruence|]. by apply prefix_app_r.
    + eapply IH; [done| |done]. by rewrite lookup_insert_ne.
Qed.

Lemma copy_into_new t out label p t1 r q n :
  copy_into t out label p = Some (t1, r) →
  t !! q = None → t1 !! q = Some n →
  match n with
  | Dir => q `prefix_of` out ∨ parent q = out
  | File c => parent (parent q) = out ∧ p ≠ q ∧ t1 !! p = Some (File c)
  end.
Proof.
  unfold copy_into. intros Hcopy Hq Hq'.
  assert (∀ ta, mkdir_parents t (joinpath out label) = Ok ta →
                ta !! q = Some n → n = Dir ∧ (q `prefix_of` out ∨ parent q = out))
    as Hdirs.
  { intros ta Hmk Hqa.
    destruct (mkdir_parents_from_new _ _ _ _ _ _ Hmk Hq Hqa) as [-> Hpre].
    split; [done|]. cbn [app] in Hpre.
    apply prefix_snoc in Hpre as [? | ->]; [by left|right].
    apply parent_joinpath. }
  destruct (mkdir_parents _ _) as [ta|e] eqn:Hmk.
  - destruct (free_dest ta _ _) as [dest|] eqn:Hfree; [|done].
    cbn in Hcopy. apply free_dest_fresh in Hfree as (Hne & Hex & Hpar).
    destruct (copy2 ta p dest) as [t2|e] eqn:Hcp.
    + injection Hcopy as <- <-.
      apply copy2_fresh in Hcp as (c & Hsrc & -> & Hnone); [|done..].
      destruct (decide (q = dest)) as [->|Hqd].
      * rewrite lookup_insert_eq in Hq'. injection Hq' as <-.
        assert (p ≠ dest) as Hpd by congruence.
        rewrite Hpar, parent_joinpath. split_and!; [done..|].
        by rewrite lookup_insert_ne.
      * rewrite lookup_insert_ne in Hq' by done.
        by destruct (Hdirs ta eq_refl Hq') as [-> ?].
    + injection Hcopy as <- <-. by destruct (Hdirs ta eq_refl Hq') as [-> ?].
  - injection Hcopy as <- <-. congruence.
Qed.

Lemma organizer_entry_weaken out files files' t' q n :
  (∀ p, p ∈ files → p ∈ files') →
  organizer_entry out files t' q n → organizer_entry out files' t' q n.
Proof.
  intros Hsub. destruct n as [c|]; [|done].
  intros (Hpar & p & Hp & Hne & Hc). split; [done|]. exists p. auto.
Qed.

Section Writes.
Context (lib : FaceLib) (self : ImageProcessor).
Context (cb : option (nat → nat → Path → result unit)) (total_ : nat).

Lemma organize_loop_writes files : ∀ idx s s',
  organize_loop lib self cb total_ idx files s = Some s' →
  ∀ q n, l_fs lib s !! q = None → l_fs lib s' !! q = Some n →
         organizer_entry (output_dir self) files (l_fs lib s') q n.
Proof.
  induction files as [|p files IH]; intros idx s s' Hloop q n Hq Hq'.
  - cbn in Hloop. injection Hloop as <-. congruence.
  - cbn in Hloop.
    destruct (organize_step lib self cb total_ s idx p) as [s1|] eqn:Hstep;
      [|done].
    cbn in Hloop.
    pose proof (organize_loop_tally lib self cb total_ _ _ _ _ Hloop)
      as (_ & _ & _ & Hkeep).
    destruct (l_fs lib s1 !! q) as [n1|] eqn:Hq1.
    + rewrite (Hkeep q n1 Hq1) in Hq'. injection Hq' as <-.
      apply organize_step_cases in Hstep
        as [[e ->]|(label & t1 & copied & _ & Hcopy & ->)]; cbn in *;
        [congruence|].
      pose proof (copy_into_new _ _ _ _ _ _ _ _ Hcopy Hq Hq1) as Hnew.
      destruct n1 as [c|]; [|done].
      destruct Hnew as (Hpar & Hne & Hc). split; [done|].
      exists p. split_and!; [by left|done|by apply Hkeep].
    + eapply organizer_entry_weaken; [|by eapply IH].
      intros p' Hp'. by right.
Qed.
End Writes.

(** X18. [organize_images] writes only at the output folder: an entry of
    the tree that was not there before is a directory on the way to the
    output folder or directly in it, or a file in a folder of the output
    folder with the bytes of an input image, which is still in its place. *)
Theorem organize_images_writes lib self st t image_files cb :
  ∃ t' st' r,
    organize_images lib self st t image_files cb = Some (t', st', r)
    ∧ ∀ q n, t !! q = None → t' !! q = Some n →
             organizer_entry (output_dir self) image_files t' q n.
Proof.
  unfold organize_images.
  destruct (mkdir_parents t (output_dir self)) as [t0|e] eqn:Hmk.
  - destruct (organize_loop_total lib self cb (length image_files)
                image_files 1
                {| l_fs := t0; l_faces := st; l_processed := 0;
                   l_errors := preflight_errors lib; l_faces_detected := 0;
                   l_no_faces_count := 0 |}) as [s Hloop].
    rewrite Hloop. cbn [mbind option_bind].
    eexists _, _, _. split; [done|]. intros q n Hq Hq'.
    pose proof (organize_loop_tally lib self cb _ _ _ _ _ Hloop)
      as (_ & _ & _ & Hkeep). cbn in Hkeep.
    destruct (t0 !! q) as [n0|] eqn:Hq0.
    + rewrite (Hkeep q n0 Hq0) in Hq'. injection Hq' as <-.
      destruct (mkdir_parents_from_new _ _ _ _ _ _ Hmk Hq Hq0) as [-> Hpre].
      by left.
    + by apply (organize_loop_writes lib self cb _ _ _ _ _ Hloop).
  - eexists _, _, _. split; [done|]. intros q n Hq Hq'. congruence.
Qed.
